(** * proxyreader: source resolution, caching fetchers and the reading session

    A shallow embedding of the TypeScript sources

    - [src/lib/imgur.ts]  ([fetchImgurAlbumPages], and the gist reader client
      that follows it in the same file: [sortChapterKeys], the mount effect,
      [goToNextPage], [goToPrevPage], [getPageDisplay]),
    - [src/lib/gist.ts]   ([chapterSchema], [gistConfigSchema], [fetchGistConfig]),
    - the source resolver ([resolveSourcePages]) and the Imgur reader client,

    together with the part of the JavaScript platform these functions lean on
    (numbers, strings, [JSON.parse], [parseFloat], [Math.min]/[Math.max],
    [Array.prototype.sort], the zod schema combinators).

    Conventions.
    - A JavaScript string is the list of its UTF-16 code units.
    - A JavaScript number is [NaN], an infinity, or a rational.  What
      [parseFloat] reads is rounded to the nearest IEEE double, as chapter
      keys are ordered by it; page numbers and counts are kept exact, which
      is what the program computes on whole numbers up to 2^53.  The sign
      of zero is not modelled.
    - [console.log]/[console.error] and [window.scrollTo] have no effect on
      any value computed here and are left out.
    - What the platform leaves to the engine (the text of a runtime error,
      the rendering of a non-integral number, locale collation, URL
      well-formedness) is collected in the record [Platform]. *)

From Stdlib Require Import ZArith NArith QArith Lqa List Permutation Ascii String Bool Lia DecimalString.
From stdpp Require Import base option list gmap.
Import ListNotations.

Set Default Proof Using "Type".
Set Warnings "-register-all".

(* ================================================================== *)
(** ** Strings *)
(* ================================================================== *)

Abbreviation jsstring := (list N) (only parsing).

(** The code units of an ASCII literal. *)
Definition str (s : string) : jsstring :=
  map N_of_ascii (list_ascii_of_string s).

Definition jsstring_eqb (a b : jsstring) : bool := bool_decide (a = b).

Fixpoint startsWith (s prefix : jsstring) : bool :=
  match prefix, s with
  | [], _ => true
  | p :: prefix', c :: s' => (N.eqb c p) && startsWith s' prefix'
  | _ :: _, [] => false
  end.

Definition endsWith (s suffix : jsstring) : bool :=
  startsWith (rev s) (rev suffix).

(** [String.prototype.toLowerCase], on the letters A-Z.  Outside ASCII the
    result of the real function differs, but no character outside A-Z
    lowers to an ASCII letter or to a full stop, which is all that
    [endsWith('.json')] looks at. *)
Definition lowerUnit (c : N) : N :=
  if ((65 <=? c) && (c <=? 90))%N then (c + 32)%N else c.
Definition toLowerCase (s : jsstring) : jsstring := map lowerUnit s.

Definition isDigit (c : N) : bool := ((48 <=? c) && (c <=? 57))%N.
Definition isAlnum (c : N) : bool :=
  isDigit c || ((65 <=? c) && (c <=? 90))%N || ((97 <=? c) && (c <=? 122))%N.

(** WhiteSpace and LineTerminator of ECMA-262 (what [parseFloat] and the
    string-to-number conversion trim). *)
Definition isStrWhiteSpaceChar (c : N) : bool :=
  ((9 <=? c) && (c <=? 13) || (c =? 32) || (c =? 160) || (c =? 5760)
   || (8192 <=? c) && (c <=? 8202) || (c =? 8232) || (c =? 8233)
   || (c =? 8239) || (c =? 8287) || (c =? 12288) || (c =? 65279))%N.

Fixpoint trimStart (s : jsstring) : jsstring :=
  match s with
  | c :: s' => if isStrWhiteSpaceChar c then trimStart s' else s
  | [] => []
  end.
Definition trim (s : jsstring) : jsstring := rev (trimStart (rev (trimStart s))).

(** Decimal rendering of an integer, as [Number::toString] gives it. *)
Definition Z_toString (z : Z) : jsstring :=
  str (NilZero.string_of_int (Z.to_int z)).

(* ================================================================== *)
(** ** Numbers *)
(* ================================================================== *)

Inductive number :=
| NaN
| Infinity (negative : bool)
| Fin (q : Q).

Definition of_Z (z : Z) : number := Fin (inject_Z z).
Definition of_nat (n : nat) : number := of_Z (Z.of_nat n).

Definition isNaN (n : number) : bool :=
  match n with NaN => true | _ => false end.

Definition num_neg (a : number) : number :=
  match a with
  | NaN => NaN
  | Infinity s => Infinity (negb s)
  | Fin q => Fin (Qopp q)
  end.

Definition num_add (a b : number) : number :=
  match a, b with
  | NaN, _ | _, NaN => NaN
  | Infinity s, Infinity t => if Bool.eqb s t then Infinity s else NaN
  | Infinity s, Fin _ | Fin _, Infinity s => Infinity s
  | Fin p, Fin q => Fin (Qred (Qplus p q))
  end.

Definition num_sub (a b : number) : number := num_add a (num_neg b).

(** [a <= b]; false as soon as one side is [NaN]. *)
Definition num_leb (a b : number) : bool :=
  match a, b with
  | NaN, _ | _, NaN => false
  | Infinity true, _ => true
  | _, Infinity false => true
  | Infinity false, _ => false
  | _, Infinity true => false
  | Fin p, Fin q => Qle_bool p q
  end.

Definition num_ltb (a b : number) : bool :=
  match a, b with
  | NaN, _ | _, NaN => false
  | _, _ => negb (num_leb b a)
  end.

Definition num_eqb (a b : number) : bool := num_leb a b && num_leb b a.

(** [Math.min] and [Math.max] on two arguments already converted to numbers. *)
Definition Math_min (a b : number) : number :=
  match a, b with
  | NaN, _ | _, NaN => NaN
  | _, _ => if num_leb a b then a else b
  end.

Definition Math_max (a b : number) : number :=
  match a, b with
  | NaN, _ | _, NaN => NaN
  | _, _ => if num_leb a b then b else a
  end.

(** ToBoolean on a number. *)
Definition num_truthy (a : number) : bool :=
  match a with
  | NaN => false
  | Infinity _ => true
  | Fin q => negb (Qeq_bool q 0)
  end.

(* ================================================================== *)
(** ** Decimal literals: [parseFloat] and the string-to-number conversion *)
(* ================================================================== *)

Fixpoint spanDigits (s : jsstring) : jsstring * jsstring :=
  match s with
  | c :: s' =>
      if isDigit c then let '(ds, r) := spanDigits s' in (c :: ds, r)
      else ([], s)
  | [] => ([], [])
  end.

Definition digitsValue (ds : jsstring) : Z :=
  fold_left (fun acc c => (10 * acc + Z.of_N (c - 48))%Z) ds 0%Z.

(** The value of the literal [ip.fp e exp]. *)
Definition decimalValue (ip fp : jsstring) (exp : Z) : number :=
  Fin (Qred (Qmult (inject_Z (digitsValue (ip ++ fp)))
                   (Qpower (10 # 1) (exp - Z.of_nat (length fp))))).

(** An optional ExponentPart: [e] or [E], an optional sign, at least one
    digit.  When the digits are missing nothing is consumed. *)
Definition scanExponent (s : jsstring) : Z * jsstring :=
  match s with
  | c :: r =>
      if ((c =? 101) || (c =? 69))%N then
        let '(neg, r1) :=
          match r with
          | 45%N :: r' => (true, r')
          | 43%N :: r' => (false, r')
          | _ => (false, r)
          end in
        match spanDigits r1 with
        | ([], _) => (0%Z, s)
        | (ds, r2) => ((if neg : bool then - digitsValue ds else digitsValue ds)%Z, r2)
        end
      else (0%Z, s)
  | [] => (0%Z, [])
  end.

(** The longest prefix that is a StrUnsignedDecimalLiteral, and what follows. *)
Definition scanUnsignedDecimal (s : jsstring) : option (number * jsstring) :=
  if startsWith s (str "Infinity") then Some (Infinity false, drop 8 s)
  else
    match spanDigits s with
    | ([], 46%N :: r) =>
        match spanDigits r with
        | ([], _) => None
        | (fp, r1) => let '(e, r2) := scanExponent r1 in Some (decimalValue [] fp e, r2)
        end
    | ([], _) => None
    | (ip, 46%N :: r) =>
        let '(fp, r1) := spanDigits r in
        let '(e, r2) := scanExponent r1 in Some (decimalValue ip fp e, r2)
    | (ip, r) =>
        let '(e, r1) := scanExponent r in Some (decimalValue ip [] e, r1)
    end.

(** The longest prefix that is a StrDecimalLiteral. *)
Definition scanDecimal (s : jsstring) : option (number * jsstring) :=
  match s with
  | 45%N :: r =>
      match scanUnsignedDecimal r with
      | Some (v, r') => Some (num_neg v, r')
      | None => None
      end
  | 43%N :: r => scanUnsignedDecimal r
  | _ => scanUnsignedDecimal s
  end.

(** *** The Number value of a mathematical value

    A literal denotes the IEEE 754 double nearest to its mathematical
    value, the one with an even significand when two are equally near;
    from 2^1024 - 2^970 on it denotes an infinity (ECMA-262, the Number
    value for x).  For a literal of more than 20 significant digits the
    standard also admits the value of its first 20 digits, rounded down or
    up; the engines round the literal itself, as is done here. *)

(** [floor (log2 q)], for [0 < q]. *)
Definition binade (q : Q) : Z :=
  let e := (Z.log2 (Qnum q) - Z.log2 (Zpos (Qden q)))%Z in
  if Qle_bool (Qpower 2 e) q then e else (e - 1)%Z.

(** The integer nearest to [q], the even one of two that are equally near. *)
Definition roundHalfEven (q : Q) : Z :=
  let f := (Qnum q / Zpos (Qden q))%Z in
  match Qcompare (q - inject_Z f) (1 # 2) with
  | Lt => f
  | Gt => (f + 1)%Z
  | Eq => if Z.even f then f else (f + 1)%Z
  end.

(** Doubles are the multiples of [2^(e-52)] in the binade [2^e], and of
    [2^(-1074)] below [2^(-1022)]. *)
Definition roundToDouble (q : Q) : number :=
  if Qeq_bool q 0 then Fin 0
  else
    let magnitude := if Qle_bool 0 q then q else Qopp q in
    let e := Z.max (binade magnitude) (-1022) in
    let ulp := Qpower 2 (e - 52) in
    let rounded := Qmult (inject_Z (roundHalfEven (magnitude / ulp))) ulp in
    if Qle_bool (Qpower 2 1024) rounded then Infinity (negb (Qle_bool 0 q))
    else Fin (Qred (if Qle_bool 0 q then rounded else Qopp rounded)).

Definition toDouble (v : number) : number :=
  match v with
  | Fin q => roundToDouble q
  | _ => v
  end.

(** [parseFloat]: leading white space is skipped, the longest decimal
    prefix is converted to the nearest double, anything after it is
    ignored.  Chapter keys are ordered by these values, and two keys that
    differ only beyond the precision of a double have the same one. *)
Definition parseFloat (s : jsstring) : number :=
  match scanDecimal (trimStart s) with
  | Some (v, _) => toDouble v
  | None => NaN
  end.


Definition digitIn (radix : N) (c : N) : option Z :=
  let v :=
    if isDigit c then Some (c - 48)%N
    else if ((97 <=? c) && (c <=? 102))%N then Some (c - 87)%N
    else if ((65 <=? c) && (c <=? 70))%N then Some (c - 55)%N
    else None in
  match v with
  | Some d => if (d <? radix)%N then Some (Z.of_N d) else None
  | None => None
  end.

Fixpoint radixValue (radix : N) (s : jsstring) (acc : Z) : option Z :=
  match s with
  | [] => Some acc
  | c :: s' =>
      match digitIn radix c with
      | Some d => radixValue radix s' (Z.of_N radix * acc + d)%Z
      | None => None
      end
  end.

(** NonDecimalIntegerLiteral: [0x], [0o], [0b] and at least one digit. *)
Definition scanNonDecimal (s : jsstring) : option (option Z) :=
  match s with
  | 48%N :: c :: ds =>
      let radix :=
        if ((c =? 120) || (c =? 88))%N then Some 16%N
        else if ((c =? 111) || (c =? 79))%N then Some 8%N
        else if ((c =? 98) || (c =? 66))%N then Some 2%N
        else None in
      match radix, ds with
      | Some _, [] => Some None
      | Some r, _ => Some (radixValue r ds 0%Z)
      | None, _ => None
      end
  | _ => None
  end.

(** StringToNumber: the whole trimmed string has to be a numeric literal;
    the empty string is 0. *)
Definition StringToNumber (s : jsstring) : number :=
  match trim s with
  | [] => of_Z 0
  | t =>
      match scanNonDecimal t with
      | Some (Some z) => of_Z z
      | Some None => NaN
      | None =>
          match scanDecimal t with
          | Some (v, []) => v
          | _ => NaN
          end
      end
  end.

(* ================================================================== *)
(** ** Values, errors, results *)
(* ================================================================== *)

(** The values [JSON.parse] can build, and [undefined], which reading an
    absent property gives. *)
Inductive jsval :=
| JUndefined
| JNull
| JBool (b : bool)
| JNum (n : number)
| JStr (s : jsstring)
| JArr (items : list jsval)
| JObj (fields : list (jsstring * jsval)).

(** What zod reports: [getParsedType], issue codes and paths. *)
Inductive ZodParsedType :=
| zt_undefined | zt_null | zt_boolean | zt_number | zt_nan
| zt_string | zt_array | zt_object.

Inductive ZodIssueCode :=
| invalid_type (expected received : ZodParsedType)
| too_small (minimum : nat)
| invalid_string_url.

Inductive PathItem := PKey (k : jsstring) | PIndex (i : nat).

Record ZodIssue := { code : ZodIssueCode; path : list PathItem }.

(** Everything the program can throw.  [Error m] is [new Error(m)]; the
    others are raised by the runtime ([TypeError], [SyntaxError] of
    [JSON.parse], a rejected [fetch]) or by zod. *)
Inductive error :=
| Error (message : jsstring)
| TypeError
| SyntaxError
| FetchFailed
| ZodError (issues : list ZodIssue).

Inductive result (A : Type) :=
| ok (a : A)
| throw (e : error).
Arguments ok {A} a.
Arguments throw {A} e.

Definition bind {A B} (r : result A) (k : A -> result B) : result B :=
  match r with
  | ok a => k a
  | throw e => throw e
  end.

Declare Scope js_scope.
Delimit Scope js_scope with js.
Notation "x <- r ;; k" := (bind r (fun x => k))
  (at level 100, r at next level, right associativity) : js_scope.
Open Scope js_scope.

Definition isThrow {A} (r : result A) : bool :=
  match r with throw _ => true | ok _ => false end.

(** What ECMA-262 leaves to the engine or to the host. *)
Record Platform := {
  (** [Number::toString] of a finite number that is not an integer below 1e21 *)
  fractionToString : Q -> jsstring;
  (** the [message] of an error the program did not build itself *)
  runtimeMessage : error -> jsstring;
  (** [String.prototype.localeCompare] in the default locale *)
  localeCompare : jsstring -> jsstring -> number;
  (** whether [new URL(s)] succeeds *)
  isValidURL : jsstring -> bool;
}.

Definition errorMessage (P : Platform) (e : error) : jsstring :=
  match e with
  | Error m => m
  | _ => runtimeMessage P e
  end.

Definition ToBoolean (v : jsval) : bool :=
  match v with
  | JUndefined | JNull => false
  | JBool b => b
  | JNum n => num_truthy n
  | JStr s => match s with [] => false | _ => true end
  | JArr _ | JObj _ => true
  end.

Fixpoint lookupField (fields : list (jsstring * jsval)) (k : jsstring) : option jsval :=
  match fields with
  | [] => None
  | (k', v) :: rest => if jsstring_eqb k' k then Some v else lookupField rest k
  end.

(** [v.k] for the property names the program reads ([page], [success],
    [data], [type], [link], [files], [filename], [raw_url], [content] and
    the schema keys): none of them is defined on [Object.prototype] or
    [Array.prototype], and on a primitive only [link] is, which the program
    reads of objects only. *)
Definition Get (v : jsval) (k : jsstring) : result jsval :=
  match v with
  | JUndefined | JNull => throw TypeError
  | JObj fields => ok (default JUndefined (lookupField fields k))
  | _ => ok JUndefined
  end.

(** [a || b] *)
Definition orElse (a b : jsval) : jsval := if ToBoolean a then a else b.

Definition Number_toString (P : Platform) (n : number) : jsstring :=
  match n with
  | NaN => str "NaN"
  | Infinity false => str "Infinity"
  | Infinity true => str "-Infinity"
  | Fin q =>
      let r := Qred q in
      if ((Qden r =? 1)%positive && (Z.abs (Qnum r) <? 10 ^ 21)%Z)%bool
      then Z_toString (Qnum r)
      else fractionToString P q
  end.

Fixpoint joinWith (sep : jsstring) (parts : list jsstring) : jsstring :=
  match parts with
  | [] => []
  | [p] => p
  | p :: rest => p ++ sep ++ joinWith sep rest
  end.

Fixpoint sequence {A} (rs : list (result A)) : result (list A) :=
  match rs with
  | [] => ok []
  | r :: rest => x <- r ;; xs <- sequence rest ;; ok (x :: xs)
  end.

(** ToString.  An array goes through [Array.prototype.join]; an object
    built by [JSON.parse] inherits [Object.prototype.toString] unless it has
    an own [toString] property, which is then not callable, so that the
    conversion to a primitive throws. *)
Fixpoint ToString (P : Platform) (v : jsval) : result jsstring :=
  match v with
  | JUndefined => ok (str "undefined")
  | JNull => ok (str "null")
  | JBool true => ok (str "true")
  | JBool false => ok (str "false")
  | JNum n => ok (Number_toString P n)
  | JStr s => ok s
  | JArr items =>
      parts <- sequence (map (fun item =>
                 match item with
                 | JUndefined | JNull => ok []
                 | _ => ToString P item
                 end) items) ;;
      ok (joinWith (str ",") parts)
  | JObj fields =>
      match lookupField fields (str "toString") with
      | Some _ => throw TypeError
      | None => ok (str "[object Object]")
      end
  end.

Definition ToNumber (P : Platform) (v : jsval) : result number :=
  match v with
  | JUndefined => ok NaN
  | JNull => ok (of_Z 0)
  | JBool true => ok (of_Z 1)
  | JBool false => ok (of_Z 0)
  | JNum n => ok n
  | JStr s => ok (StringToNumber s)
  | JArr _ | JObj _ => s <- ToString P v ;; ok (StringToNumber s)
  end.

Definition getParsedType (v : jsval) : ZodParsedType :=
  match v with
  | JUndefined => zt_undefined
  | JNull => zt_null
  | JBool _ => zt_boolean
  | JNum n => if isNaN n then zt_nan else zt_number
  | JStr _ => zt_string
  | JArr _ => zt_array
  | JObj _ => zt_object
  end.

(* ================================================================== *)
(** ** [JSON.parse] *)
(* ================================================================== *)

(** Own properties are kept in the order in which the engine enumerates
    them: array indices in ascending order first, then the other keys in the
    order of their creation.  Defining a key that exists replaces its value
    in place. *)
Definition arrayIndex (k : jsstring) : option Z :=
  match k with
  | [] => None
  | [48%N] => Some 0%Z
  | c :: _ =>
      if forallb isDigit k && negb (c =? 48)%N && (length k <=? 10)%nat
         && (digitsValue k <=? 4294967294)%Z
      then Some (digitsValue k) else None
  end.

Fixpoint replaceField (fields : list (jsstring * jsval)) (k : jsstring) (v : jsval)
  : list (jsstring * jsval) :=
  match fields with
  | [] => []
  | (k', v') :: rest =>
      if jsstring_eqb k' k then (k', v) :: rest
      else (k', v') :: replaceField rest k v
  end.

Fixpoint insertIndexed (fields : list (jsstring * jsval)) (i : Z) (k : jsstring) (v : jsval)
  : list (jsstring * jsval) :=
  match fields with
  | [] => [(k, v)]
  | (k', v') :: rest =>
      match arrayIndex k' with
      | Some j => if (j <? i)%Z then (k', v') :: insertIndexed rest i k v
                  else (k, v) :: fields
      | None => (k, v) :: fields
      end
  end.

Definition defineProperty (fields : list (jsstring * jsval)) (k : jsstring) (v : jsval)
  : list (jsstring * jsval) :=
  match lookupField fields k with
  | Some _ => replaceField fields k v
  | None =>
      match arrayIndex k with
      | Some i => insertIndexed fields i k v
      | None => fields ++ [(k, v)]
      end
  end.

Definition isJSONWhiteSpace (c : N) : bool :=
  ((c =? 9) || (c =? 10) || (c =? 13) || (c =? 32))%N.

Fixpoint skipWS (s : jsstring) : jsstring :=
  match s with
  | c :: s' => if isJSONWhiteSpace c then skipWS s' else s
  | [] => []
  end.

Definition hex4 (a b c d : N) : option N :=
  match digitIn 16 a, digitIn 16 b, digitIn 16 c, digitIn 16 d with
  | Some x, Some y, Some z, Some w => Some (Z.to_N (((x * 16 + y) * 16 + z) * 16 + w))
  | _, _, _, _ => None
  end.

(** The escapes of one letter. *)
Definition escapedUnit (e : N) : option N :=
  if (e =? 34)%N then Some 34%N
  else if (e =? 92)%N then Some 92%N
  else if (e =? 47)%N then Some 47%N
  else if (e =? 98)%N then Some 8%N
  else if (e =? 102)%N then Some 12%N
  else if (e =? 110)%N then Some 10%N
  else if (e =? 114)%N then Some 13%N
  else if (e =? 116)%N then Some 9%N
  else None.

(** The characters of a JSON string after the opening quote (code unit 34),
    up to and including the closing one.  A backslash (92) starts an escape,
    [u] (117) a code unit in four hexadecimal digits; control characters
    are not allowed.  [acc] holds the code units read so far, last first. *)
Fixpoint parseStringBody (s : jsstring) (acc : jsstring) : option (jsstring * jsstring) :=
  match s with
  | [] => None
  | c :: r =>
      if (c =? 34)%N then Some (rev acc, r)
      else if (c =? 92)%N then
        match r with
        | [] => None
        | e :: r' =>
            if (e =? 117)%N then
              match r' with
              | a :: b :: c' :: d :: r'' =>
                  match hex4 a b c' d with
                  | Some u => parseStringBody r'' (u :: acc)
                  | None => None
                  end
              | _ => None
              end
            else
              match escapedUnit e with
              | Some u => parseStringBody r' (u :: acc)
              | None => None
              end
        end
      else if (c <? 32)%N then None
      else parseStringBody r (c :: acc)
  end.

Definition optionalMinus (s : jsstring) : bool * jsstring :=
  match s with
  | c :: r => if (c =? 45)%N then (true, r) else (false, s)
  | [] => (false, [])
  end.

Definition optionalSign (s : jsstring) : bool * jsstring :=
  match s with
  | c :: r => if (c =? 45)%N then (true, r) else if (c =? 43)%N then (false, r) else (false, s)
  | [] => (false, [])
  end.

(** The fraction of a JSON number: a point (46) and at least one digit, or
    nothing. *)
Definition parseFraction (s : jsstring) : option (jsstring * jsstring) :=
  match s with
  | c :: r =>
      if (c =? 46)%N then
        match spanDigits r with
        | ([], _) => None
        | (fp, r') => Some (fp, r')
        end
      else Some ([], s)
  | [] => Some ([], [])
  end.

(** The exponent of a JSON number: [e] or [E], an optional sign and at least
    one digit, or nothing. *)
Definition parseExponent (s : jsstring) : option (Z * jsstring) :=
  match s with
  | c :: r =>
      if ((c =? 101) || (c =? 69))%N then
        let '(neg, r1) := optionalSign r in
        match spanDigits r1 with
        | ([], _) => None
        | (ds, r2) => Some ((if neg : bool then - digitsValue ds else digitsValue ds)%Z, r2)
        end
      else Some (0%Z, s)
  | [] => Some (0%Z, [])
  end.

Definition leadingZero (ip : jsstring) : bool :=
  match ip with
  | c :: _ :: _ => (c =? 48)%N
  | _ => false
  end.

(** A JSON number: no leading zeros, no leading plus, digits on both sides
    of the point, digits after the exponent mark. *)
Definition parseNumber (s : jsstring) : option (number * jsstring) :=
  let '(neg, r0) := optionalMinus s in
  match spanDigits r0 with
  | ([], _) => None
  | (ip, r1) =>
      if leadingZero ip then None
      else
        match parseFraction r1 with
        | None => None
        | Some (fp, r2) =>
            match parseExponent r2 with
            | None => None
            | Some (e, r3) =>
                let v := decimalValue ip fp e in
                Some (if neg : bool then num_neg v else v, r3)
            end
        end
  end.

Inductive parsed (A : Type) :=
| Parsed (a : A) (rest : jsstring)
| Malformed
| OutOfFuel.
Arguments Parsed {A} a rest.
Arguments Malformed {A}.
Arguments OutOfFuel {A}.

(** The given character after optional white space. *)
Definition expect (c : N) (s : jsstring) : option jsstring :=
  match skipWS s with
  | c' :: r => if (c' =? c)%N then Some r else None
  | [] => None
  end.

(** Braces are 123 and 125, brackets 91 and 93, the comma 44, the colon 58. *)
Fixpoint parseValue (fuel : nat) (s : jsstring) : parsed jsval :=
  match fuel with
  | O => OutOfFuel
  | S fuel' =>
      match skipWS s with
      | [] => Malformed
      | c :: r =>
          if (c =? 123)%N then
            match expect 125 r with
            | Some r' => Parsed (JObj []) r'
            | None => parseMembers fuel' [] r
            end
          else if (c =? 91)%N then
            match expect 93 r with
            | Some r' => Parsed (JArr []) r'
            | None => parseElements fuel' [] r
            end
          else if (c =? 34)%N then
            match parseStringBody r [] with
            | Some (t, r') => Parsed (JStr t) r'
            | None => Malformed
            end
          else if startsWith (c :: r) (str "true") then Parsed (JBool true) (drop 4 (c :: r))
          else if startsWith (c :: r) (str "false") then Parsed (JBool false) (drop 5 (c :: r))
          else if startsWith (c :: r) (str "null") then Parsed JNull (drop 4 (c :: r))
          else
            match parseNumber (c :: r) with
            | Some (n, r') => Parsed (JNum n) r'
            | None => Malformed
            end
      end
  end
with parseElements (fuel : nat) (acc : list jsval) (s : jsstring) : parsed jsval :=
  match fuel with
  | O => OutOfFuel
  | S fuel' =>
      match parseValue fuel' s with
      | Parsed v r =>
          match skipWS r with
          | c :: r' =>
              if (c =? 44)%N then parseElements fuel' (v :: acc) r'
              else if (c =? 93)%N then Parsed (JArr (rev (v :: acc))) r'
              else Malformed
          | [] => Malformed
          end
      | Malformed => Malformed
      | OutOfFuel => OutOfFuel
      end
  end
with parseMembers (fuel : nat) (acc : list (jsstring * jsval)) (s : jsstring) : parsed jsval :=
  match fuel with
  | O => OutOfFuel
  | S fuel' =>
      match expect 34 s with
      | Some r =>
          match parseStringBody r [] with
          | Some (k, r1) =>
              match expect 58 r1 with
              | Some r2 =>
                  match parseValue fuel' r2 with
                  | Parsed v r3 =>
                      match skipWS r3 with
                      | c :: r4 =>
                          if (c =? 44)%N then parseMembers fuel' (defineProperty acc k v) r4
                          else if (c =? 125)%N then Parsed (JObj (defineProperty acc k v)) r4
                          else Malformed
                      | [] => Malformed
                      end
                  | Malformed => Malformed
                  | OutOfFuel => OutOfFuel
                  end
              | None => Malformed
              end
          | None => Malformed
          end
      | None => Malformed
      end
  end.

(** [JSON.parse]: [None] stands for the [SyntaxError].  The fuel is enough
    for every text (see [JSON_parse_enough_fuel]). *)
Definition JSON_parse (text : jsstring) : option jsval :=
  match parseValue (2 * length text + 1) text with
  | Parsed v r => match skipWS r with [] => Some v | _ => None end
  | _ => None
  end.

(** JSON text written with an apostrophe where the double quote stands. *)
Definition json (s : string) : jsstring :=
  map (fun c => if (c =? 39)%N then 34%N else c) (str s).

(* ================================================================== *)
(** ** The reading session (gist reader client, Imgur reader client) *)
(* ================================================================== *)

Inductive ViewMode := single | double.

(** The client state that navigation touches: [currentPage] and [viewMode]
    ([pages] is fixed by the props). *)
Record Reader := { currentPage : number; viewMode : ViewMode }.

(** [useState(1)], [useState('single')] *)
Definition initialReader : Reader := {| currentPage := of_Z 1; viewMode := single |}.

Definition tryCatch {A} (body : result A) (handler : error -> result A) : result A :=
  match body with
  | ok a => ok a
  | throw e => handler e
  end.

Section Session.
Context (P : Platform).

(** The body of the [try] in the mount effect:
    [progress = JSON.parse(savedProgress);
     pageToSet = Math.max(1, Math.min(progress.page || 1, pages.length || 1))]. *)
Definition savedPage (savedProgress : jsstring) (pagesLength : nat) : result number :=
  match JSON_parse savedProgress with
  | None => throw SyntaxError
  | Some progress =>
      page <- Get progress (str "page") ;;
      wanted <- ToNumber P (orElse page (JNum (of_Z 1))) ;;
      ok (Math_max (of_Z 1)
            (Math_min wanted (if (pagesLength =? 0)%nat then of_Z 1 else of_nat pagesLength)))
  end.

(** The mount effect up to [setCurrentPage(pageToSet)]: the page to set
    and the local storage it leaves. *)
Definition mountEffect (progressKey : jsstring) (pagesLength : nat)
    (localStorage : gmap jsstring jsstring) : result (number * gmap jsstring jsstring) :=
  match localStorage !! progressKey with
  | Some ((_ :: _) as savedProgress) =>
      tryCatch
        (pageToSet <- savedPage savedProgress pagesLength ;; ok (pageToSet, localStorage))
        (fun _ => ok (of_Z 1, delete progressKey localStorage))
  | _ => ok (of_Z 1, localStorage)
  end.

Definition mount (progressKey : jsstring) (pagesLength : nat) (r : Reader)
    (localStorage : gmap jsstring jsstring) : result (Reader * gmap jsstring jsstring) :=
  seeded <- mountEffect progressKey pagesLength localStorage ;;
  ok ({| currentPage := fst seeded; viewMode := viewMode r |}, snd seeded).

Definition gistProgressKey (gistId chapterKey : jsstring) : jsstring :=
  str "manga-progress-gist-" ++ gistId ++ str "-" ++ chapterKey.

Definition imgurProgressKey (albumId : jsstring) : jsstring :=
  str "manga-progress-imgur-" ++ albumId.

Definition GistReaderClient_mount (gistId chapterKey : jsstring) (pages : list jsval) :=
  mount (gistProgressKey gistId chapterKey) (length pages).

Definition ImgurReaderClient_mount (albumId : jsstring) (pages : list jsval) :=
  mount (imgurProgressKey albumId) (length pages).

(** [getPageDisplay] *)
Definition getPageDisplay (totalPages : nat) (r : Reader) : jsstring :=
  if (totalPages =? 0)%nat then str "0 / 0"
  else if match viewMode r with single => true | double => false end
          || num_leb (of_nat totalPages) (currentPage r)
  then Number_toString P (currentPage r) ++ str " / " ++ Number_toString P (of_nat totalPages)
  else Number_toString P (currentPage r) ++ str "-"
       ++ Number_toString P (num_add (currentPage r) (of_Z 1))
       ++ str " / " ++ Number_toString P (of_nat totalPages).
End Session.

Definition toggleViewMode (r : Reader) : Reader :=
  {| currentPage := currentPage r;
     viewMode := match viewMode r with single => double | double => single end |}.

Definition getPageIncrement (r : Reader) : number :=
  match viewMode r with double => of_Z 2 | single => of_Z 1 end.

Definition goToNextPage (totalPages : nat) (r : Reader) : Reader :=
  {| currentPage := Math_min (num_add (currentPage r) (getPageIncrement r)) (of_nat totalPages);
     viewMode := viewMode r |}.

Definition goToPrevPage (r : Reader) : Reader :=
  {| currentPage := Math_max (of_Z 1) (num_sub (currentPage r) (getPageIncrement r));
     viewMode := viewMode r |}.

(* ================================================================== *)
(** ** Ordering of chapter keys *)
(* ================================================================== *)

(** The comparator handed to [Array.prototype.sort].  The difference of
    the two doubles is taken exactly: its sign, which is all that the sort
    reads of it, is the sign of the rounded difference. *)
Definition chapterKeyCompare (P : Platform) (a b : jsstring) : number :=
  let numA := parseFloat a in
  let numB := parseFloat b in
  if negb (isNaN numA) && negb (isNaN numB) then num_sub numA numB
  else localeCompare P a b.

(** [Array.prototype.sort] with a comparator, as a stable insertion sort: an
    element goes behind every earlier element that the comparator does not
    put after it (a result that is not positive, [NaN] included).  For a
    comparator that is a consistent ordering of the array every conforming
    engine returns this same list. *)
Definition comesAfter (v : number) : bool := num_ltb (of_Z 0) v.

Fixpoint insertSorted {A} (cmp : A -> A -> number) (x : A) (sorted : list A) : list A :=
  match sorted with
  | [] => [x]
  | y :: rest =>
      if comesAfter (cmp y x) then x :: y :: rest
      else y :: insertSorted cmp x rest
  end.

Definition Array_sort {A} (cmp : A -> A -> number) (items : list A) : list A :=
  fold_left (fun sorted x => insertSorted cmp x sorted) items [].

Definition sortChapterKeys (P : Platform) (keys : list jsstring) : list jsstring :=
  Array_sort (chapterKeyCompare P) keys.




(** Comparison of two strings by code units: negative, zero or positive. *)
Fixpoint lexCompare (a b : jsstring) : number :=
  match a, b with
  | [], [] => of_Z 0
  | [], _ :: _ => of_Z (-1)
  | _ :: _, [] => of_Z 1
  | x :: a', y :: b' =>
      if (x <? y)%N then of_Z (-1)
      else if (y <? x)%N then of_Z 1
      else lexCompare a' b'
  end.



(** A platform to run examples on; no example depends on the renderings
    chosen here for what the engine decides. *)
Definition examplePlatform : Platform :=
  {| fractionToString := fun _ => str "<fraction>";
     runtimeMessage := fun e =>
       match e with
       | TypeError => str "TypeError"
       | SyntaxError => str "SyntaxError"
       | FetchFailed => str "fetch failed"
       | _ => str "ZodError"
       end;
     localeCompare := lexCompare;
     isValidURL := fun s => startsWith s (str "https://") |}.

(* ================================================================== *)
(** ** The source path pattern *)
(* ================================================================== *)

Definition imgurPathPrefix : jsstring := str "/proxy/api/imgur/chapter/".

Fixpoint spanAlnum (s : jsstring) : jsstring * jsstring :=
  match s with
  | c :: s' =>
      if isAlnum c then let '(run, r) := spanAlnum s' in (c :: run, r)
      else ([], s)
  | [] => ([], [])
  end.

(** The pattern [\/proxy\/api\/imgur\/chapter\/([a-zA-Z0-9]+)\/?] tried at
    the head of [s]: its first group. *)
Definition imgurMatchHere (s : jsstring) : option jsstring :=
  if startsWith s imgurPathPrefix then
    match spanAlnum (drop (length imgurPathPrefix) s) with
    | ([], _) => None
    | (albumId, _) => Some albumId
    end
  else None.

(** [sourcePath.match(...)]: the leftmost position at which the pattern
    matches; [imgurMatch[1]]. *)
Fixpoint imgurMatch (s : jsstring) : option jsstring :=
  match imgurMatchHere s with
  | Some albumId => Some albumId
  | None =>
      match s with
      | [] => None
      | _ :: s' => imgurMatch s'
      end
  end.

(* ================================================================== *)
(** ** The manifest schema (zod) *)
(* ================================================================== *)

Inductive StringCheck := check_min (n : nat) | check_url.

(** The combinators the two schemas are built from; an object schema is in
    pass-through mode, as both are. *)
Inductive Schema :=
| ZString (checks : list StringCheck)
| ZOptional (inner : Schema)
| ZArray (element : Schema)
| ZRecord (valueType : Schema)
| ZObject (shape : list (jsstring * Schema)).

Definition issue (c : ZodIssueCode) (at_path : list PathItem) : ZodIssue :=
  {| code := c; path := at_path |}.

(** zod builds its output object by assignment, skipping the key [__proto__]
    and values that are [undefined] for a key the input does not have. *)
Definition assignOutput (out : list (jsstring * jsval)) (k : jsstring) (v : jsval)
  : list (jsstring * jsval) :=
  if jsstring_eqb k (str "__proto__") then out else defineProperty out k v.

Section Zod.
Context (P : Platform).

Definition checkString (t : jsstring) (at_path : list PathItem) (c : StringCheck)
  : list ZodIssue :=
  match c with
  | check_min n => if (length t <? n)%nat then [issue (too_small n) at_path] else []
  | check_url => if isValidURL P t then [] else [issue invalid_string_url at_path]
  end.

Fixpoint parseItems (parseElement : list PathItem -> jsval -> list ZodIssue * jsval)
    (at_path : list PathItem) (i : nat) (items : list jsval)
  : list ZodIssue * list jsval :=
  match items with
  | [] => ([], [])
  | x :: rest =>
      let '(issues, y) := parseElement (at_path ++ [PIndex i]) x in
      let '(issues', ys) := parseItems parseElement at_path (S i) rest in
      (issues ++ issues', y :: ys)
  end.

Fixpoint parseEntries (parseValueOf : list PathItem -> jsval -> list ZodIssue * jsval)
    (at_path : list PathItem) (fields : list (jsstring * jsval))
  : list ZodIssue * list (jsstring * jsval) :=
  match fields with
  | [] => ([], [])
  | (k, x) :: rest =>
      let '(issues, y) := parseValueOf (at_path ++ [PKey k]) x in
      let '(issues', ys) := parseEntries parseValueOf at_path rest in
      (issues ++ issues', (k, y) :: ys)
  end.

(** The keys of an object schema, each parsed against the property of
    that name ([undefined] when the input has none). *)
Definition parseShapeWith
    (parseField : Schema -> list PathItem -> jsval -> list ZodIssue * jsval)
    (at_path : list PathItem) (fields : list (jsstring * jsval))
  : list (jsstring * Schema) -> list ZodIssue * list (jsstring * jsval) :=
  fix parseShape (shape : list (jsstring * Schema)) :=
    match shape with
    | [] => ([], [])
    | (k, sk) :: rest =>
        let '(issues, y) :=
          parseField sk (at_path ++ [PKey k])
            (default JUndefined (lookupField fields k)) in
        let '(issues', ys) := parseShape rest in
        (issues ++ issues',
         match y, lookupField fields k with
         | JUndefined, None => ys
         | _, _ => (k, y) :: ys
         end)
    end.

(** [schema._parse]: the issues found, in the order zod reports them, and
    the output value. *)
Fixpoint zparse (s : Schema) (at_path : list PathItem) (v : jsval) {struct s}
  : list ZodIssue * jsval :=
  match s with
  | ZString checks =>
      match v with
      | JStr t => (flat_map (checkString t at_path) checks, v)
      | _ => ([issue (invalid_type zt_string (getParsedType v)) at_path], v)
      end
  | ZOptional inner =>
      match v with
      | JUndefined => ([], JUndefined)
      | _ => zparse inner at_path v
      end
  | ZArray element =>
      match v with
      | JArr items =>
          let '(issues, out) := parseItems (zparse element) at_path 0 items in
          (issues, JArr out)
      | _ => ([issue (invalid_type zt_array (getParsedType v)) at_path], v)
      end
  | ZRecord valueType =>
      match v with
      | JObj fields =>
          let '(issues, out) := parseEntries (zparse valueType) at_path fields in
          (issues, JObj (fold_left (fun o kv => assignOutput o (fst kv) (snd kv)) out []))
      | _ => ([issue (invalid_type zt_object (getParsedType v)) at_path], v)
      end
  | ZObject shape =>
      match v with
      | JObj fields =>
          let known := parseShapeWith zparse at_path fields shape in
          let extra :=
            List.filter (fun kv => negb (existsb (fun ks => jsstring_eqb (fst ks) (fst kv)) shape))
                   fields in
          (fst known,
           JObj (fold_left (fun o kv => assignOutput o (fst kv) (snd kv))
                           (snd known ++ extra) []))
      | _ => ([issue (invalid_type zt_object (getParsedType v)) at_path], v)
      end
  end.

(** [schema.parse(data)] *)
Definition Schema_parse (s : Schema) (data : jsval) : result jsval :=
  match zparse s [] data with
  | ([], out) => ok out
  | (issues, _) => throw (ZodError issues)
  end.
End Zod.

Definition chapterSchema : Schema :=
  ZObject
    [ (str "title", ZString []);
      (str "volume", ZOptional (ZString []));
      (str "groups", ZRecord (ZArray (ZString [check_url]))) ].

Definition gistConfigSchema : Schema :=
  ZObject
    [ (str "title", ZString [check_min 1]);
      (str "description", ZOptional (ZString []));
      (str "artist", ZOptional (ZString []));
      (str "author", ZOptional (ZString []));
      (str "cover", ZOptional (ZString [check_url]));
      (str "chapters", ZRecord chapterSchema) ].

(* ================================================================== *)
(** ** The server side: caches, timers, environment, network *)
(* ================================================================== *)

Record Request := { url : jsstring; headers : list (jsstring * jsstring) }.

Record Response := { status : Z; statusText : jsstring; body : jsstring }.

(** [response.ok] *)
Definition response_ok (r : Response) : bool :=
  ((200 <=? status r) && (status r <=? 299))%Z.

(** What a [setTimeout] callback of this program does when it runs. *)
Inductive TimerAction :=
| DeleteAlbum (cacheKey : jsstring)
| DeleteGist (cacheKey : jsstring).

(** The module-level state of the server process and its surroundings.
    [network] is the world outside: given the calls of [fetch] made so far
    and a new one, the response, or [None] when the promise rejects.
    [requests] records every call of [fetch], oldest first; these are the
    network calls of the program (the caching that Next.js adds underneath
    [fetch] is outside of it). *)
Record World := {
  albumCache : gmap jsstring (list jsval);
  gistCache : gmap jsstring jsval;
  timers : list (Z * TimerAction);
  clock : Z;
  IMGUR_CLIENT_ID : option jsstring;
  network : list Request -> Request -> option Response;
  requests : list Request;
}.

Definition with_albumCache (c : gmap jsstring (list jsval)) (w : World) : World :=
  {| albumCache := c; gistCache := gistCache w; timers := timers w; clock := clock w;
     IMGUR_CLIENT_ID := IMGUR_CLIENT_ID w; network := network w; requests := requests w |}.

Definition with_gistCache (c : gmap jsstring jsval) (w : World) : World :=
  {| albumCache := albumCache w; gistCache := c; timers := timers w; clock := clock w;
     IMGUR_CLIENT_ID := IMGUR_CLIENT_ID w; network := network w; requests := requests w |}.

Definition with_timers (t : list (Z * TimerAction)) (w : World) : World :=
  {| albumCache := albumCache w; gistCache := gistCache w; timers := t; clock := clock w;
     IMGUR_CLIENT_ID := IMGUR_CLIENT_ID w; network := network w; requests := requests w |}.

Definition with_clock (t : Z) (w : World) : World :=
  {| albumCache := albumCache w; gistCache := gistCache w; timers := timers w; clock := t;
     IMGUR_CLIENT_ID := IMGUR_CLIENT_ID w; network := network w; requests := requests w |}.

Definition with_requests (r : list Request) (w : World) : World :=
  {| albumCache := albumCache w; gistCache := gistCache w; timers := timers w; clock := clock w;
     IMGUR_CLIENT_ID := IMGUR_CLIENT_ID w; network := network w; requests := r |}.

(** Computations that may throw and that act on the world. *)
Definition Async (A : Type) : Type := World -> result A * World.

Definition ret {A} (a : A) : Async A := fun w => (ok a, w).
Definition raise {A} (e : error) : Async A := fun w => (throw e, w).
Definition lift {A} (r : result A) : Async A := fun w => (r, w).
Definition andThen {A B} (m : Async A) (k : A -> Async B) : Async B :=
  fun w =>
    match m w with
    | (ok a, w') => k a w'
    | (throw e, w') => (throw e, w')
    end.
Definition catch {A} (m : Async A) (handler : error -> Async A) : Async A :=
  fun w =>
    match m w with
    | (ok a, w') => (ok a, w')
    | (throw e, w') => handler e w'
    end.

Notation "x <~ m ;; k" := (andThen m (fun x => k))
  (at level 100, m at next level, right associativity) : js_scope.
Notation "m ;;; k" := (andThen m (fun _ => k))
  (at level 100, right associativity) : js_scope.

(** [await fetch(url, { headers })] *)
Definition fetch (req : Request) : Async Response :=
  fun w =>
    (match network w (requests w) req with
     | Some r => ok r
     | None => throw FetchFailed
     end,
     with_requests (requests w ++ [req]) w).

(** [setTimeout(callback, delay)] *)
Definition setTimeout (action : TimerAction) (delay : Z) : Async unit :=
  fun w => (ok tt, with_timers (timers w ++ [((clock w + delay)%Z, action)]) w).

Definition runTimer (w : World) (t : Z * TimerAction) : World :=
  match snd t with
  | DeleteAlbum k => with_albumCache (delete k (albumCache w)) w
  | DeleteGist k => with_gistCache (delete k (gistCache w)) w
  end.

(** [dt] milliseconds pass and every timer that is due has run: the event
    loop that is never late.  No timer runs before its time. *)
Definition elapse (dt : Z) (w : World) : World :=
  let now := (clock w + dt)%Z in
  let due := List.filter (fun t => (fst t <=? now)%Z) (timers w) in
  let pending := List.filter (fun t => negb (fst t <=? now)%Z) (timers w) in
  fold_left runTimer due (with_clock now (with_timers pending w)).

(** [setTimeout] promises that a callback does not run before its time, not
    that it runs at it.  In general, when [dt] milliseconds have passed the
    event loop has run those of the due timers that it got to, [ran]; the
    others are still pending.  [elapse] is the case in which it got to all
    of them. *)
Definition elapseWith (ran : Z * TimerAction -> bool) (dt : Z) (w : World) : World :=
  let now := (clock w + dt)%Z in
  let due := List.filter (fun t => (fst t <=? now)%Z && ran t) (timers w) in
  let pending := List.filter (fun t => negb ((fst t <=? now)%Z && ran t)) (timers w) in
  fold_left runTimer due (with_clock now (with_timers pending w)).

Definition oneHour : Z := 60 * 60 * 1000.

(** [response.json()] *)
Definition response_json (r : Response) : result jsval :=
  match JSON_parse (body r) with
  | Some v => ok v
  | None => throw SyntaxError
  end.

(* ------------------------------------------------------------------ *)
(** *** [fetchImgurAlbumPages] *)

(** The messages of the errors it builds, under the names of the
    specification's taxonomy. *)
Definition AuthError : error :=
  Error (str "Imgur Client ID is missing. Please set IMGUR_CLIENT_ID in .env.local").
Definition RemoteError (r : Response) : error :=
  Error (str "Failed to fetch Imgur album (" ++ Z_toString (status r) ++ str "): "
         ++ statusText r ++ str ". Check album ID and Client ID.").
Definition ApiRejectedError (albumId : jsstring) : error :=
  Error (str "Imgur API reported an issue with album " ++ albumId
         ++ str ". It might be private or invalid.").
Definition FormatError (albumId : jsstring) : error :=
  Error (str "Unexpected response format from Imgur API for album " ++ albumId ++ str ".").
Definition EmptyResultError (albumId : jsstring) : error :=
  Error (str "No images found in Imgur album " ++ albumId ++ str ".").

(** [img.type?.startsWith('image/')] *)
Definition isImage (img : jsval) : result bool :=
  t <- Get img (str "type") ;;
  match t with
  | JUndefined | JNull => ok false
  | JStr s => ok (startsWith s (str "image/"))
  | _ => throw TypeError
  end.

Fixpoint filterImages (items : list jsval) : result (list jsval) :=
  match items with
  | [] => ok []
  | img :: rest =>
      keep <- isImage img ;;
      kept <- filterImages rest ;;
      ok (if keep : bool then img :: kept else kept)
  end.

(** [data.data.filter(...).map(img => img.link)] *)
Definition imagePages (items : list jsval) : result (list jsval) :=
  images <- filterImages items ;;
  sequence (map (fun img => Get img (str "link")) images).

Definition imgurRequest (albumId clientId : jsstring) : Request :=
  {| url := str "https://api.imgur.com/3/album/" ++ albumId ++ str "/images";
     headers := [(str "Authorization", str "Client-ID " ++ clientId)] |}.

(** [albumCache.set(cacheKey, pages)] *)
Definition albumCache_set (cacheKey : jsstring) (pages : list jsval) : Async unit :=
  fun w => (ok tt, with_albumCache (<[cacheKey := pages]> (albumCache w)) w).

(** The body of the [try] block: the call of the Imgur API and the reading
    of its answer. *)
Definition requestAlbumPages (albumId clientId : jsstring) : Async (list jsval) :=
  response <~ fetch (imgurRequest albumId clientId) ;;
  if negb (response_ok response) then raise (RemoteError response)
  else
    data <~ lift (response_json response) ;;
    success <~ lift (Get data (str "success")) ;;
    if negb (ToBoolean success) then raise (ApiRejectedError albumId)
    else
      items <~ lift (Get data (str "data")) ;;
      match items with
      | JArr items =>
          pages <~ lift (imagePages items) ;;
          if (length pages =? 0)%nat then raise (EmptyResultError albumId)
          else ret pages
      | _ => raise (FormatError albumId)
      end.

Definition fetchImgurAlbumPages (albumId : jsstring) : Async (list jsval) :=
  fun w =>
    let cacheKey := str "imgur-" ++ albumId in
    match albumCache w !! cacheKey with
    | Some cached => (ok cached, w)
    | None =>
        match IMGUR_CLIENT_ID w with
        | None | Some [] => (throw AuthError, w)
        | Some clientId =>
            (pages <~ catch (requestAlbumPages albumId clientId) (fun e => raise e) ;;
             (if (0 <? length pages)%nat then
                albumCache_set cacheKey pages ;;;
                setTimeout (DeleteAlbum cacheKey) oneHour
              else ret tt) ;;;
             ret pages) w
        end
    end.

(* ------------------------------------------------------------------ *)
(** *** [fetchGistConfig] *)

Definition GistNotFoundError (gistId : jsstring) : error :=
  Error (str "Gist not found (ID: " ++ gistId ++ str "). Check the ID or if the Gist is public.").
Definition GistRemoteError (gistId : jsstring) (r : Response) : error :=
  Error (str "Failed to fetch Gist (ID: " ++ gistId ++ str ", Status: "
         ++ Z_toString (status r) ++ str ")").
Definition NoFilesError (gistId : jsstring) : error :=
  Error (str "Invalid Gist data received for ID: " ++ gistId ++ str ". No files found.").
Definition NotFoundError (gistId : jsstring) : error :=
  Error (str "No JSON file found in Gist (ID: " ++ gistId
         ++ str "). Please ensure the Gist contains a .json file.").
Definition RawContentError (rawUrl : jsstring) : error :=
  Error (str "Failed to fetch Gist raw content from " ++ rawUrl).
Definition NoContentError (gistId : jsstring) : error :=
  Error (str "Could not retrieve file content for JSON file in Gist (ID: " ++ gistId ++ str ").").

(** [Object.values] *)
Definition Object_values (v : jsval) : result (list jsval) :=
  match v with
  | JUndefined | JNull => throw TypeError
  | JObj fields => ok (map snd fields)
  | JArr items => ok items
  | JStr s => ok (map (fun c => JStr [c]) s)
  | _ => ok []
  end.

(** [file.filename?.toLowerCase().endsWith('.json')] *)
Definition isJsonFile (file : jsval) : result bool :=
  name <- Get file (str "filename") ;;
  match name with
  | JUndefined | JNull => ok false
  | JStr s => ok (endsWith (toLowerCase s) (str ".json"))
  | _ => throw TypeError
  end.

(** [Array.prototype.find] with that callback; [JUndefined] when no file fits. *)
Fixpoint findJsonFile (files : list jsval) : result jsval :=
  match files with
  | [] => ok JUndefined
  | file :: rest =>
      found <- isJsonFile file ;;
      if found : bool then ok file else findJsonFile rest
  end.

Definition gistRequest (gistId : jsstring) : Request :=
  {| url := str "https://api.github.com/gists/" ++ gistId;
     headers := [(str "Accept", str "application/vnd.github.v3+json")] |}.

Section GistFetcher.
Context (P : Platform).

(** [JSON.parse(x)] of a value that need not be a string *)
Definition JSON_parse_value (x : jsval) : result jsval :=
  text <- ToString P x ;;
  match JSON_parse text with
  | Some v => ok v
  | None => throw SyntaxError
  end.

(** [gistCache.set(cacheKey, validatedConfig)] *)
Definition gistCache_set (cacheKey : jsstring) (config : jsval) : Async unit :=
  fun w => (ok tt, with_gistCache (<[cacheKey := config]> (gistCache w)) w).

(** The text of the JSON file: from [raw_url] when the file has one, else
    from [content]. *)
Definition gistFileContent (gistId : jsstring) (jsonFile : jsval) : Async jsval :=
  rawUrl <~ lift (Get jsonFile (str "raw_url")) ;;
  if ToBoolean rawUrl then
    target <~ lift (ToString P rawUrl) ;;
    contentResponse <~ fetch {| url := target; headers := [] |} ;;
    if negb (response_ok contentResponse) then raise (RawContentError target)
    else ret (JStr (body contentResponse))
  else
    content <~ lift (Get jsonFile (str "content")) ;;
    if ToBoolean content then ret content
    else raise (NoContentError gistId).

(** The body of the [try] block up to the validated configuration. *)
Definition requestGistConfig (gistId : jsstring) : Async jsval :=
  response <~ fetch (gistRequest gistId) ;;
  if negb (response_ok response) then
    if (status response =? 404)%Z then raise (GistNotFoundError gistId)
    else raise (GistRemoteError gistId response)
  else
    gistData <~ lift (response_json response) ;;
    files <~ lift (Get gistData (str "files")) ;;
    if negb (ToBoolean files) then raise (NoFilesError gistId)
    else
      jsonFile <~ lift (values <- Object_values files ;; findJsonFile values) ;;
      if negb (ToBoolean jsonFile) then raise (NotFoundError gistId)
      else
        fileContent <~ gistFileContent gistId jsonFile ;;
        parsedConfig <~ lift (JSON_parse_value fileContent) ;;
        lift (Schema_parse P gistConfigSchema parsedConfig).

Definition fetchGistConfig (gistId : jsstring) : Async jsval :=
  fun w =>
    let cacheKey := str "gist-" ++ gistId in
    match gistCache w !! cacheKey with
    | Some cached => (ok cached, w)
    | None =>
        catch
          (validatedConfig <~ requestGistConfig gistId ;;
           gistCache_set cacheKey validatedConfig ;;;
           setTimeout (DeleteGist cacheKey) oneHour ;;;
           ret validatedConfig)
          (fun err => raise (Error (errorMessage P err)))
          w
    end.
End GistFetcher.

(* ------------------------------------------------------------------ *)
(** *** [resolveSourcePages] *)

Definition UnsupportedSourceError (sourcePath : jsstring) : error :=
  Error (str "Unsupported source path format: " ++ sourcePath).
Definition AlbumLoadError (albumId : jsstring) : error :=
  Error (str "Failed to load pages from Imgur album " ++ albumId ++ str ".").

Definition resolveSourcePages (sourcePath : jsstring) : Async (list jsval) :=
  match imgurMatch sourcePath with
  | Some albumId =>
      catch (fetchImgurAlbumPages albumId) (fun _ => raise (AlbumLoadError albumId))
  | None => raise (UnsupportedSourceError sourcePath)
  end.

(* ================================================================== *)
(** * Further parts of the program

    The sections up to the properties embed what the files above hold
    besides: the effect that saves the progress, the page area, the
    controls and the chapter menu of the reader clients
    ([src/lib/imgur.ts], the Imgur reader client), the page progress bar,
    the latest chapter of the info page, the server pages
    ([src/app/read/gist/[gistId]/[chapter]/page.tsx], its earlier form
    that resolves a source path, and the Imgur reader page), the submit
    handlers of the home page ([src/app/page.tsx]), the hook
    [src/hooks/useHotkeys.tsx] and the sample reader page
    ([src/app/reader/page.tsx]); with [JSON.stringify] for the saved
    record. *)
(* ================================================================== *)

(* ================================================================== *)
(** ** [JSON.stringify] *)
(* ================================================================== *)

Definition hexDigit (d : N) : N :=
  if (d <? 10)%N then (48 + d)%N else (87 + d)%N.

(** UnicodeEscape: a backslash, [u] and four lower-case hexadecimal digits. *)
Definition unicodeEscape (c : N) : jsstring :=
  [92; 117; hexDigit (c / 4096 mod 16); hexDigit (c / 256 mod 16);
   hexDigit (c / 16 mod 16); hexDigit (c mod 16)]%N.

Definition isLeadingSurrogate (c : N) : bool := ((55296 <=? c) && (c <=? 56319))%N.
Definition isTrailingSurrogate (c : N) : bool := ((56320 <=? c) && (c <=? 57343))%N.

(** One code point that is not a surrogate: the short escapes of backspace,
    tab, line feed, form feed, carriage return, the quote and the backslash,
    a UnicodeEscape for the other control characters, the character itself
    otherwise. *)
Definition quoteUnit (c : N) : jsstring :=
  if (c =? 8)%N then [92; 98]%N
  else if (c =? 9)%N then [92; 116]%N
  else if (c =? 10)%N then [92; 110]%N
  else if (c =? 12)%N then [92; 102]%N
  else if (c =? 13)%N then [92; 114]%N
  else if (c =? 34)%N then [92; 34]%N
  else if (c =? 92)%N then [92; 92]%N
  else if (c <? 32)%N then unicodeEscape c
  else [c].

(** The code points of the string in turn: a leading surrogate followed by
    a trailing one is one code point and is copied; a surrogate on its own
    is escaped. *)
Fixpoint quoteUnits (s : jsstring) : jsstring :=
  match s with
  | [] => []
  | c :: r =>
      if isLeadingSurrogate c then
        match r with
        | d :: r' =>
            if isTrailingSurrogate d then c :: d :: quoteUnits r'
            else unicodeEscape c ++ quoteUnits r
        | [] => unicodeEscape c
        end
      else if isTrailingSurrogate c then unicodeEscape c ++ quoteUnits r
      else quoteUnit c ++ quoteUnits r
  end.

Definition QuoteJSONString (s : jsstring) : jsstring :=
  [34%N] ++ quoteUnits s ++ [34%N].

(** SerializeJSONProperty with no replacer and no indentation; [None] is
    [undefined].  A number that is not finite is written [null], an
    [undefined] array element too, a property whose value is [undefined]
    is left out.  No value of [jsval] has a callable [toJSON]. *)
Fixpoint JSON_stringify (P : Platform) (v : jsval) : option jsstring :=
  match v with
  | JUndefined => None
  | JNull => Some (str "null")
  | JBool true => Some (str "true")
  | JBool false => Some (str "false")
  | JNum n =>
      match n with
      | Fin _ => Some (Number_toString P n)
      | _ => Some (str "null")
      end
  | JStr s => Some (QuoteJSONString s)
  | JArr items =>
      Some (str "[" ++
            joinWith (str ",")
              (map (fun item => default (str "null") (JSON_stringify P item)) items)
            ++ str "]")
  | JObj fields =>
      Some (str "{" ++
            joinWith (str ",")
              (concat (map (fun kv =>
                 let '(k, value) := kv in
                 match JSON_stringify P value with
                 | Some text => [QuoteJSONString k ++ str ":" ++ text]
                 | None => []
                 end) fields))
            ++ str "}")
  end.

(* ================================================================== *)
(** ** The reading session: saving, the page area, the controls *)
(* ================================================================== *)

Section Persistence.
Context (P : Platform).

(** [{ page: currentPage, totalPages: pages.length, lastRead: ... }] *)
Definition progressRecord (page : number) (pagesLength : nat) (lastRead : jsstring) : jsval :=
  JObj [(str "page", JNum page);
        (str "totalPages", JNum (of_nat pagesLength));
        (str "lastRead", JStr lastRead)].

(** The effect that saves the progress.  [identity] is the truth of the
    identifiers in the guard ([gistId && chapterKey], [albumId]), [lastRead]
    is [new Date().toISOString()] at the time the effect runs. *)
Definition saveEffect (identity : bool) (progressKey : jsstring) (pagesLength : nat)
    (r : Reader) (lastRead : jsstring)
    (localStorage : gmap jsstring jsstring) : gmap jsstring jsstring :=
  if identity && (0 <? pagesLength)%nat && num_ltb (of_Z 0) (currentPage r) then
    <[progressKey :=
        default (str "undefined")
          (JSON_stringify P (progressRecord (currentPage r) pagesLength lastRead))]>
      localStorage
  else localStorage.

Definition GistReaderClient_save (gistId chapterKey : jsstring) (pages : list jsval) :=
  saveEffect (ToBoolean (JStr gistId) && ToBoolean (JStr chapterKey))
    (gistProgressKey gistId chapterKey) (length pages).

Definition ImgurReaderClient_save (albumId : jsstring) (pages : list jsval) :=
  saveEffect (ToBoolean (JStr albumId)) (imgurProgressKey albumId) (length pages).

End Persistence.

(** [items[index]] with a number for index: the element at that position
    when the number is an integer inside the array, [undefined] otherwise
    (an array has no other property with a numeric name). *)
Definition Array_get (items : list jsval) (index : number) : jsval :=
  match index with
  | Fin q =>
      let r := Qred q in
      if ((Qden r =? 1)%positive && (0 <=? Qnum r)%Z)%bool
      then default JUndefined (items !! Z.to_nat (Qnum r))
      else JUndefined
  | _ => JUndefined
  end.

(** What the page area can hold: an image with its [src], the empty box
    that stands for a missing right page, the text [Loading page...]. *)
Inductive Element :=
| Image (src : jsval)
| Spacer
| LoadingText.

(** [{cond && children}] *)
Definition when (cond : bool) (children : list Element) : list Element :=
  if cond then children else [].

Definition isSingle (m : ViewMode) : bool :=
  match m with single => true | double => false end.
Definition isDouble (m : ViewMode) : bool :=
  match m with double => true | single => false end.

(** The children of the image display area, in the order of the markup. *)
Definition pageArea (pages : list jsval) (r : Reader) : list Element :=
  let totalPages := of_nat (length pages) in
  let page := currentPage r in
  when (isSingle (viewMode r) && (0 <? length pages)%nat
        && num_leb (of_Z 1) page && num_leb page totalPages)
    [Image (Array_get pages (num_sub page (of_Z 1)))]
  ++ when (isDouble (viewMode r) && (0 <? length pages)%nat
           && num_leb (of_Z 1) page && num_leb page totalPages)
       ([Image (Array_get pages (num_sub page (of_Z 1)))]
        ++ when (num_leb (num_add page (of_Z 1)) totalPages)
             [Image (Array_get pages page)]
        ++ when (num_ltb totalPages (num_add page (of_Z 1))) [Spacer])
  ++ when ((length pages =? 0)%nat || num_ltb page (of_Z 1) || num_ltb totalPages page)
       [LoadingText].

(** [disabled={currentPage <= 1}], [disabled={currentPage >= totalPages}] *)
Definition prevDisabled (r : Reader) : bool := num_leb (currentPage r) (of_Z 1).
Definition nextDisabled (totalPages : nat) (r : Reader) : bool :=
  num_leb (of_nat totalPages) (currentPage r).

(** The key handler of the reader clients: [ArrowRight] goes to the next
    page, [ArrowLeft] to the previous one; nothing happens while the focus
    is in a form field, or for another key. *)
Record KeyboardEvent := { key : jsstring; targetIsFormField : bool }.

Definition handleKeyDown (totalPages : nat) (e : KeyboardEvent) (r : Reader) : Reader :=
  if targetIsFormField e then r
  else
    let r1 := if jsstring_eqb (key e) (str "ArrowRight") then goToNextPage totalPages r else r in
    if jsstring_eqb (key e) (str "ArrowLeft") then goToPrevPage r1 else r1.

(** ** The page progress bar *)

Record Segment := { pageNumber : nat; isRead : bool; isCurrent : bool }.

(** [PageProgressBar]: [None] is the [null] it returns. *)
Definition PageProgressBar (page : number) (totalPages : nat) : option (list Segment) :=
  if num_leb (of_nat totalPages) (of_Z 0) || num_leb page (of_Z 0) then None
  else
    Some (map (fun index =>
            let pageNumber := (index + 1)%nat in
            {| pageNumber := pageNumber;
               isRead := num_leb (of_nat pageNumber) page;
               isCurrent := num_eqb (of_nat pageNumber) page |})
          (seq 0 totalPages)).

(** [{totalPages > 1 && <PageProgressBar .../>}] in the footer of the readers. *)
Definition footerProgressBar (totalPages : nat) (r : Reader) : option (list Segment) :=
  if (1 <? totalPages)%nat then PageProgressBar (currentPage r) totalPages else None.

(** The sources of the images among the children of the page area. *)
Definition shownImages (area : list Element) : list jsval :=
  flat_map (fun e => match e with Image src => [src] | _ => [] end) area.

(** ** The latest chapter of the info page *)

(** [sortedChapterKeys[sortedChapterKeys.length - 1]]; [None] is [undefined]. *)
Definition latestChapterKey (P : Platform) (keys : list jsstring) : option jsstring :=
  last (sortChapterKeys P keys).

(* ================================================================== *)
(** ** The server pages *)
(* ================================================================== *)

(** *** [ImgurReaderPage] *)

Inductive ImgurReaderView :=
| ImgurInvalidParameters
| ErrorLoadingAlbum (message : jsstring)
| ImgurReader (albumId : jsstring) (initialPages : list jsval).

(** [err instanceof Error ? `Failed to load album: ${err.message}` : ...]:
    every value thrown here is an [Error]. *)
Definition ImgurReaderPage (P : Platform) (albumId : jsstring) : Async ImgurReaderView :=
  fun w =>
    if negb (ToBoolean (JStr albumId)) then (ok ImgurInvalidParameters, w)
    else
      let fetched := fetchImgurAlbumPages albumId w in
      let pages := match fst fetched with ok pages => pages | throw _ => [] end in
      let error :=
        match fst fetched with
        | ok _ => JNull
        | throw err => JStr (str "Failed to load album: " ++ errorMessage P err)
        end in
      (ok (match error with
           | JStr message =>
               if ToBoolean error then ErrorLoadingAlbum message
               else ImgurReader albumId pages
           | _ => ImgurReader albumId pages
           end),
       snd fetched).

(** *** [GistReaderPage] *)

(** The own property of a value under a name: a property of an object, an
    element or the length of an array or of a string. *)
Definition ownProperty (v : jsval) (k : jsstring) : option jsval :=
  match v with
  | JObj fields => lookupField fields k
  | JArr items =>
      if jsstring_eqb k (str "length") then Some (JNum (of_nat (length items)))
      else match arrayIndex k with
           | Some i => items !! Z.to_nat i
           | None => None
           end
  | JStr s =>
      if jsstring_eqb k (str "length") then Some (JNum (of_nat (length s)))
      else match arrayIndex k with
           | Some i => (fun c => JStr [c]) <$> s !! Z.to_nat i
           | None => None
           end
  | _ => None
  end.

(** What [v[k]] finds for a name that the program does not choose: an own
    property, a property of the prototype chain ([constructor], [toString],
    [__proto__] and the like), or nothing. *)
Inductive Member :=
| Own (v : jsval)
| Inherited
| Absent.

(** [Object.keys] *)
Definition indexKeys (n : nat) : list jsstring :=
  map (fun i => Z_toString (Z.of_nat i)) (seq 0 n).

Definition Object_keys (v : jsval) : result (list jsstring) :=
  match v with
  | JUndefined | JNull => throw TypeError
  | JObj fields => ok (map fst fields)
  | JArr items => ok (indexKeys (length items))
  | JStr s => ok (indexKeys (length s))
  | _ => ok []
  end.

Definition ChapterNotFoundError (chapterKey : jsstring) : error :=
  Error (str "Chapter '" ++ chapterKey ++ str "' not found in Gist configuration.").
Definition NoGroupsError (chapterKey : jsstring) : error :=
  Error (str "No image source groups found for Chapter '" ++ chapterKey ++ str "'.").
Definition InvalidSourceError (chapterKey firstGroupName : jsstring) : error :=
  Error (str "Invalid or empty source data found for Chapter '" ++ chapterKey
         ++ str "' (Group: " ++ firstGroupName ++ str "). Expected an array of URLs.").

Definition isString (v : jsval) : bool :=
  match v with JStr _ => true | _ => false end.

Inductive GistReaderView :=
| GistInvalidParameters
| ErrorLoadingChapter (message : jsstring)
| ErrorLoadingConfiguration
| GistReader (gistId initialChapterKey : jsstring) (initialPages : list jsval)
    (initialConfig : jsval).

Section GistReaderPage.
Context (P : Platform).

(** Whether a value finds the name on its prototype chain, which the
    engine settles.  What is found there in a realm that nobody has
    tampered with is a function or a prototype object: it is truthy and has
    no property [groups]. *)
Context (inherits : jsval -> jsstring -> bool).

(** [v[k]] *)
Definition member (v : jsval) (k : jsstring) : result Member :=
  match v with
  | JUndefined | JNull => throw TypeError
  | _ =>
      ok (match ownProperty v k with
          | Some x => Own x
          | None => if inherits v k then Inherited else Absent
          end)
  end.

(** The body of the [try] after the configuration has arrived. *)
Definition chapterPages (config : jsval) (chapterKey : jsstring) : result (list jsval) :=
  chapterData <-
    match config with
    | JUndefined | JNull => ok Absent
    | _ => chapters <- Get config (str "chapters") ;; member chapters chapterKey
    end ;;
  if match chapterData with
     | Own chapter => negb (ToBoolean chapter)
     | Inherited => false
     | Absent => true
     end
  then throw (ChapterNotFoundError chapterKey)
  else
    groups <-
      match chapterData with
      | Own chapter => Get chapter (str "groups")
      | _ => ok JUndefined
      end ;;
    groupKeys <- Object_keys (orElse groups (JObj [])) ;;
    match groupKeys with
    | [] => throw (NoGroupsError chapterKey)
    | firstGroupName :: _ =>
        match default JUndefined (ownProperty groups firstGroupName) with
        | JArr ((_ :: _) as sourceData) =>
            if forallb isString sourceData then ok sourceData
            else throw (InvalidSourceError chapterKey firstGroupName)
        | _ => throw (InvalidSourceError chapterKey firstGroupName)
        end
    end.

Definition GistReaderPage (gistId chapterKey : jsstring) : Async GistReaderView :=
  fun w =>
    if negb (ToBoolean (JStr gistId)) || negb (ToBoolean (JStr chapterKey))
    then (ok GistInvalidParameters, w)
    else
      let fetched := fetchGistConfig P gistId w in
      let config := match fst fetched with ok config => config | throw _ => JNull end in
      let loaded := (config <- fst fetched ;; chapterPages config chapterKey) in
      let pages := match loaded with ok pages => pages | throw _ => [] end in
      let error :=
        match loaded with
        | ok _ => JNull
        | throw err => JStr (str "Failed to load chapter: " ++ errorMessage P err)
        end in
      (ok (match error with
           | JStr message =>
               if ToBoolean error then ErrorLoadingChapter message
               else if negb (ToBoolean config) then ErrorLoadingConfiguration
               else GistReader gistId chapterKey pages config
           | _ =>
               if negb (ToBoolean config) then ErrorLoadingConfiguration
               else GistReader gistId chapterKey pages config
           end),
       snd fetched).


(** The earlier form of the page, which takes the value of the first group
    for a source path and has [resolveSourcePages] turn it into pages. *)
Definition InvalidSourcePathError (chapterKey firstGroupName : jsstring) : error :=
  Error (str "Invalid source path found for Chapter '" ++ chapterKey
         ++ str "' (Group: " ++ firstGroupName ++ str "). Expected a string.").

Definition chapterSourcePath (config : jsval) (chapterKey : jsstring) : result jsstring :=
  chapterData <-
    match config with
    | JUndefined | JNull => ok Absent
    | _ => chapters <- Get config (str "chapters") ;; member chapters chapterKey
    end ;;
  if match chapterData with
     | Own chapter => negb (ToBoolean chapter)
     | Inherited => false
     | Absent => true
     end
  then throw (ChapterNotFoundError chapterKey)
  else
    groups <-
      match chapterData with
      | Own chapter => Get chapter (str "groups")
      | _ => ok JUndefined
      end ;;
    groupKeys <- Object_keys (orElse groups (JObj [])) ;;
    match groupKeys with
    | [] => throw (NoGroupsError chapterKey)
    | firstGroupName :: _ =>
        match default JUndefined (ownProperty groups firstGroupName) with
        | JStr ((_ :: _) as sourcePath) => ok sourcePath
        | _ => throw (InvalidSourcePathError chapterKey firstGroupName)
        end
    end.

Definition GistReaderPage_resolving (gistId chapterKey : jsstring) : Async GistReaderView :=
  fun w =>
    if negb (ToBoolean (JStr gistId)) || negb (ToBoolean (JStr chapterKey))
    then (ok GistInvalidParameters, w)
    else
      let fetched := fetchGistConfig P gistId w in
      let config := match fst fetched with ok config => config | throw _ => JNull end in
      let resolved :=
        match (config <- fst fetched ;; chapterSourcePath config chapterKey) with
        | ok sourcePath => resolveSourcePages sourcePath (snd fetched)
        | throw err => (throw err, snd fetched)
        end in
      let pages := match fst resolved with ok pages => pages | throw _ => [] end in
      let error :=
        match fst resolved with
        | ok _ => JNull
        | throw err => JStr (str "Failed to load chapter: " ++ errorMessage P err)
        end in
      (ok (match error with
           | JStr message =>
               if ToBoolean error then ErrorLoadingChapter message
               else if negb (ToBoolean config) then ErrorLoadingConfiguration
               else GistReader gistId chapterKey pages config
           | _ =>
               if negb (ToBoolean config) then ErrorLoadingConfiguration
               else GistReader gistId chapterKey pages config
           end),
       snd resolved).

End GistReaderPage.

(* ================================================================== *)
(** ** The home page *)
(* ================================================================== *)

Fixpoint spanWhile (p : N -> bool) (s : jsstring) : jsstring * jsstring :=
  match s with
  | c :: s' =>
      if p c then let '(run, r) := spanWhile p s' in (c :: run, r)
      else ([], s)
  | [] => ([], [])
  end.

(** [[a-fA-F0-9]], [[\w\-]], [[^\/]] *)
Definition isHexDigit (c : N) : bool :=
  isDigit c || ((65 <=? c) && (c <=? 70))%N || ((97 <=? c) && (c <=? 102))%N.
Definition isWordOrHyphen (c : N) : bool := isAlnum c || (c =? 95)%N || (c =? 45)%N.
Definition isNotSlash (c : N) : bool := negb (c =? 47)%N.

(** [([a-fA-F0-9]+)] at the head of [s]: the longest run, which has to hold
    a digit at least. *)
Definition hexRun (s : jsstring) : option jsstring :=
  match spanWhile isHexDigit s with
  | ([], _) => None
  | (run, _) => Some run
  end.

(** The pattern [gist\.github\.com\/(?:[\w\-]+\/)?([a-fA-F0-9]+)] tried at
    the head of [s]: its first group.  The optional part is tried first; it
    takes the longest run of word characters and hyphens, which a slash has
    to follow (a shorter run is followed by a character of the run).  When
    no hexadecimal digit comes behind it the pattern is tried without it. *)
Definition gistUrlMatchHere (s : jsstring) : option jsstring :=
  if startsWith s (str "gist.github.com/") then
    let r := drop (length (str "gist.github.com/")) s in
    let withOwner :=
      match spanWhile isWordOrHyphen r with
      | (_ :: _, c :: r') => if (c =? 47)%N then hexRun r' else None
      | _ => None
      end in
    match withOwner with
    | Some id => Some id
    | None => hexRun r
    end
  else None.

(** The pattern [raw\.githubusercontent\.com\/[^\/]+\/([a-fA-F0-9]+)\/raw\/]
    tried at the head of [s]: the longest run without a slash, a slash, the
    longest run of hexadecimal digits, then [/raw/] (a shorter run is
    followed by a character of the run, not by a slash). *)
Definition rawUrlMatchHere (s : jsstring) : option jsstring :=
  if startsWith s (str "raw.githubusercontent.com/") then
    match spanWhile isNotSlash (drop (length (str "raw.githubusercontent.com/")) s) with
    | (_ :: _, c :: r) =>
        if (c =? 47)%N then
          match spanWhile isHexDigit r with
          | ([], _) => None
          | (id, r') => if startsWith r' (str "/raw/") then Some id else None
          end
        else None
    | _ => None
    end
  else None.

(** The pattern [imgur\.com\/(?:gallery\/|a\/)([a-zA-Z0-9]+)] tried at the
    head of [s]. *)
Definition imgurUrlMatchHere (s : jsstring) : option jsstring :=
  if startsWith s (str "imgur.com/") then
    let r := drop (length (str "imgur.com/")) s in
    let afterKind :=
      if startsWith r (str "gallery/") then Some (drop (length (str "gallery/")) r)
      else if startsWith r (str "a/") then Some (drop (length (str "a/")) r)
      else None in
    match afterKind with
    | Some t =>
        match spanAlnum t with
        | ([], _) => None
        | (id, _) => Some id
        end
    | None => None
    end
  else None.

(** [source.match(pattern)]: the leftmost position at which the pattern
    matches; the first group of the match. *)
Fixpoint matchFirst (here : jsstring -> option jsstring) (s : jsstring) : option jsstring :=
  match here s with
  | Some group => Some group
  | None =>
      match s with
      | [] => None
      | _ :: s' => matchFirst here s'
      end
  end.

(** [/^[a-fA-F0-9]+$/.test(s)], [/^[a-zA-Z0-9]+$/.test(s)] *)
Definition isHexId (s : jsstring) : bool :=
  match s with [] => false | _ => forallb isHexDigit s end.
Definition isAlnumId (s : jsstring) : bool :=
  match s with [] => false | _ => forallb isAlnum s end.

(** What a submit handler does: nothing, [router.push(href)], or
    [alert(message)]. *)
Inductive SubmitOutcome :=
| Ignored
| Pushed (href : jsstring)
| Alerted (message : jsstring).

(** [handleGistInputChange], [handleImgurInputChange]: the state holds the
    trimmed text of the field. *)
Definition handleInputChange (value : jsstring) : jsstring := trim value.

Definition handleGistSubmit (gistSource : jsstring) : SubmitOutcome :=
  if negb (ToBoolean (JStr gistSource)) then Ignored
  else
    let gistId :=
      match matchFirst gistUrlMatchHere gistSource with
      | Some id => Some id
      | None =>
          match matchFirst rawUrlMatchHere gistSource with
          | Some id => Some id
          | None => if isHexId gistSource then Some gistSource else None
          end
      end in
    match gistId with
    | Some id =>
        if ToBoolean (JStr id) then Pushed (str "/info/gist/" ++ id)
        else Alerted (str "Invalid Gist URL or ID format. Please provide a valid GitHub Gist URL (standard or raw) or just the ID.")
    | None =>
        Alerted (str "Invalid Gist URL or ID format. Please provide a valid GitHub Gist URL (standard or raw) or just the ID.")
    end.

Definition handleImgurSubmit (imgurSource : jsstring) : SubmitOutcome :=
  if negb (ToBoolean (JStr imgurSource)) then Ignored
  else
    match matchFirst imgurUrlMatchHere imgurSource with
    | Some id => Pushed (str "/reader/imgur/" ++ id)
    | None =>
        if isAlnumId imgurSource then Pushed (str "/reader/imgur/" ++ imgurSource)
        else Alerted (str "Invalid Imgur Album URL or ID format.")
    end.

(* ================================================================== *)
(** ** [useHotkeys] and the sample reader page *)
(* ================================================================== *)

(** The fields of a key event that the hook reads. *)
Record HotkeyEvent := {
  eventKey : jsstring;
  eventCtrlKey : bool;
  eventAltKey : bool;
  eventShiftKey : bool;
}.

(** A hotkey: its key, what it does to the state of the component, and the
    modifiers it asks for ([None] is [undefined]: any). *)
Record HotkeyConfig (State : Type) := {
  hotkeyKey : jsstring;
  callback : State -> State;
  ctrlKey : option bool;
  altKey : option bool;
  shiftKey : option bool;
}.
Arguments hotkeyKey {State} _.
Arguments callback {State} _.
Arguments ctrlKey {State} _.
Arguments altKey {State} _.
Arguments shiftKey {State} _.

Definition modifierFits (wanted : option bool) (held : bool) : bool :=
  match wanted with
  | None => true
  | Some b => Bool.eqb held b
  end.

Definition hotkeyFits {State} (event : HotkeyEvent) (hotkey : HotkeyConfig State) : bool :=
  jsstring_eqb (eventKey event) (hotkeyKey hotkey)
  && modifierFits (ctrlKey hotkey) (eventCtrlKey event)
  && modifierFits (altKey hotkey) (eventAltKey event)
  && modifierFits (shiftKey hotkey) (eventShiftKey event).

(** The key handler that [useHotkeys] installs: the state after the event
    and whether [preventDefault] was called. *)
Fixpoint useHotkeys {State} (hotkeys : list (HotkeyConfig State)) (event : HotkeyEvent)
    (s : State) : State * bool :=
  match hotkeys with
  | [] => (s, false)
  | hotkey :: rest =>
      if hotkeyFits event hotkey then (callback hotkey s, true)
      else useHotkeys rest event s
  end.

Module ReaderPage.

(** [const totalPages = 24] *)
Definition totalPages : number := of_Z 24.

Definition goToNextPage (currentPage : number) : number :=
  if num_ltb currentPage totalPages then num_add currentPage (of_Z 1) else currentPage.

Definition goToPrevPage (currentPage : number) : number :=
  if num_ltb (of_Z 1) currentPage then num_sub currentPage (of_Z 1) else currentPage.

Definition hotkeys : list (HotkeyConfig number) :=
  [ {| hotkeyKey := str "ArrowRight"; callback := goToNextPage;
       ctrlKey := None; altKey := None; shiftKey := None |};
    {| hotkeyKey := str "ArrowLeft"; callback := goToPrevPage;
       ctrlKey := None; altKey := None; shiftKey := None |} ].

(** [useState(1)] *)
Definition initialPage : number := of_Z 1.

Definition handleKeyDown (event : HotkeyEvent) (currentPage : number) : number * bool :=
  useHotkeys hotkeys event currentPage.

End ReaderPage.

(* ================================================================== *)
(** ** The chapter menu of the gist reader client *)
(* ================================================================== *)

Record ChapterEntry := { entryKey : jsstring; entryTitle : jsval }.

(** [sortedChapters]: the chapters in the order of their keys, each with
    its title, or with [Chapter <key>] when it has none. *)
Definition sortedChapters (P : Platform) (config : jsval) : result (list ChapterEntry) :=
  chapters <-
    match config with
    | JUndefined | JNull => ok JUndefined
    | _ => Get config (str "chapters")
    end ;;
  if negb (ToBoolean chapters) then ok []
  else
    keys <- Object_keys chapters ;;
    sequence
      (map (fun key =>
              title <- Get (default JUndefined (ownProperty chapters key)) (str "title") ;;
              ok {| entryKey := key;
                    entryTitle := orElse title (JStr (str "Chapter " ++ key)) |})
           (sortChapterKeys P keys)).

(* ================================================================== *)
(** * Properties *)
(* ================================================================== *)

(** ** [JSON.parse] has fuel enough *)

Lemma skipWS_length (s : jsstring) : (length (skipWS s) <= length s)%nat.
Proof.
  induction s as [|c s IH]; simpl; [lia|].
  destruct (isJSONWhiteSpace c); simpl; lia.
Qed.

Lemma expect_length (c : N) (s r : jsstring) :
  expect c s = Some r -> (length r < length s)%nat.
Proof.
  unfold expect. pose proof (skipWS_length s) as H.
  destruct (skipWS s) as [|c' r']; [discriminate|].
  destruct (c' =? c)%N; [|discriminate]. intros [= <-]. simpl in H. lia.
Qed.

Lemma spanDigits_length (s ds r : jsstring) :
  spanDigits s = (ds, r) -> length s = (length ds + length r)%nat.
Proof.
  revert ds r. induction s as [|c s IH]; intros ds r; simpl.
  - intros [= <- <-]. reflexivity.
  - destruct (isDigit c).
    + destruct (spanDigits s) as [ds' r'] eqn:E. intros [= <- <-].
      simpl. rewrite (IH ds' r' eq_refl). reflexivity.
    + intros [= <- <-]. reflexivity.
Qed.

Lemma parseStringBody_length (n : nat) :
  forall s acc k r,
    (length s <= n)%nat -> parseStringBody s acc = Some (k, r) ->
    (length r < length s)%nat.
Proof.
  induction n as [|n IH]; intros s acc k r Hn H.
  - destruct s; [discriminate H | simpl in Hn; lia].
  - destruct s as [|c s]; [discriminate H|]. simpl in H, Hn.
    destruct (c =? 34)%N.
    { injection H as <- <-. simpl. lia. }
    destruct (c =? 92)%N.
    { destruct s as [|e s]; [discriminate H|].
      destruct (e =? 117)%N.
      - destruct s as [|a [|b [|c' [|d s]]]]; try discriminate H.
        destruct (hex4 a b c' d); [|discriminate H].
        apply IH in H; simpl in *; lia.
      - destruct (escapedUnit e); [|discriminate H].
        apply IH in H; simpl in *; lia. }
    destruct (c <? 32)%N; [discriminate H|].
    apply IH in H; simpl in *; lia.
Qed.

Lemma parseNumber_length (s : jsstring) (n : number) (r : jsstring) :
  parseNumber s = Some (n, r) -> (length r < length s)%nat.
Proof.
  unfold parseNumber.
  destruct (optionalMinus s) as [neg r0] eqn:Hminus.
  assert (H0 : (length r0 <= length s)%nat).
  { unfold optionalMinus in Hminus. destruct s as [|c s]; [now inversion Hminus|].
    destruct (c =? 45)%N; inversion Hminus; simpl; lia. }
  destruct (spanDigits r0) as [ip r1] eqn:Hip.
  apply spanDigits_length in Hip.
  destruct ip as [|d ip]; [discriminate|].
  destruct (leadingZero (d :: ip)); [discriminate|].
  destruct (parseFraction r1) as [[fp r2]|] eqn:Hfrac; [|discriminate].
  assert (H2 : (length r2 <= length r1)%nat).
  { unfold parseFraction in Hfrac. destruct r1 as [|c r1']; [now inversion Hfrac|].
    destruct (c =? 46)%N.
    - destruct (spanDigits r1') as [fp' r'] eqn:Hfp. apply spanDigits_length in Hfp.
      destruct fp'; [discriminate|]. inversion Hfrac; subst. simpl in *. lia.
    - inversion Hfrac; subst. lia. }
  destruct (parseExponent r2) as [[e r3]|] eqn:Hexp; [|discriminate].
  assert (H3 : (length r3 <= length r2)%nat).
  { unfold parseExponent in Hexp. destruct r2 as [|c r2']; [now inversion Hexp|].
    destruct ((c =? 101) || (c =? 69))%N.
    - destruct (optionalSign r2') as [eneg r4] eqn:Hsign.
      assert (length r4 <= length r2')%nat.
      { unfold optionalSign in Hsign. destruct r2' as [|c' r2'']; [now inversion Hsign|].
        destruct (c' =? 45)%N; [inversion Hsign; simpl; lia|].
        destruct (c' =? 43)%N; inversion Hsign; simpl; lia. }
      destruct (spanDigits r4) as [ds r5] eqn:Hds. apply spanDigits_length in Hds.
      destruct ds; [discriminate|]. inversion Hexp; subst. simpl in *. lia.
    - inversion Hexp; subst. lia. }
  intros [= _ <-]. simpl in Hip. lia.
Qed.

Lemma literal_length (c : N) (r : jsstring) (n : nat) :
  (1 <= n)%nat -> (length (drop n (c :: r)) < length (c :: r))%nat.
Proof. intros Hn. rewrite length_drop. simpl. lia. Qed.

Lemma parse_consumes (fuel : nat) :
  (forall s v r, parseValue fuel s = Parsed v r -> (length r < length s)%nat)
  /\ (forall acc s v r, parseElements fuel acc s = Parsed v r -> (length r < length s)%nat)
  /\ (forall acc s v r, parseMembers fuel acc s = Parsed v r -> (length r < length s)%nat).
Proof.
  induction fuel as [|fuel (IHv & IHe & IHm)]; [repeat split; intros; discriminate|].
  split; [|split].
  - intros s v r H. cbn [parseValue parseElements parseMembers] in H. pose proof (skipWS_length s) as Hws.
    destruct (skipWS s) as [|c t]; [discriminate H|]. simpl in Hws.
    destruct (c =? 123)%N.
    { destruct (expect 125 t) as [r'|] eqn:E.
      - apply expect_length in E. injection H as _ <-. lia.
      - apply IHm in H. lia. }
    destruct (c =? 91)%N.
    { destruct (expect 93 t) as [r'|] eqn:E.
      - apply expect_length in E. injection H as _ <-. lia.
      - apply IHe in H. lia. }
    destruct (c =? 34)%N.
    { destruct (parseStringBody t []) as [[k r']|] eqn:E; [|discriminate H].
      apply (parseStringBody_length _ _ _ _ _ (Nat.le_refl _)) in E.
      injection H as _ <-. lia. }
    destruct (startsWith (c :: t) (str "true")).
    { injection H as _ <-. pose proof (literal_length c t 4). simpl in *. lia. }
    destruct (startsWith (c :: t) (str "false")).
    { injection H as _ <-. pose proof (literal_length c t 5). simpl in *. lia. }
    destruct (startsWith (c :: t) (str "null")).
    { injection H as _ <-. pose proof (literal_length c t 4). simpl in *. lia. }
    destruct (parseNumber (c :: t)) as [[n r']|] eqn:E; [|discriminate H].
    apply parseNumber_length in E. injection H as _ <-. simpl in E. lia.
  - intros acc s v r H. cbn [parseValue parseElements parseMembers] in H.
    destruct (parseValue fuel s) as [v' r'| |] eqn:E; try discriminate H.
    apply IHv in E. pose proof (skipWS_length r') as Hws.
    destruct (skipWS r') as [|c t]; [discriminate H|]. simpl in Hws.
    destruct (c =? 44)%N; [apply IHe in H; lia|].
    destruct (c =? 93)%N; [|discriminate H]. injection H as _ <-. lia.
  - intros acc s v r H. cbn [parseValue parseElements parseMembers] in H.
    destruct (expect 34 s) as [r0|] eqn:E0; [|discriminate H].
    apply expect_length in E0.
    destruct (parseStringBody r0 []) as [[k r1]|] eqn:E1; [|discriminate H].
    apply (parseStringBody_length _ _ _ _ _ (Nat.le_refl _)) in E1.
    destruct (expect 58 r1) as [r2|] eqn:E2; [|discriminate H].
    apply expect_length in E2.
    destruct (parseValue fuel r2) as [v' r3| |] eqn:E3; try discriminate H.
    apply IHv in E3. pose proof (skipWS_length r3) as Hws.
    destruct (skipWS r3) as [|c t]; [discriminate H|]. simpl in Hws.
    destruct (c =? 44)%N; [apply IHm in H; lia|].
    destruct (c =? 125)%N; [|discriminate H]. injection H as _ <-. lia.
Qed.

Lemma parse_enough_fuel (fuel : nat) :
  (forall s, (2 * length s + 1 <= fuel)%nat -> parseValue fuel s <> OutOfFuel)
  /\ (forall acc s, (2 * length s + 2 <= fuel)%nat -> parseElements fuel acc s <> OutOfFuel)
  /\ (forall acc s, (2 * length s + 2 <= fuel)%nat -> parseMembers fuel acc s <> OutOfFuel).
Proof.
  induction fuel as [|fuel (IHv & IHe & IHm)]; [repeat split; intros; lia|].
  destruct (parse_consumes fuel) as (Cv & _ & _).
  split; [|split].
  - intros s Hfuel. cbn [parseValue parseElements parseMembers]. pose proof (skipWS_length s) as Hws.
    destruct (skipWS s) as [|c t]; [discriminate|]. simpl in Hws.
    destruct (c =? 123)%N.
    { destruct (expect 125 t); [discriminate|]. apply IHm. lia. }
    destruct (c =? 91)%N.
    { destruct (expect 93 t); [discriminate|]. apply IHe. lia. }
    destruct (c =? 34)%N.
    { destruct (parseStringBody t []) as [[k r']|]; discriminate. }
    destruct (startsWith (c :: t) (str "true")); [discriminate|].
    destruct (startsWith (c :: t) (str "false")); [discriminate|].
    destruct (startsWith (c :: t) (str "null")); [discriminate|].
    destruct (parseNumber (c :: t)) as [[n r']|]; discriminate.
  - intros acc s Hfuel. cbn [parseValue parseElements parseMembers].
    destruct (parseValue fuel s) as [v' r'| |] eqn:E; [|discriminate|].
    + apply Cv in E. pose proof (skipWS_length r') as Hws.
      destruct (skipWS r') as [|c t]; [discriminate|]. simpl in Hws.
      destruct (c =? 44)%N; [apply IHe; lia|].
      destruct (c =? 93)%N; discriminate.
    + exfalso. revert E. apply IHv. lia.
  - intros acc s Hfuel. cbn [parseValue parseElements parseMembers].
    destruct (expect 34 s) as [r0|] eqn:E0; [|discriminate].
    apply expect_length in E0.
    destruct (parseStringBody r0 []) as [[k r1]|] eqn:E1; [|discriminate].
    apply (parseStringBody_length _ _ _ _ _ (Nat.le_refl _)) in E1.
    destruct (expect 58 r1) as [r2|] eqn:E2; [|discriminate].
    apply expect_length in E2.
    destruct (parseValue fuel r2) as [v' r3| |] eqn:E3; [|discriminate|].
    + apply Cv in E3. pose proof (skipWS_length r3) as Hws.
      destruct (skipWS r3) as [|c t]; [discriminate|]. simpl in Hws.
      destruct (c =? 44)%N; [apply IHm; lia|].
      destruct (c =? 125)%N; discriminate.
    + exfalso. revert E3. apply IHv. lia.
Qed.

(** The fuel [JSON_parse] gives to [parseValue] is never used up: a text
    that [JSON_parse] rejects is malformed, or well-formed with something
    other than white space after it. *)
Theorem JSON_parse_enough_fuel (text : jsstring) :
  parseValue (2 * length text + 1) text <> OutOfFuel
  /\ (JSON_parse text = None ->
      parseValue (2 * length text + 1) text = Malformed
      \/ exists v r, parseValue (2 * length text + 1) text = Parsed v r /\ skipWS r <> []).
Proof.
  assert (H : parseValue (2 * length text + 1) text <> OutOfFuel).
  { destruct (parse_enough_fuel (2 * length text + 1)) as (Hv & _). apply Hv. lia. }
  split; [exact H|]. unfold JSON_parse.
  destruct (parseValue (2 * length text + 1) text) as [v r| |]; [|now left|contradiction].
  intros Hnone. right. exists v, r. split; [reflexivity|].
  destruct (skipWS r); [discriminate Hnone | discriminate].
Qed.

(** ** Integers among the numbers *)

Lemma Qle_bool_inject_Z (a b : Z) : Qle_bool (inject_Z a) (inject_Z b) = (a <=? b)%Z.
Proof. unfold Qle_bool, inject_Z; simpl. now rewrite !Z.mul_1_r. Qed.

Lemma num_leb_of_Z (a b : Z) : num_leb (of_Z a) (of_Z b) = (a <=? b)%Z.
Proof. apply Qle_bool_inject_Z. Qed.

Lemma num_add_of_Z (a b : Z) : num_add (of_Z a) (of_Z b) = of_Z (a + b).
Proof. unfold num_add, of_Z. now rewrite <- inject_Z_plus, inject_Z_Qred. Qed.

Lemma num_sub_of_Z (a b : Z) : num_sub (of_Z a) (of_Z b) = of_Z (a - b).
Proof.
  unfold num_sub, num_neg, of_Z. rewrite <- inject_Z_opp.
  apply (num_add_of_Z a (- b)).
Qed.

Lemma Math_min_of_Z (a b : Z) : Math_min (of_Z a) (of_Z b) = of_Z (Z.min a b).
Proof.
  unfold Math_min. change (Fin (inject_Z a)) with (of_Z a).
  change (Fin (inject_Z b)) with (of_Z b). rewrite num_leb_of_Z.
  destruct (Z.leb_spec a b); f_equal; lia.
Qed.

Lemma Math_max_of_Z (a b : Z) : Math_max (of_Z a) (of_Z b) = of_Z (Z.max a b).
Proof.
  unfold Math_max. change (Fin (inject_Z a)) with (of_Z a).
  change (Fin (inject_Z b)) with (of_Z b). rewrite num_leb_of_Z.
  destruct (Z.leb_spec a b); f_equal; lia.
Qed.

Lemma of_Z_inj (a b : Z) : of_Z a = of_Z b -> a = b.
Proof. unfold of_Z, inject_Z. congruence. Qed.

(** A page number within [1, totalPages]. *)
Definition inRange (totalPages : nat) (page : number) : Prop :=
  num_leb (of_Z 1) page = true /\ num_leb page (of_nat totalPages) = true.

Definition stepOf (mode : ViewMode) : Z :=
  match mode with single => 1 | double => 2 end.

Lemma getPageIncrement_stepOf (r : Reader) : getPageIncrement r = of_Z (stepOf (viewMode r)).
Proof. unfold getPageIncrement, stepOf. now destruct (viewMode r). Qed.

Lemma goToNextPage_of_Z (total : nat) (mode : ViewMode) (c : Z) :
  goToNextPage total {| currentPage := of_Z c; viewMode := mode |}
  = {| currentPage := of_Z (Z.min (c + stepOf mode) (Z.of_nat total)); viewMode := mode |}.
Proof.
  unfold goToNextPage. rewrite getPageIncrement_stepOf. cbn [currentPage viewMode].
  unfold of_nat. now rewrite num_add_of_Z, Math_min_of_Z.
Qed.

Lemma goToPrevPage_of_Z (mode : ViewMode) (c : Z) :
  goToPrevPage {| currentPage := of_Z c; viewMode := mode |}
  = {| currentPage := of_Z (Z.max 1 (c - stepOf mode)); viewMode := mode |}.
Proof.
  unfold goToPrevPage. rewrite getPageIncrement_stepOf. cbn [currentPage viewMode].
  now rewrite num_sub_of_Z, Math_max_of_Z.
Qed.

(** ** Navigation *)

Lemma next_pinned_at_last (total : nat) (mode : ViewMode) (n : nat) :
  (1 <= Z.of_nat total)%Z ->
  Nat.iter n (goToNextPage total) {| currentPage := of_nat total; viewMode := mode |}
  = {| currentPage := of_nat total; viewMode := mode |}.
Proof.
  intros Htotal. induction n as [|n IH]; [reflexivity|].
  simpl. rewrite IH. unfold of_nat. rewrite goToNextPage_of_Z.
  do 2 f_equal. destruct mode; simpl; lia.
Qed.

Lemma prev_pinned_at_first (mode : ViewMode) (n : nat) :
  Nat.iter n goToPrevPage {| currentPage := of_Z 1; viewMode := mode |}
  = {| currentPage := of_Z 1; viewMode := mode |}.
Proof.
  induction n as [|n IH]; [reflexivity|].
  simpl. rewrite IH, goToPrevPage_of_Z. do 2 f_equal. destruct mode; simpl; lia.
Qed.

(** C1, as stated, fails: with ten pages in double view, "next" on page 9
    does not stop at page 9, it moves to page 10. *)
Lemma navigation_next_from_9_leaves_9 :
  currentPage (goToNextPage 10 {| currentPage := of_Z 9; viewMode := double |}) = of_Z 10
  /\ currentPage (goToNextPage 10 {| currentPage := of_Z 9; viewMode := double |}) <> of_Z 9.
Proof. split; [reflexivity | discriminate]. Qed.

(** C1, amended.  With ten pages in double view, "next" from page 9 moves to
    page 10 and every further "next" stays there (page 11 is never
    reached); "prev" from page 1 stays at page 1 however often it is
    repeated.  In general, for a current page [c] within [1, totalPages],
    advance and retreat move it by the step of the view mode (1 for single,
    2 for double) clamped to [1, totalPages], leave the view mode alone,
    and are the identity at the last, respectively the first, page. *)
Theorem navigation_clamping :
  (forall n, currentPage (Nat.iter (S n) (goToNextPage 10)
                            {| currentPage := of_Z 9; viewMode := double |}) = of_Z 10)
  /\ (forall n, currentPage (Nat.iter n goToPrevPage
                               {| currentPage := of_Z 1; viewMode := double |}) = of_Z 1)
  /\ (forall (mode : ViewMode) (totalPages : nat) (c : Z),
        (1 <= c <= Z.of_nat totalPages)%Z ->
        let clamp x := Z.max 1 (Z.min x (Z.of_nat totalPages)) in
        let r := {| currentPage := of_Z c; viewMode := mode |} in
        goToNextPage totalPages r
          = {| currentPage := of_Z (clamp (c + stepOf mode)%Z); viewMode := mode |}
        /\ goToPrevPage r
          = {| currentPage := of_Z (clamp (c - stepOf mode)%Z); viewMode := mode |}
        /\ (c = Z.of_nat totalPages -> goToNextPage totalPages r = r)
        /\ (c = 1%Z -> goToPrevPage r = r)).
Proof.
  split; [|split].
  - intros n. rewrite Nat.iter_succ_r.
    change (goToNextPage 10 {| currentPage := of_Z 9; viewMode := double |})
      with {| currentPage := of_nat 10; viewMode := double |}.
    now rewrite next_pinned_at_last.
  - intros n. now rewrite prev_pinned_at_first.
  - intros mode totalPages c Hc clamp r. subst clamp r.
    rewrite goToNextPage_of_Z, goToPrevPage_of_Z.
    repeat split.
    + do 2 f_equal. destruct mode; simpl; lia.
    + do 2 f_equal. destruct mode; simpl; lia.
    + intros ->. do 2 f_equal. destruct mode; simpl; lia.
    + intros ->. do 2 f_equal. destruct mode; simpl; lia.
Qed.

Lemma navigation_clamping_witness :
  (1 <= 4 <= Z.of_nat 7)%Z
  /\ goToNextPage 7 {| currentPage := of_Z 4; viewMode := double |}
     = {| currentPage := of_Z 6; viewMode := double |}
  /\ goToPrevPage {| currentPage := of_Z 4; viewMode := double |}
     = {| currentPage := of_Z 2; viewMode := double |}.
Proof.
  split; [lia|].
  destruct navigation_clamping as (_ & _ & H).
  destruct (H double 7%nat 4%Z ltac:(lia)) as (Hn & Hp & _).
  split; [exact Hn | exact Hp].
Defined.

(** ** The session invariant *)

Lemma num_leb_Fin (p q : Q) : num_leb (Fin p) (Fin q) = true <-> (p <= q)%Q.
Proof. apply Qle_bool_iff. Qed.

Lemma num_leb_Fin_false (p q : Q) : num_leb (Fin p) (Fin q) = false <-> (q < p)%Q.
Proof.
  simpl. split; intros H.
  - apply Qnot_le_lt. intros Hle. apply Qle_bool_iff in Hle. congruence.
  - destruct (Qle_bool p q) eqn:E; [|reflexivity].
    apply Qle_bool_iff in E. exfalso. eapply Qlt_not_le; eassumption.
Qed.

(** Case analysis on the rational comparisons of a goal, and their
    translation into propositions for [lra]. *)
Ltac Qle_cases :=
  repeat match goal with
         | |- context [Qle_bool ?a ?b] => destruct (Qle_bool a b) eqn:?
         end.

Ltac Qle_props :=
  repeat match goal with
         | H : Qle_bool _ _ = true |- _ => apply Qle_bool_iff in H
         | H : Qle_bool ?a ?b = false |- _ =>
             apply (proj1 (num_leb_Fin_false a b)) in H
         end.

Lemma inRange_Fin (totalPages : nat) (page : number) :
  inRange totalPages page <->
  exists q, page = Fin q /\ (1 <= q)%Q /\ (q <= inject_Z (Z.of_nat totalPages))%Q.
Proof.
  unfold inRange, of_nat, of_Z. split.
  - intros [H1 H2]. destruct page as [|s|q]; try discriminate.
    + destruct s; discriminate.
    + exists q. split; [reflexivity|]. split; now apply num_leb_Fin.
  - intros (q & -> & H1 & H2). split; now apply num_leb_Fin.
Qed.

(** Whatever number the stored page converts to, unless it is [NaN], the
    clamp of the mount effect lands within the page list. *)
Lemma clamp_inRange (totalPages : nat) (wanted : number) :
  (1 <= totalPages)%nat -> isNaN wanted = false ->
  inRange totalPages (Math_max (of_Z 1) (Math_min wanted (of_nat totalPages))).
Proof.
  intros Htotal Hnan.
  assert (Hone : (1 <= inject_Z (Z.of_nat totalPages))%Q).
  { change 1%Q with (inject_Z 1). rewrite <- Zle_Qle. lia. }
  apply inRange_Fin. unfold of_nat, of_Z.
  destruct wanted as [|[|]|q]; try discriminate; simpl; Qle_cases;
    eexists; (split; [reflexivity|]); Qle_props;
    change (inject_Z 1) with 1%Q in *; split; lra.
Qed.

Lemma goToNextPage_inRange (totalPages : nat) (r : Reader) :
  inRange totalPages (currentPage r) ->
  inRange totalPages (currentPage (goToNextPage totalPages r)).
Proof.
  intros H. apply inRange_Fin in H as (q & Hq & H1 & H2).
  apply inRange_Fin. unfold goToNextPage, getPageIncrement. simpl. rewrite Hq.
  set (step := match viewMode r with double => of_Z 2 | single => of_Z 1 end).
  assert (Hstep : exists z, step = Fin (inject_Z z) /\ (1 <= z)%Z).
  { subst step. destruct (viewMode r); [exists 1%Z | exists 2%Z]; split; (reflexivity || lia). }
  destruct Hstep as (z & -> & Hz). unfold of_nat, of_Z. simpl.
  assert (Hzq : (1 <= inject_Z z)%Q) by (change 1%Q with (inject_Z 1); rewrite <- Zle_Qle; lia).
  destruct (Qle_bool (Qred (q + inject_Z z)) (inject_Z (Z.of_nat totalPages))) eqn:E.
  - exists (Qred (q + inject_Z z)). split; [reflexivity|].
    apply Qle_bool_iff in E. split; [|exact E].
    rewrite Qred_correct. lra.
  - exists (inject_Z (Z.of_nat totalPages)). split; [reflexivity|].
    split; [lra | apply Qle_refl].
Qed.

Lemma goToPrevPage_inRange (totalPages : nat) (r : Reader) :
  inRange totalPages (currentPage r) ->
  inRange totalPages (currentPage (goToPrevPage r)).
Proof.
  intros H. apply inRange_Fin in H as (q & Hq & H1 & H2).
  apply inRange_Fin. unfold goToPrevPage, getPageIncrement. simpl. rewrite Hq.
  set (step := match viewMode r with double => of_Z 2 | single => of_Z 1 end).
  assert (Hstep : exists z, step = Fin (inject_Z z) /\ (1 <= z)%Z).
  { subst step. destruct (viewMode r); [exists 1%Z | exists 2%Z]; split; (reflexivity || lia). }
  destruct Hstep as (z & -> & Hz). unfold num_sub, of_Z. simpl.
  assert (Hzq : (1 <= inject_Z z)%Q) by (change 1%Q with (inject_Z 1); rewrite <- Zle_Qle; lia).
  change (inject_Z 1) with 1%Q.
  destruct (Qle_bool 1 (Qred (q + - inject_Z z))) eqn:E.
  - exists (Qred (q + - inject_Z z)). split; [reflexivity|].
    apply Qle_bool_iff in E. split; [exact E|].
    rewrite Qred_correct. lra.
  - exists 1%Q. split; [reflexivity|]. split; [apply Qle_refl | lra].
Qed.

Lemma toggleViewMode_page (r : Reader) : currentPage (toggleViewMode r) = currentPage r.
Proof. reflexivity. Qed.

(** ** Mount *)

Lemma JSON_parse_empty : JSON_parse [] = None.
Proof. reflexivity. Qed.

Lemma mount_no_record (P : Platform) (key : jsstring) (n : nat) (r : Reader)
    (ls : gmap jsstring jsstring) :
  ls !! key = None ->
  mount P key n r ls = ok ({| currentPage := of_Z 1; viewMode := viewMode r |}, ls).
Proof. intros H. unfold mount, mountEffect. now rewrite H. Qed.

Lemma mount_empty_record (P : Platform) (key : jsstring) (n : nat) (r : Reader)
    (ls : gmap jsstring jsstring) :
  ls !! key = Some [] ->
  mount P key n r ls = ok ({| currentPage := of_Z 1; viewMode := viewMode r |}, ls).
Proof. intros H. unfold mount, mountEffect. now rewrite H. Qed.

Lemma mount_record (P : Platform) (key : jsstring) (n : nat) (r : Reader)
    (ls : gmap jsstring jsstring) (text : jsstring) :
  ls !! key = Some text -> text <> [] ->
  mount P key n r ls =
    match savedPage P text n with
    | ok page => ok ({| currentPage := page; viewMode := viewMode r |}, ls)
    | throw _ => ok ({| currentPage := of_Z 1; viewMode := viewMode r |}, delete key ls)
    end.
Proof.
  intros H Hne. unfold mount, mountEffect. rewrite H.
  destruct text as [|c text]; [congruence|].
  now destruct (savedPage P (c :: text) n).
Qed.

Lemma savedPage_number (P : Platform) (text : jsstring) (fields : list (jsstring * jsval))
    (n : nat) (page : number) :
  JSON_parse text = Some (JObj fields) ->
  lookupField fields (str "page") = Some (JNum page) ->
  num_truthy page = true ->
  savedPage P text n
  = ok (Math_max (of_Z 1) (Math_min page (if (n =? 0)%nat then of_Z 1 else of_nat n))).
Proof.
  intros Hparse Hpage Htruthy. unfold savedPage. rewrite Hparse. simpl.
  rewrite Hpage. simpl. unfold orElse. simpl. now rewrite Htruthy.
Qed.

Lemma mount_page_5 (P : Platform) (key : jsstring) (r : Reader)
    (ls : gmap jsstring jsstring) (text : jsstring) (fields : list (jsstring * jsval)) :
  ls !! key = Some text ->
  JSON_parse text = Some (JObj fields) ->
  lookupField fields (str "page") = Some (JNum (of_Z 5)) ->
  mount P key 10 r ls = ok ({| currentPage := of_Z 5; viewMode := viewMode r |}, ls)
  /\ mount P key 3 r ls = ok ({| currentPage := of_Z 3; viewMode := viewMode r |}, ls).
Proof.
  intros Hls Hparse Hpage.
  assert (Hne : text <> []) by (intros ->; now rewrite JSON_parse_empty in Hparse).
  split; rewrite (mount_record _ _ _ _ _ _ Hls Hne),
           (savedPage_number _ _ _ _ _ Hparse Hpage eq_refl); reflexivity.
Qed.

(** C4.  A stored record whose [page] is 5 and whose [totalPages] is 10:
    mounting a chapter of 10 pages seeds the current page at 5, mounting a
    chapter of 3 pages clamps it to 3; without a record the session is
    seeded at page 1.  The storage is left as it was.  This holds for the
    gist reader and for the Imgur reader. *)
Theorem progress_resume (P : Platform) (r : Reader) (ls : gmap jsstring jsstring) :
  (forall gistId chapterKey pages10 pages3 text fields,
      length pages10 = 10%nat -> length pages3 = 3%nat ->
      ls !! gistProgressKey gistId chapterKey = Some text ->
      JSON_parse text = Some (JObj fields) ->
      lookupField fields (str "page") = Some (JNum (of_Z 5)) ->
      lookupField fields (str "totalPages") = Some (JNum (of_Z 10)) ->
      GistReaderClient_mount P gistId chapterKey pages10 r ls
        = ok ({| currentPage := of_Z 5; viewMode := viewMode r |}, ls)
      /\ GistReaderClient_mount P gistId chapterKey pages3 r ls
        = ok ({| currentPage := of_Z 3; viewMode := viewMode r |}, ls))
  /\ (forall albumId pages10 pages3 text fields,
      length pages10 = 10%nat -> length pages3 = 3%nat ->
      ls !! imgurProgressKey albumId = Some text ->
      JSON_parse text = Some (JObj fields) ->
      lookupField fields (str "page") = Some (JNum (of_Z 5)) ->
      lookupField fields (str "totalPages") = Some (JNum (of_Z 10)) ->
      ImgurReaderClient_mount P albumId pages10 r ls
        = ok ({| currentPage := of_Z 5; viewMode := viewMode r |}, ls)
      /\ ImgurReaderClient_mount P albumId pages3 r ls
        = ok ({| currentPage := of_Z 3; viewMode := viewMode r |}, ls))
  /\ (forall gistId chapterKey pages,
      ls !! gistProgressKey gistId chapterKey = None ->
      GistReaderClient_mount P gistId chapterKey pages r ls
        = ok ({| currentPage := of_Z 1; viewMode := viewMode r |}, ls))
  /\ (forall albumId pages,
      ls !! imgurProgressKey albumId = None ->
      ImgurReaderClient_mount P albumId pages r ls
        = ok ({| currentPage := of_Z 1; viewMode := viewMode r |}, ls)).
Proof.
  repeat split.
  - unfold GistReaderClient_mount. rewrite H. eapply mount_page_5; eassumption.
  - unfold GistReaderClient_mount. rewrite H0. eapply mount_page_5; eassumption.
  - unfold ImgurReaderClient_mount. rewrite H. eapply mount_page_5; eassumption.
  - unfold ImgurReaderClient_mount. rewrite H0. eapply mount_page_5; eassumption.
  - intros. now apply mount_no_record.
  - intros. now apply mount_no_record.
Qed.

(** The record the save effect writes on page 5 of a ten-page chapter. *)
Definition exampleRecord : jsstring :=
  json "{'page':5,'totalPages':10,'lastRead':'2025-05-01T12:00:00.000Z'}".

Definition examplePages (n : nat) : list jsval :=
  map (fun i => JStr (str "https://i.imgur.com/p" ++ Z_toString (Z.of_nat i) ++ str ".png"))
      (seq 1 n).

Lemma progress_resume_witness :
  let ls : gmap jsstring jsstring :=
    {[ gistProgressKey (str "abc") (str "1") := exampleRecord ]} in
  GistReaderClient_mount examplePlatform (str "abc") (str "1") (examplePages 10) initialReader ls
    = ok ({| currentPage := of_Z 5; viewMode := single |}, ls)
  /\ GistReaderClient_mount examplePlatform (str "abc") (str "1") (examplePages 3) initialReader ls
    = ok ({| currentPage := of_Z 3; viewMode := single |}, ls).
Proof.
  intros ls.
  destruct (progress_resume examplePlatform initialReader ls) as (H & _).
  apply (H (str "abc") (str "1") (examplePages 10) (examplePages 3) exampleRecord
           [(str "page", JNum (of_Z 5)); (str "totalPages", JNum (of_Z 10));
            (str "lastRead", JStr (str "2025-05-01T12:00:00.000Z"))]);
    vm_compute; reflexivity.
Defined.

(** C10, as stated, fails: an empty stored string is a record that exists
    and is not JSON, and the mount leaves it in the storage. *)
Lemma mount_keeps_empty_record :
  let key := gistProgressKey (str "abc") (str "1") in
  let ls : gmap jsstring jsstring := {[ key := [] ]} in
  ls !! key = Some [] /\ JSON_parse [] = None
  /\ exists r ls',
       GistReaderClient_mount examplePlatform (str "abc") (str "1") (examplePages 10)
         initialReader ls = ok (r, ls')
       /\ ls' !! key = Some [] /\ ls' <> delete key ls.
Proof.
  intros key ls. split; [reflexivity|]. split; [reflexivity|].
  exists initialReader, ls. split; [reflexivity|]. split; [reflexivity|].
  intros Heq. assert (H : ls !! key = delete key ls !! key) by now rewrite <- Heq.
  rewrite lookup_delete_eq in H. discriminate H.
Qed.

(** C10, amended.  If the stored record for the mounted identity exists, is
    not the empty string and cannot be parsed as JSON, the mount removes it
    from the storage and seeds the session at page 1; an empty stored string
    is left in place, with the session at page 1 as well.  In no case does
    the mount throw. *)
Theorem mount_corrupt_record (P : Platform) (r : Reader) (ls : gmap jsstring jsstring) :
  (forall key n text,
      ls !! key = Some text -> text <> [] -> JSON_parse text = None ->
      mount P key n r ls
        = ok ({| currentPage := of_Z 1; viewMode := viewMode r |}, delete key ls))
  /\ (forall key n,
      ls !! key = Some [] ->
      mount P key n r ls = ok ({| currentPage := of_Z 1; viewMode := viewMode r |}, ls))
  /\ (forall key n, exists out, mount P key n r ls = ok out)
  /\ (forall gistId chapterKey pages,
      GistReaderClient_mount P gistId chapterKey pages r ls
        = mount P (gistProgressKey gistId chapterKey) (length pages) r ls)
  /\ (forall albumId pages,
      ImgurReaderClient_mount P albumId pages r ls
        = mount P (imgurProgressKey albumId) (length pages) r ls).
Proof.
  split; [|split; [|split; [|split]]].
  - intros key n text Hls Hne Hparse.
    rewrite (mount_record _ _ _ _ _ _ Hls Hne). unfold savedPage. now rewrite Hparse.
  - intros key n H. now apply mount_empty_record.
  - intros key n. destruct (ls !! key) as [text|] eqn:Hls.
    + destruct text as [|c text].
      * eexists. now apply mount_empty_record.
      * rewrite (mount_record _ _ _ _ _ _ Hls ltac:(discriminate)).
        destruct (savedPage P (c :: text) n); eexists; reflexivity.
    + eexists. now apply mount_no_record.
  - reflexivity.
  - reflexivity.
Qed.

Lemma mount_corrupt_record_witness :
  let key := imgurProgressKey (str "abc") in
  let ls : gmap jsstring jsstring := {[ key := json "{'page':5" ]} in
  mount examplePlatform key 10 initialReader ls
    = ok ({| currentPage := of_Z 1; viewMode := single |}, delete key ls).
Proof.
  intros key ls.
  destruct (mount_corrupt_record examplePlatform initialReader ls) as (H & _).
  apply (H key 10%nat (json "{'page':5")).
  - vm_compute; reflexivity.
  - discriminate.
  - vm_compute; reflexivity.
Defined.

(** C9: the code at the failing input.  A stored record whose [page] is a
    string that is not a number makes the mount set the current page to
    [NaN], which is not within [1, 10]. *)
Lemma mount_non_numeric_page :
  let key := gistProgressKey (str "abc") (str "1") in
  let ls : gmap jsstring jsstring := {[ key := json "{'page':'five'}" ]} in
  GistReaderClient_mount examplePlatform (str "abc") (str "1") (examplePages 10)
    initialReader ls = ok ({| currentPage := NaN; viewMode := single |}, ls)
  /\ ~ inRange 10 NaN.
Proof.
  intros key ls. split; [vm_compute; reflexivity|].
  unfold inRange. simpl. intros [H _]. discriminate H.
Qed.

(** Outside that case the invariant holds: when the stored page converts to
    a number other than [NaN] (or there is no usable record), the mount and
    every advance or retreat keep the current page within
    [1, totalPages]. *)
Lemma mount_inRange (P : Platform) (key : jsstring) (n : nat) (r r' : Reader)
    (ls ls' : gmap jsstring jsstring) :
  (1 <= n)%nat ->
  mount P key n r ls = ok (r', ls') ->
  (forall text progress page wanted,
      ls !! key = Some text -> JSON_parse text = Some progress ->
      Get progress (str "page") = ok page ->
      ToNumber P (orElse page (JNum (of_Z 1))) = ok wanted -> isNaN wanted = false) ->
  inRange n (currentPage r').
Proof.
  intros Hn Hmount Hnum.
  assert (Hone : inRange n (of_Z 1)).
  { unfold inRange, of_nat. rewrite !num_leb_of_Z. split; apply Z.leb_le; lia. }
  destruct (ls !! key) as [text|] eqn:Hls.
  - destruct text as [|c text].
    + rewrite (mount_empty_record _ _ _ _ _ Hls) in Hmount. now inversion Hmount; subst.
    + rewrite (mount_record _ _ _ _ _ _ Hls ltac:(discriminate)) in Hmount.
      destruct (savedPage P (c :: text) n) as [page|e] eqn:Hsaved.
      * inversion Hmount; subst; simpl. unfold savedPage in Hsaved.
        destruct (JSON_parse (c :: text)) as [progress|] eqn:Hparse; [|discriminate].
        destruct (Get progress (str "page")) as [pg|] eqn:Hget; [|discriminate].
        simpl in Hsaved.
        destruct (ToNumber P (orElse pg (JNum (of_Z 1)))) as [wanted|] eqn:Hto; [|discriminate].
        simpl in Hsaved. inversion Hsaved; subst.
        destruct n as [|n]; [lia|]. simpl Nat.eqb. cbv iota.
        apply clamp_inRange; [lia|]. eapply Hnum; eauto.
      * now inversion Hmount; subst.
  - rewrite (mount_no_record _ _ _ _ _ Hls) in Hmount. now inversion Hmount; subst.
Qed.

(** ** The page counter *)

(** C5, as stated, fails for an empty page list: the session is then on page
    1 in single view, and the label is not "1 / 0" but "0 / 0". *)
Lemma page_label_of_empty_chapter :
  viewMode initialReader = single
  /\ getPageDisplay examplePlatform 0 initialReader = str "0 / 0"
  /\ getPageDisplay examplePlatform 0 initialReader
     <> Number_toString examplePlatform (currentPage initialReader) ++ str " / "
        ++ Number_toString examplePlatform (of_nat 0).
Proof. split; [reflexivity|]. split; [reflexivity|]. vm_compute. discriminate. Qed.

(** C5, amended.  For a page list that is not empty and a current page [c]
    within it, the label is "c / total" in single view and in double view on
    the last page, and "c-(c+1) / total" in double view before the last
    page; with seven pages in double view, page 6 gives "6-7 / 7" and page 7
    gives "7 / 7".  For an empty page list the label is "0 / 0". *)
Theorem page_counter_label (P : Platform) :
  (forall (totalPages : nat) (c : Z) (mode : ViewMode),
      (1 <= c <= Z.of_nat totalPages)%Z ->
      let show z := Number_toString P (of_Z z) in
      getPageDisplay P totalPages {| currentPage := of_Z c; viewMode := mode |}
      = match mode with
        | single => show c ++ str " / " ++ show (Z.of_nat totalPages)
        | double =>
            if (c =? Z.of_nat totalPages)%Z
            then show c ++ str " / " ++ show (Z.of_nat totalPages)
            else show c ++ str "-" ++ show (c + 1)%Z ++ str " / " ++ show (Z.of_nat totalPages)
        end)
  /\ getPageDisplay P 7 {| currentPage := of_Z 6; viewMode := double |} = str "6-7 / 7"
  /\ getPageDisplay P 7 {| currentPage := of_Z 7; viewMode := double |} = str "7 / 7"
  /\ (forall r, getPageDisplay P 0 r = str "0 / 0").
Proof.
  split; [|split; [|split]]; try reflexivity.
  intros totalPages c mode Hc show. subst show. unfold getPageDisplay.
  destruct totalPages as [|n]; [lia|]. cbn [Nat.eqb viewMode currentPage].
  unfold of_nat. rewrite num_leb_of_Z, num_add_of_Z.
  destruct mode; [reflexivity|]. cbn [orb].
  destruct (Z.eqb_spec c (Z.of_nat (S n))) as [->|Hne].
  - now rewrite Z.leb_refl.
  - destruct (Z.leb_spec (Z.of_nat (S n)) c); [lia | reflexivity].
Qed.

Lemma page_counter_label_witness :
  (1 <= 3 <= Z.of_nat 5)%Z
  /\ getPageDisplay examplePlatform 5 {| currentPage := of_Z 3; viewMode := double |}
     = str "3-4 / 5".
Proof.
  split; [lia|].
  destruct (page_counter_label examplePlatform) as (H & _).
  rewrite (H 5%nat 3%Z double ltac:(lia)). reflexivity.
Defined.

(** ** Chapter keys *)


Lemma insertSorted_Permutation {A} (cmp : A -> A -> number) (x : A) (sorted : list A) :
  Permutation (x :: sorted) (insertSorted cmp x sorted).
Proof.
  induction sorted as [|y sorted IH]; simpl; [reflexivity|].
  destruct (comesAfter (cmp y x)); [reflexivity|].
  rewrite perm_swap. now apply perm_skip.
Qed.

Lemma Array_sort_Permutation {A} (cmp : A -> A -> number) (items : list A) :
  Permutation items (Array_sort cmp items).
Proof.
  unfold Array_sort.
  assert (H : forall sorted, Permutation (sorted ++ items)
                (fold_left (fun sorted x => insertSorted cmp x sorted) items sorted)).
  { induction items as [|x items IH]; intros sorted; simpl.
    - now rewrite app_nil_r.
    - rewrite <- IH, <- insertSorted_Permutation.
      symmetry. apply Permutation_middle. }
  apply (H []).
Qed.

Lemma spanDigits_app (ds rest : jsstring) :
  forallb isDigit ds = true ->
  match rest with c :: _ => isDigit c = false | [] => True end ->
  spanDigits (ds ++ rest) = (ds, rest).
Proof.
  intros Hds Hrest. induction ds as [|d ds IH].
  - destruct rest as [|c rest]; [reflexivity|]. simpl. now rewrite Hrest.
  - simpl in Hds. apply andb_prop in Hds as [Hd Hds]. simpl. rewrite Hd, (IH Hds).
    reflexivity.
Qed.

(** *** What [parseFloat] reads *)






(** The nearest double: below and above a tie, ties to the even
    significand, the largest double and the first literal that is infinite,
    the smallest double and the literals that vanish. *)
Lemma parseFloat_nearest_double :
  parseFloat (str "0.1") = Fin (3602879701896397 # 36028797018963968)
  /\ parseFloat (str "9007199254740993") = of_Z 9007199254740992
  /\ parseFloat (str "9007199254740995") = of_Z 9007199254740996
  /\ parseFloat (str "1.00000000000000001") = of_Z 1
  /\ parseFloat (str "1.7976931348623157e308") = of_Z (2 ^ 1024 - 2 ^ 971)
  /\ parseFloat (str "1.7976931348623159e308") = Infinity false
  /\ parseFloat (str "-1e400") = Infinity true
  /\ parseFloat (str "5e-324") = Fin (Qpower 2 (-1074))
  /\ parseFloat (str "3e-324") = Fin (Qpower 2 (-1074))
  /\ parseFloat (str "2e-324") = of_Z 0.
Proof. repeat split; vm_compute; reflexivity. Qed.

(** *** The order of two keys, and of many *)


Lemma num_leb_total (a b : number) :
  isNaN a = false -> isNaN b = false -> num_leb a b = false -> num_leb b a = true.
Proof.
  destruct a as [|[|]|p], b as [|[|]|q]; try discriminate; try reflexivity; intros _ _ H.
  apply num_leb_Fin_false in H. apply num_leb_Fin. now apply Qlt_le_weak.
Qed.

Lemma num_leb_trans (a b c : number) :
  num_leb a b = true -> num_leb b c = true -> num_leb a c = true.
Proof.
  destruct a as [|[|]|p], b as [|[|]|q], c as [|[|]|s]; try discriminate; try reflexivity.
  rewrite !num_leb_Fin. apply Qle_trans.
Qed.

(** The sign of a difference is the order of its terms. *)
Lemma comesAfter_difference (a b : number) :
  isNaN a = false -> isNaN b = false ->
  comesAfter (num_sub a b) = negb (num_leb a b).
Proof.
  unfold comesAfter.
  destruct a as [|[|]|p], b as [|[|]|q]; try discriminate; try reflexivity; intros _ _.
  unfold num_sub, num_neg, num_add, num_ltb, of_Z. f_equal.
  destruct (num_leb (Fin p) (Fin q)) eqn:E.
  - apply num_leb_Fin in E. apply num_leb_Fin. rewrite Qred_correct.
    change (inject_Z 0) with 0%Q. lra.
  - apply num_leb_Fin_false. apply num_leb_Fin_false in E. rewrite Qred_correct.
    change (inject_Z 0) with 0%Q. lra.
Qed.



Definition numericKey (k : jsstring) : Prop := isNaN (parseFloat k) = false.

Lemma chapterKeyCompare_numeric (P : Platform) (a b : jsstring) :
  numericKey a -> numericKey b ->
  comesAfter (chapterKeyCompare P a b) = negb (num_leb (parseFloat a) (parseFloat b)).
Proof.
  unfold numericKey, chapterKeyCompare. intros Ha Hb. rewrite Ha, Hb. cbn [negb andb].
  now apply comesAfter_difference.
Qed.










(** ** Source resolution *)

Lemma startsWith_app (prefix rest : jsstring) : startsWith (prefix ++ rest) prefix = true.
Proof.
  induction prefix as [|c prefix IH]; [now destruct rest|].
  simpl. now rewrite N.eqb_refl.
Qed.

Lemma spanAlnum_app (run rest : jsstring) :
  forallb isAlnum run = true ->
  match rest with [] => True | c :: _ => isAlnum c = false end ->
  spanAlnum (run ++ rest) = (run, rest).
Proof.
  intros Hrun Hrest. induction run as [|c run IH]; simpl.
  - destruct rest as [|c rest]; [reflexivity|]. simpl. now rewrite Hrest.
  - simpl in Hrun. apply andb_prop in Hrun as [Hc Hrun]. now rewrite Hc, IH.
Qed.

Lemma imgurMatch_here (s albumId : jsstring) :
  imgurMatchHere s = Some albumId -> imgurMatch s = Some albumId.
Proof.
  intros H. destruct s; [vm_compute in H; discriminate|].
  cbn [imgurMatch]. now rewrite H.
Qed.

Lemma imgurMatch_path (albumId rest : jsstring) :
  albumId <> [] -> forallb isAlnum albumId = true ->
  match rest with [] => True | c :: _ => isAlnum c = false end ->
  imgurMatch (imgurPathPrefix ++ albumId ++ rest) = Some albumId.
Proof.
  intros Hne Halnum Hrest. apply imgurMatch_here.
  unfold imgurMatchHere. rewrite startsWith_app.
  rewrite drop_app_length, (spanAlnum_app _ _ Halnum Hrest).
  destruct albumId; [congruence | reflexivity].
Qed.

Lemma startsWith_inv (s prefix : jsstring) :
  startsWith s prefix = true -> s = prefix ++ drop (length prefix) s.
Proof.
  revert s. induction prefix as [|p prefix IH]; intros s H.
  - now destruct s.
  - destruct s as [|c s]; [discriminate H|]. simpl in H.
    apply andb_prop in H as [Hc H]. apply N.eqb_eq in Hc. subst c.
    simpl. f_equal. now apply IH.
Qed.

Lemma spanAlnum_inv (s run rest : jsstring) :
  spanAlnum s = (run, rest) -> s = run ++ rest /\ forallb isAlnum run = true.
Proof.
  revert run rest. induction s as [|c s IH]; intros run rest; simpl.
  - intros [= <- <-]. now split.
  - destruct (isAlnum c) eqn:Hc.
    + destruct (spanAlnum s) as [run' rest'] eqn:E. intros [= <- <-].
      destruct (IH run' rest' eq_refl) as [-> Hrun]. simpl. now rewrite Hc, Hrun.
    + intros [= <- <-]. now split.
Qed.

Lemma imgurMatch_inv (s albumId : jsstring) :
  imgurMatch s = Some albumId ->
  exists before after,
    s = before ++ imgurPathPrefix ++ albumId ++ after
    /\ albumId <> [] /\ forallb isAlnum albumId = true.
Proof.
  induction s as [|c s IH].
  - intros H. vm_compute in H. discriminate H.
  - cbn [imgurMatch]. destruct (imgurMatchHere (c :: s)) as [found|] eqn:Hhere.
    + intros [= ->]. unfold imgurMatchHere in Hhere.
      destruct (startsWith (c :: s) imgurPathPrefix) eqn:Hprefix; [|discriminate Hhere].
      apply startsWith_inv in Hprefix.
      destruct (spanAlnum (drop (length imgurPathPrefix) (c :: s))) as [run rest] eqn:Hrun.
      apply spanAlnum_inv in Hrun as [Hrest Halnum].
      destruct run as [|d run]; [discriminate Hhere|]. injection Hhere as <-.
      exists [], rest. split; [|split; [discriminate | exact Halnum]].
      rewrite Hprefix at 1. now rewrite Hrest.
    + intros H. destruct (IH H) as (before & after & -> & Hne & Halnum).
      exists (c :: before), after. now split.
Qed.

(** A server process with the Imgur credential configured, empty caches and
    the given outside world. *)
Definition exampleWorld (net : list Request -> Request -> option Response) : World :=
  {| albumCache := ∅; gistCache := ∅; timers := []; clock := 0;
     IMGUR_CLIENT_ID := Some (str "0123456789abcde"); network := net; requests := [] |}.

(** An album that holds one video and one picture, and one that holds the
    video only. *)
Definition albumResponse : Response :=
  {| status := 200; statusText := str "OK";
     body := json "{'data':[{'id':'v1','type':'video/mp4','link':'https://i.imgur.com/v1.mp4'},{'id':'p1','type':'image/png','link':'https://i.imgur.com/p1.png'}],'success':true,'status':200}" |}.

Definition videoAlbumResponse : Response :=
  {| status := 200; statusText := str "OK";
     body := json "{'data':[{'id':'v1','type':'video/mp4','link':'https://i.imgur.com/v1.mp4'}],'success':true,'status':200}" |}.

(** C3, as stated, fails: the descriptor [/album/chapter/abc123/] matches no
    pattern of the resolver; it is rejected as unsupported and the album
    fetcher is not called. *)
Lemma album_descriptor_unsupported :
  let w := exampleWorld (fun _ _ => Some albumResponse) in
  resolveSourcePages (str "/album/chapter/abc123/") w
  = (throw (UnsupportedSourceError (str "/album/chapter/abc123/")), w)
  /\ fst (fetchImgurAlbumPages (str "abc123") w)
     = ok [JStr (str "https://i.imgur.com/p1.png")].
Proof. split; vm_compute; reflexivity. Qed.

(** C3, amended.  A descriptor [/proxy/api/imgur/chapter/{albumId}] followed
    by a slash, by nothing, or by anything that does not continue the id,
    with [albumId] a non-empty run of letters and digits (for example
    [/proxy/api/imgur/chapter/abc123/]), resolves through the album fetcher
    called with the extracted id: what the fetcher returns is returned, and
    a failure of the fetcher is reported as a failure to load that album.
    A descriptor that the pattern matches nowhere fails with the
    unsupported-source error, whose message ends with the whole descriptor,
    and nothing is fetched.  No other descriptor reaches the fetcher: an id
    handed to it is such a run, found in the descriptor behind that prefix. *)
Theorem source_resolution :
  (forall albumId rest w,
      albumId <> [] -> forallb isAlnum albumId = true ->
      match rest with [] => True | c :: _ => isAlnum c = false end ->
      resolveSourcePages (str "/proxy/api/imgur/chapter/" ++ albumId ++ rest) w
      = match fetchImgurAlbumPages albumId w with
        | (ok pages, w') => (ok pages, w')
        | (throw _, w') => (throw (AlbumLoadError albumId), w')
        end)
  /\ (forall w,
      resolveSourcePages (str "/proxy/api/imgur/chapter/abc123/") w
      = match fetchImgurAlbumPages (str "abc123") w with
        | (ok pages, w') => (ok pages, w')
        | (throw _, w') => (throw (AlbumLoadError (str "abc123")), w')
        end)
  /\ (forall sourcePath w,
      imgurMatch sourcePath = None ->
      resolveSourcePages sourcePath w
      = (throw (Error (str "Unsupported source path format: " ++ sourcePath)), w))
  /\ (forall sourcePath albumId w,
      imgurMatch sourcePath = Some albumId ->
      (exists before after,
          sourcePath = before ++ str "/proxy/api/imgur/chapter/" ++ albumId ++ after
          /\ albumId <> [] /\ forallb isAlnum albumId = true)
      /\ resolveSourcePages sourcePath w
         = match fetchImgurAlbumPages albumId w with
           | (ok pages, w') => (ok pages, w')
           | (throw _, w') => (throw (AlbumLoadError albumId), w')
           end).
Proof.
  assert (Hgen : forall albumId rest w,
      albumId <> [] -> forallb isAlnum albumId = true ->
      match rest with [] => True | c :: _ => isAlnum c = false end ->
      resolveSourcePages (imgurPathPrefix ++ albumId ++ rest) w
      = match fetchImgurAlbumPages albumId w with
        | (ok pages, w') => (ok pages, w')
        | (throw _, w') => (throw (AlbumLoadError albumId), w')
        end).
  { intros albumId rest w Hne Halnum Hrest. unfold resolveSourcePages.
    rewrite (imgurMatch_path _ _ Hne Halnum Hrest). unfold catch, raise.
    now destruct (fetchImgurAlbumPages albumId w) as [[pages|e] w']. }
  split; [exact Hgen|]. split; [|split].
  - intros w. apply (Hgen (str "abc123") (str "/") w); [discriminate | reflexivity..].
  - intros sourcePath w Hnone. unfold resolveSourcePages. now rewrite Hnone.
  - intros sourcePath albumId w Hsome. split; [now apply imgurMatch_inv|].
    unfold resolveSourcePages. rewrite Hsome. unfold catch, raise.
    now destruct (fetchImgurAlbumPages albumId w) as [[pages|e] w'].
Qed.

Lemma source_resolution_witness :
  let w := exampleWorld (fun _ _ => Some albumResponse) in
  fst (resolveSourcePages (str "/proxy/api/imgur/chapter/" ++ str "abc123" ++ str "/") w)
    = ok [JStr (str "https://i.imgur.com/p1.png")]
  /\ imgurMatch (str "/read/direct/abc123/") = None
  /\ resolveSourcePages (str "/read/direct/abc123/") w
     = (throw (Error (str "Unsupported source path format: /read/direct/abc123/")), w).
Proof.
  intros w. destruct source_resolution as (Hpath & _ & Hnone & _).
  split; [|split].
  - rewrite (Hpath (str "abc123") (str "/") w); [vm_compute; reflexivity | discriminate | reflexivity..].
  - reflexivity.
  - apply (Hnone (str "/read/direct/abc123/") w). reflexivity.
Defined.

(** ** The fetchers *)

(** Computations that leave the world as it is. *)
Definition noEffect {A} (m : Async A) : Prop := forall w, snd (m w) = w.

Lemma noEffect_ret {A} (a : A) : noEffect (ret a).
Proof. now intros w. Qed.

Lemma noEffect_raise {A} (e : error) : noEffect (@raise A e).
Proof. now intros w. Qed.

Lemma noEffect_lift {A} (r : result A) : noEffect (lift r).
Proof. now intros w. Qed.

Lemma noEffect_andThen {A B} (m : Async A) (k : A -> Async B) :
  noEffect m -> (forall a, noEffect (k a)) -> noEffect (andThen m k).
Proof.
  intros Hm Hk w. unfold andThen. specialize (Hm w).
  destruct (m w) as [[a|e] w1]; simpl in *; subst; [apply Hk | reflexivity].
Qed.

Ltac no_effect :=
  repeat first
    [ apply noEffect_ret | apply noEffect_raise | apply noEffect_lift
    | apply noEffect_andThen; [|intros ?]
    | match goal with
      | |- noEffect (if ?b then _ else _) => destruct b
      | |- noEffect (match ?x with _ => _ end) => destruct x
      end ].

Lemma andThen_fetch {A} (req : Request) (k : Response -> Async A) (w : World) :
  (forall response, noEffect (k response)) ->
  snd (andThen (fetch req) k w) = with_requests (requests w ++ [req]) w.
Proof.
  intros Hk. unfold andThen, fetch.
  destruct (network w (requests w) req) as [response|]; [apply Hk | reflexivity].
Qed.

Lemma requestAlbumPages_world (albumId clientId : jsstring) (w : World) :
  snd (requestAlbumPages albumId clientId w)
  = with_requests (requests w ++ [imgurRequest albumId clientId]) w.
Proof. unfold requestAlbumPages. apply andThen_fetch. intros response. no_effect. Qed.

Lemma requestAlbumPages_nonempty (albumId clientId : jsstring) (w : World) (pages : list jsval) :
  fst (requestAlbumPages albumId clientId w) = ok pages -> pages <> [].
Proof.
  unfold requestAlbumPages, andThen, fetch, lift, raise, ret.
  repeat match goal with
         | |- context [match ?x with _ => _ end] => destruct x eqn:?; simpl
         end; try discriminate.
  intros [= <-]. intros ->. discriminate.
Qed.

(** What a call does when the cache has no entry and the credential is set. *)
Lemma fetchImgurAlbumPages_miss (albumId clientId : jsstring) (w : World) :
  albumCache w !! (str "imgur-" ++ albumId) = None ->
  IMGUR_CLIENT_ID w = Some clientId -> clientId <> [] ->
  let key := str "imgur-" ++ albumId in
  let called := with_requests (requests w ++ [imgurRequest albumId clientId]) w in
  fetchImgurAlbumPages albumId w
  = match fst (requestAlbumPages albumId clientId w) with
    | throw e => (throw e, called)
    | ok pages =>
        (ok pages,
         with_timers (timers w ++ [((clock w + oneHour)%Z, DeleteAlbum key)])
           (with_albumCache (<[key := pages]> (albumCache w)) called))
    end.
Proof.
  intros Hmiss Hid Hne key called. unfold fetchImgurAlbumPages. rewrite Hmiss, Hid.
  destruct clientId as [|c clientId]; [congruence|].
  pose proof (requestAlbumPages_world albumId (c :: clientId) w) as Hworld.
  pose proof (requestAlbumPages_nonempty albumId (c :: clientId) w) as Hpages.
  unfold andThen, catch, raise.
  destruct (requestAlbumPages albumId (c :: clientId) w) as [[pages|e] w1];
    simpl in Hworld, Hpages; subst w1; [|reflexivity].
  specialize (Hpages pages eq_refl).
  destruct pages as [|p pages]; [congruence|]. reflexivity.
Qed.

Lemma fetchImgurAlbumPages_hit (albumId : jsstring) (w : World) (cached : list jsval) :
  albumCache w !! (str "imgur-" ++ albumId) = Some cached ->
  fetchImgurAlbumPages albumId w = (ok cached, w).
Proof. intros H. unfold fetchImgurAlbumPages. now rewrite H. Qed.

Lemma fetchImgurAlbumPages_no_credential (albumId : jsstring) (w : World) :
  albumCache w !! (str "imgur-" ++ albumId) = None ->
  IMGUR_CLIENT_ID w = None \/ IMGUR_CLIENT_ID w = Some [] ->
  fetchImgurAlbumPages albumId w = (throw AuthError, w).
Proof. intros H [Hid|Hid]; unfold fetchImgurAlbumPages; now rewrite H, Hid. Qed.

Lemma AuthError_not_EmptyResultError (albumId : jsstring) :
  AuthError <> EmptyResultError albumId.
Proof. intros H. vm_compute in H. discriminate H. Qed.

Lemma requestAlbumPages_empty (albumId clientId : jsstring) (w : World)
    (response : Response) (data success : jsval) (items : list jsval) :
  network w (requests w) (imgurRequest albumId clientId) = Some response ->
  response_ok response = true ->
  JSON_parse (body response) = Some data ->
  Get data (str "success") = ok success -> ToBoolean success = true ->
  Get data (str "data") = ok (JArr items) ->
  imagePages items = ok [] ->
  fst (requestAlbumPages albumId clientId w) = throw (EmptyResultError albumId).
Proof.
  intros Hnet Hok Hparse Hsuccess Htrue Hdata Hpages.
  unfold requestAlbumPages, andThen, fetch, lift, raise, response_json.
  rewrite Hnet, Hok. cbn [negb]. rewrite Hparse, Hsuccess, Htrue. cbn [negb].
  now rewrite Hdata, Hpages.
Qed.

(** C6.  For a call that misses the cache with the credential configured:
    when the answer of the API is well-formed and no entry of it passes the
    image filter, the call fails with the empty-result error.  For every
    call: a failure leaves the cache and its timers as they were; a result
    returned after a miss is a non-empty page list and is what the cache
    then holds under [imgur-{id}].  A retry right after an empty-result
    failure (or after any failure with the credential configured) calls the
    network again.  A cache that holds no empty list returns none and holds
    none afterwards. *)
Theorem album_fetch_failures_not_cached (albumId : jsstring) (w : World) :
  let key := str "imgur-" ++ albumId in
  (forall clientId response data success items,
      albumCache w !! key = None ->
      IMGUR_CLIENT_ID w = Some clientId -> clientId <> [] ->
      network w (requests w) (imgurRequest albumId clientId) = Some response ->
      response_ok response = true ->
      JSON_parse (body response) = Some data ->
      Get data (str "success") = ok success -> ToBoolean success = true ->
      Get data (str "data") = ok (JArr items) ->
      imagePages items = ok [] ->
      fetchImgurAlbumPages albumId w
      = (throw (EmptyResultError albumId),
         with_requests (requests w ++ [imgurRequest albumId clientId]) w))
  /\ (forall e w',
      fetchImgurAlbumPages albumId w = (throw e, w') ->
      albumCache w' = albumCache w /\ timers w' = timers w)
  /\ (forall pages w',
      albumCache w !! key = None ->
      fetchImgurAlbumPages albumId w = (ok pages, w') ->
      pages <> [] /\ albumCache w' = <[key := pages]> (albumCache w))
  /\ (forall w',
      fetchImgurAlbumPages albumId w = (throw (EmptyResultError albumId), w') ->
      exists request,
        requests w' = requests w ++ [request]
        /\ requests (snd (fetchImgurAlbumPages albumId w')) = requests w' ++ [request])
  /\ (forall e w' clientId,
      IMGUR_CLIENT_ID w = Some clientId -> clientId <> [] ->
      fetchImgurAlbumPages albumId w = (throw e, w') ->
      requests w' = requests w ++ [imgurRequest albumId clientId]
      /\ requests (snd (fetchImgurAlbumPages albumId w'))
         = requests w' ++ [imgurRequest albumId clientId])
  /\ ((forall k cached, albumCache w !! k = Some cached -> cached <> []) ->
      forall r w',
        fetchImgurAlbumPages albumId w = (r, w') ->
        (forall pages, r = ok pages -> pages <> [])
        /\ (forall k cached, albumCache w' !! k = Some cached -> cached <> [])).
Proof.
  intros key.
  assert (Hthrow : forall e w',
      fetchImgurAlbumPages albumId w = (throw e, w') ->
      albumCache w !! key = None
      /\ (w' = w \/ exists clientId,
            IMGUR_CLIENT_ID w = Some clientId /\ clientId <> []
            /\ w' = with_requests (requests w ++ [imgurRequest albumId clientId]) w)).
  { intros e w' H. destruct (albumCache w !! key) as [cached|] eqn:Hc.
    - rewrite (fetchImgurAlbumPages_hit _ _ _ Hc) in H. discriminate H.
    - split; [reflexivity|].
      destruct (IMGUR_CLIENT_ID w) as [[|c clientId]|] eqn:Hid.
      + rewrite (fetchImgurAlbumPages_no_credential _ _ Hc) in H by auto.
        left. congruence.
      + rewrite (fetchImgurAlbumPages_miss _ _ _ Hc Hid) in H by discriminate.
        right. exists (c :: clientId). split; [reflexivity|]. split; [discriminate|].
        destruct (fst (requestAlbumPages albumId (c :: clientId) w)); congruence.
      + rewrite (fetchImgurAlbumPages_no_credential _ _ Hc) in H by auto.
        left. congruence. }
  assert (Hretry : forall e w' clientId,
      IMGUR_CLIENT_ID w = Some clientId -> clientId <> [] ->
      fetchImgurAlbumPages albumId w = (throw e, w') ->
      requests w' = requests w ++ [imgurRequest albumId clientId]
      /\ requests (snd (fetchImgurAlbumPages albumId w'))
         = requests w' ++ [imgurRequest albumId clientId]).
  { intros e w' clientId Hid Hne H.
    destruct (albumCache w !! key) as [cached|] eqn:Hc.
    { rewrite (fetchImgurAlbumPages_hit _ _ _ Hc) in H. discriminate H. }
    rewrite (fetchImgurAlbumPages_miss _ _ _ Hc Hid Hne) in H.
    destruct (fst (requestAlbumPages albumId clientId w)) as [pages|e'] eqn:Hreq;
      [discriminate H|].
    injection H as _ <-. split; [reflexivity|].
    rewrite (fetchImgurAlbumPages_miss albumId clientId) by assumption.
    match goal with
    | |- context [fst (requestAlbumPages albumId clientId ?w1)] =>
        destruct (fst (requestAlbumPages albumId clientId w1)); reflexivity
    end. }
  split; [|split; [|split; [|split; [|split]]]].
  - intros clientId response data success items Hc Hid Hne Hnet Hok Hparse Hs Ht Hd Hp.
    rewrite (fetchImgurAlbumPages_miss _ _ _ Hc Hid Hne).
    now rewrite (requestAlbumPages_empty _ _ _ _ _ _ _ Hnet Hok Hparse Hs Ht Hd Hp).
  - intros e w' H. destruct (Hthrow e w' H) as (_ & [->|(clientId & _ & _ & ->)]); auto.
  - intros pages w' Hc H.
    destruct (IMGUR_CLIENT_ID w) as [[|c clientId]|] eqn:Hid.
    + rewrite (fetchImgurAlbumPages_no_credential _ _ Hc) in H by auto. discriminate H.
    + rewrite (fetchImgurAlbumPages_miss _ _ _ Hc Hid) in H by discriminate.
      destruct (fst (requestAlbumPages albumId (c :: clientId) w)) as [pages'|e] eqn:Hreq;
        [|discriminate H].
      injection H as <- <-. split; [|reflexivity].
      eapply requestAlbumPages_nonempty; eassumption.
    + rewrite (fetchImgurAlbumPages_no_credential _ _ Hc) in H by auto. discriminate H.
  - intros w' H. destruct (Hthrow _ w' H) as (Hc & [->|(clientId & Hid & Hne & ->)]).
    + exfalso. destruct (IMGUR_CLIENT_ID w) as [[|c clientId]|] eqn:Hid.
      * rewrite (fetchImgurAlbumPages_no_credential _ _ Hc) in H by auto.
        apply (AuthError_not_EmptyResultError albumId). congruence.
      * rewrite (fetchImgurAlbumPages_miss _ _ _ Hc Hid) in H by discriminate.
        destruct (fst (requestAlbumPages albumId (c :: clientId) w)); [discriminate H|].
        injection H as _ H. apply (f_equal (fun x => length (requests x))) in H.
        simpl in H. rewrite length_app in H. simpl in H. lia.
      * rewrite (fetchImgurAlbumPages_no_credential _ _ Hc) in H by auto.
        apply (AuthError_not_EmptyResultError albumId). congruence.
    + exists (imgurRequest albumId clientId).
      destruct (Hretry _ _ clientId Hid Hne H) as [H1 H2]. now split.
  - exact Hretry.
  - intros Hinv r w' H. destruct (albumCache w !! key) as [cached|] eqn:Hc.
    + rewrite (fetchImgurAlbumPages_hit _ _ _ Hc) in H. injection H as <- <-.
      split; [|exact Hinv]. intros pages [= <-]. now apply (Hinv key).
    + destruct (IMGUR_CLIENT_ID w) as [[|c clientId]|] eqn:Hid;
        try (rewrite (fetchImgurAlbumPages_no_credential _ _ Hc) in H by auto;
             injection H as <- <-; split; [discriminate | exact Hinv]).
      rewrite (fetchImgurAlbumPages_miss _ _ _ Hc Hid) in H by discriminate.
      destruct (fst (requestAlbumPages albumId (c :: clientId) w)) as [pages|e] eqn:Hreq;
        injection H as <- <-; [|split; [discriminate | exact Hinv]].
      apply requestAlbumPages_nonempty in Hreq.
      split; [now intros pages' [= <-]|].
      intros k cached. cbn [albumCache with_timers with_albumCache]. fold key.
      rewrite lookup_insert. case_decide as Hk.
      * now intros [= <-].
      * apply Hinv.
Qed.

Lemma album_fetch_failures_not_cached_witness :
  let w := exampleWorld (fun _ _ => Some videoAlbumResponse) in
  let request := imgurRequest (str "abc123") (str "0123456789abcde") in
  fetchImgurAlbumPages (str "abc123") w
    = (throw (EmptyResultError (str "abc123")), with_requests [request] w)
  /\ requests (snd (fetchImgurAlbumPages (str "abc123") (with_requests [request] w)))
     = [request; request].
Proof.
  intros w request.
  destruct (album_fetch_failures_not_cached (str "abc123") w) as (Hempty & _ & _ & Hretry & _).
  assert (H : fetchImgurAlbumPages (str "abc123") w
              = (throw (EmptyResultError (str "abc123")), with_requests [request] w)).
  { apply (Hempty (str "0123456789abcde") videoAlbumResponse
             (JObj [(str "data", JArr [JObj [(str "id", JStr (str "v1"));
                                              (str "type", JStr (str "video/mp4"));
                                              (str "link", JStr (str "https://i.imgur.com/v1.mp4"))]]);
                    (str "success", JBool true);
                    (str "status", JNum (of_Z 200))])
             (JBool true)
             [JObj [(str "id", JStr (str "v1"));
                    (str "type", JStr (str "video/mp4"));
                    (str "link", JStr (str "https://i.imgur.com/v1.mp4"))]]);
      (discriminate || (vm_compute; reflexivity)). }
  split; [exact H|].
  destruct (Hretry _ H) as (request' & H1 & H2).
  injection H1 as <-. exact H2.
Defined.

(** Computations that leave the world as it is but for at most [n] calls of
    [fetch]. *)
Definition atMostCalls {A} (n : nat) (m : Async A) : Prop :=
  forall w, exists more,
    (length more <= n)%nat /\ snd (m w) = with_requests (requests w ++ more) w.

Lemma with_requests_same (w : World) : with_requests (requests w) w = w.
Proof. now destruct w. Qed.

Lemma atMostCalls_noEffect {A} (m : Async A) : noEffect m -> atMostCalls 0 m.
Proof.
  intros H w. exists []. split; [reflexivity|].
  now rewrite H, app_nil_r, with_requests_same.
Qed.

Lemma atMostCalls_weaken {A} (n n' : nat) (m : Async A) :
  (n <= n')%nat -> atMostCalls n m -> atMostCalls n' m.
Proof. intros Hle H w. destruct (H w) as (more & Hlen & Hw). exists more. split; [lia|exact Hw]. Qed.

Lemma atMostCalls_fetch (req : Request) : atMostCalls 1 (fetch req).
Proof. intros w. exists [req]. split; [reflexivity|reflexivity]. Qed.

Lemma atMostCalls_andThen {A B} (n1 n2 : nat) (m : Async A) (k : A -> Async B) :
  atMostCalls n1 m -> (forall a, atMostCalls n2 (k a)) ->
  atMostCalls (n1 + n2) (andThen m k).
Proof.
  intros Hm Hk w. unfold andThen. destruct (Hm w) as (more1 & Hlen1 & Hw1).
  destruct (m w) as [[a|e] w1]; simpl in Hw1; subst w1.
  - destruct (Hk a (with_requests (requests w ++ more1) w)) as (more2 & Hlen2 & Hw2).
    exists (more1 ++ more2). split; [rewrite length_app; lia|].
    rewrite Hw2. simpl. now rewrite app_assoc.
  - exists more1. split; [lia | reflexivity].
Qed.

Section GistFetcherFacts.
Context (P : Platform).

Lemma gistFileContent_calls (gistId : jsstring) (jsonFile : jsval) :
  atMostCalls 1 (gistFileContent P gistId jsonFile).
Proof.
  unfold gistFileContent.
  apply (atMostCalls_andThen 0 1); [apply atMostCalls_noEffect; no_effect|].
  intros rawUrl. destruct (ToBoolean rawUrl).
  - apply (atMostCalls_andThen 0 1); [apply atMostCalls_noEffect; no_effect|].
    intros target. apply (atMostCalls_andThen 1 0); [apply atMostCalls_fetch|].
    intros response. apply atMostCalls_noEffect. no_effect.
  - apply (atMostCalls_weaken 0 1); [lia|]. apply atMostCalls_noEffect. no_effect.
Qed.

(** A request for a gist calls the gist API and, when the file has a
    [raw_url], the raw content; it changes nothing else. *)
Lemma requestGistConfig_world (gistId : jsstring) (w : World) :
  exists more,
    (length more <= 1)%nat
    /\ snd (requestGistConfig P gistId w)
       = with_requests (requests w ++ gistRequest gistId :: more) w.
Proof.
  unfold requestGistConfig.
  set (k := fun response : Response => _).
  assert (Hk : forall response, atMostCalls 1 (k response)).
  { intros response. subst k. cbv beta.
    destruct (negb (response_ok response)).
    - apply (atMostCalls_weaken 0 1); [lia|]. apply atMostCalls_noEffect. no_effect.
    - apply (atMostCalls_andThen 0 1); [apply atMostCalls_noEffect; no_effect|].
      intros gistData.
      apply (atMostCalls_andThen 0 1); [apply atMostCalls_noEffect; no_effect|].
      intros files. destruct (negb (ToBoolean files)).
      + apply (atMostCalls_weaken 0 1); [lia|]. apply atMostCalls_noEffect. no_effect.
      + apply (atMostCalls_andThen 0 1); [apply atMostCalls_noEffect; no_effect|].
        intros jsonFile. destruct (negb (ToBoolean jsonFile)).
        * apply (atMostCalls_weaken 0 1); [lia|]. apply atMostCalls_noEffect. no_effect.
        * apply (atMostCalls_andThen 1 0); [apply gistFileContent_calls|].
          intros fileContent. apply atMostCalls_noEffect. no_effect. }
  unfold andThen at 1. unfold fetch.
  destruct (network w (requests w) (gistRequest gistId)) as [response|].
  - destruct (Hk response (with_requests (requests w ++ [gistRequest gistId]) w))
      as (more & Hlen & Hw).
    exists more. split; [exact Hlen|]. rewrite Hw. simpl.
    now rewrite <- app_assoc.
  - exists []. split; [simpl; lia | reflexivity].
Qed.

Lemma fetchGistConfig_hit (gistId : jsstring) (w : World) (cached : jsval) :
  gistCache w !! (str "gist-" ++ gistId) = Some cached ->
  fetchGistConfig P gistId w = (ok cached, w).
Proof. intros H. unfold fetchGistConfig. now rewrite H. Qed.

Lemma fetchGistConfig_miss (gistId : jsstring) (w : World) :
  gistCache w !! (str "gist-" ++ gistId) = None ->
  let key := str "gist-" ++ gistId in
  let called := snd (requestGistConfig P gistId w) in
  fetchGistConfig P gistId w
  = match fst (requestGistConfig P gistId w) with
    | throw e => (throw (Error (errorMessage P e)), called)
    | ok config =>
        (ok config,
         with_timers (timers called ++ [((clock called + oneHour)%Z, DeleteGist key)])
           (with_gistCache (<[key := config]> (gistCache called)) called))
    end.
Proof.
  intros Hmiss key called. unfold fetchGistConfig. rewrite Hmiss.
  unfold catch, andThen, raise. subst called.
  now destruct (requestGistConfig P gistId w) as [[config|e] w1].
Qed.
End GistFetcherFacts.

(** *** Timers *)

Lemma runTimers_albumCache (key : jsstring) (due : list (Z * TimerAction)) (w : World) :
  (forall t, In t due -> snd t <> DeleteAlbum key) ->
  albumCache (fold_left runTimer due w) !! key = albumCache w !! key.
Proof.
  revert w. induction due as [|t due IH]; intros w Hdue; [reflexivity|].
  simpl. rewrite IH by (intros t' Ht'; apply Hdue; now right).
  unfold runTimer. destruct (snd t) as [k|k] eqn:Ht; simpl; [|reflexivity].
  apply lookup_delete_ne. intros ->. apply (Hdue t); [now left | exact Ht].
Qed.

Lemma runTimers_gistCache (key : jsstring) (due : list (Z * TimerAction)) (w : World) :
  (forall t, In t due -> snd t <> DeleteGist key) ->
  gistCache (fold_left runTimer due w) !! key = gistCache w !! key.
Proof.
  revert w. induction due as [|t due IH]; intros w Hdue; [reflexivity|].
  simpl. rewrite IH by (intros t' Ht'; apply Hdue; now right).
  unfold runTimer. destruct (snd t) as [k|k] eqn:Ht; simpl; [reflexivity|].
  apply lookup_delete_ne. intros ->. apply (Hdue t); [now left | exact Ht].
Qed.

(** No timer for [action] comes due within the next [dt] milliseconds. *)
Definition notDueWithin (dt : Z) (action : TimerAction) (w : World) : Prop :=
  forall t, In t (timers w) -> snd t = action -> (clock w + dt < fst t)%Z.

Lemma due_timers_spare (dt : Z) (action : TimerAction) (w : World) :
  notDueWithin dt action w ->
  forall t, In t (List.filter (fun t => (fst t <=? clock w + dt)%Z) (timers w)) ->
            snd t <> action.
Proof.
  intros Hnot t Ht Heq. apply filter_In in Ht as [Hin Hdue].
  apply Z.leb_le in Hdue. specialize (Hnot t Hin Heq). lia.
Qed.

Lemma elapse_albumCache (dt : Z) (key : jsstring) (w : World) :
  notDueWithin dt (DeleteAlbum key) w ->
  albumCache (elapse dt w) !! key = albumCache w !! key.
Proof.
  intros H. unfold elapse. rewrite runTimers_albumCache; [reflexivity|].
  now apply due_timers_spare.
Qed.

Lemma elapse_gistCache (dt : Z) (key : jsstring) (w : World) :
  notDueWithin dt (DeleteGist key) w ->
  gistCache (elapse dt w) !! key = gistCache w !! key.
Proof.
  intros H. unfold elapse. rewrite runTimers_gistCache; [reflexivity|].
  now apply due_timers_spare.
Qed.

Lemma runTimers_requests (due : list (Z * TimerAction)) (w : World) :
  requests (fold_left runTimer due w) = requests w.
Proof.
  revert w. induction due as [|t due IH]; intros w; [reflexivity|].
  simpl. rewrite IH. unfold runTimer. now destruct (snd t).
Qed.

Lemma elapse_requests (dt : Z) (w : World) : requests (elapse dt w) = requests w.
Proof. unfold elapse. now rewrite runTimers_requests. Qed.

(** *** Cache hits *)

(** A gist whose JSON file is served from a raw URL. *)
Definition gistApiResponse : Response :=
  {| status := 200; statusText := str "OK";
     body := json "{'id':'g1','files':{'README.md':{'filename':'README.md','raw_url':'https://gist.githubusercontent.com/u/g1/raw/README.md'},'manga.json':{'filename':'manga.json','raw_url':'https://gist.githubusercontent.com/u/g1/raw/manga.json'}}}" |}.

Definition gistRawResponse : Response :=
  {| status := 200; statusText := str "OK";
     body := json "{'title':'Example','author':'A','chapters':{'1':{'title':'One','volume':'1','last_updated':'0','groups':{'scans':['https://i.imgur.com/p1.png','https://i.imgur.com/p2.png']}}}}" |}.

Definition gistNetwork (calls : list Request) (req : Request) : option Response :=
  if bool_decide (url req = str "https://api.github.com/gists/g1") then Some gistApiResponse
  else if bool_decide (url req = str "https://gist.githubusercontent.com/u/g1/raw/manga.json")
       then Some gistRawResponse
       else None.

(** C7, as stated, fails: two fetches for one id, with no time passing
    between them, need not make exactly one network call.  An album without
    pictures is asked for twice, as nothing was cached; and a gist fetched
    twice with success, the second time from the cache and with the same
    value, has cost two calls, the gist API and the raw file. *)
Lemma two_fetches_two_calls :
  (let w := exampleWorld (fun _ _ => Some videoAlbumResponse) in
   let first := fetchImgurAlbumPages (str "abc123") w in
   let second := fetchImgurAlbumPages (str "abc123") (snd first) in
   clock (snd second) = clock w /\ length (requests (snd second)) = 2%nat
   /\ length (requests (snd second)) <> 1%nat)
  /\ (let w := exampleWorld gistNetwork in
      let first := fetchGistConfig examplePlatform (str "g1") w in
      let second := fetchGistConfig examplePlatform (str "g1") (snd first) in
      isThrow (fst first) = false /\ fst second = fst first
      /\ clock (snd second) = clock w /\ length (requests (snd second)) = 2%nat
      /\ length (requests (snd second)) <> 1%nat).
Proof.
  split.
  - repeat split; vm_compute; (reflexivity || discriminate).
  - repeat split; vm_compute; (reflexivity || discriminate).
Qed.

(** C7, amended.  A fetch first looks into the cache of its kind under
    [imgur-{id}], respectively [gist-{id}]; on a hit it returns the cached
    value and leaves the world as it is: no network call, no validation, no
    timer.  Hence, after a fetch that succeeded, a second fetch for the same
    id less than an hour later (no older timer for that key coming due in
    between) makes no further network call and returns the same value.  The
    successful first fetch itself made one call for an album and one or two
    for a gist, if it was not served from the cache. *)
Theorem cache_hit_idempotence (P : Platform) :
  (forall albumId w cached,
      albumCache w !! (str "imgur-" ++ albumId) = Some cached ->
      fetchImgurAlbumPages albumId w = (ok cached, w))
  /\ (forall gistId w cached,
      gistCache w !! (str "gist-" ++ gistId) = Some cached ->
      fetchGistConfig P gistId w = (ok cached, w))
  /\ (forall albumId w pages w' dt,
      fetchImgurAlbumPages albumId w = (ok pages, w') ->
      (0 <= dt < oneHour)%Z ->
      notDueWithin dt (DeleteAlbum (str "imgur-" ++ albumId)) w ->
      fetchImgurAlbumPages albumId (elapse dt w') = (ok pages, elapse dt w')
      /\ (albumCache w !! (str "imgur-" ++ albumId) = None ->
          exists request, requests (elapse dt w') = requests w ++ [request]))
  /\ (forall gistId w config w' dt,
      fetchGistConfig P gistId w = (ok config, w') ->
      (0 <= dt < oneHour)%Z ->
      notDueWithin dt (DeleteGist (str "gist-" ++ gistId)) w ->
      fetchGistConfig P gistId (elapse dt w') = (ok config, elapse dt w')
      /\ (gistCache w !! (str "gist-" ++ gistId) = None ->
          exists more, (length more <= 1)%nat
            /\ requests (elapse dt w') = requests w ++ gistRequest gistId :: more)).
Proof.
  split; [|split; [|split]].
  - intros albumId w cached. apply fetchImgurAlbumPages_hit.
  - intros gistId w cached. apply fetchGistConfig_hit.
  - intros albumId w pages w' dt Hfetch Hdt Htimers.
    set (key := str "imgur-" ++ albumId) in *.
    destruct (albumCache w !! key) as [cached|] eqn:Hc.
    + rewrite (fetchImgurAlbumPages_hit _ _ _ Hc) in Hfetch.
      injection Hfetch as <- <-. split; [|discriminate].
      apply fetchImgurAlbumPages_hit. fold key. now rewrite elapse_albumCache.
    + destruct (IMGUR_CLIENT_ID w) as [[|c clientId]|] eqn:Hid;
        try (rewrite (fetchImgurAlbumPages_no_credential _ _ Hc) in Hfetch by auto;
             discriminate Hfetch).
      rewrite (fetchImgurAlbumPages_miss _ _ _ Hc Hid) in Hfetch by discriminate.
      destruct (fst (requestAlbumPages albumId (c :: clientId) w)) as [pages'|e];
        [|discriminate Hfetch].
      injection Hfetch as <- <-. fold key. split.
      * apply fetchImgurAlbumPages_hit. fold key. rewrite elapse_albumCache.
        -- simpl. apply lookup_insert_eq.
        -- intros t Ht Hkey. simpl in Ht |- *. apply in_app_or in Ht as [Ht|[<-|[]]].
           ++ now apply Htimers.
           ++ simpl. lia.
      * intros _. exists (imgurRequest albumId (c :: clientId)).
        now rewrite elapse_requests.
  - intros gistId w config w' dt Hfetch Hdt Htimers.
    set (key := str "gist-" ++ gistId) in *.
    destruct (gistCache w !! key) as [cached|] eqn:Hc.
    + rewrite (fetchGistConfig_hit _ _ _ _ Hc) in Hfetch.
      injection Hfetch as <- <-. split; [|discriminate].
      apply fetchGistConfig_hit. fold key. now rewrite elapse_gistCache.
    + rewrite (fetchGistConfig_miss _ _ _ Hc) in Hfetch.
      destruct (requestGistConfig_world P gistId w) as (more & Hlen & Hworld).
      rewrite Hworld in Hfetch.
      destruct (fst (requestGistConfig P gistId w)) as [config'|e];
        [|discriminate Hfetch].
      injection Hfetch as <- <-. fold key. split.
      * apply fetchGistConfig_hit. fold key. rewrite elapse_gistCache.
        -- simpl. apply lookup_insert_eq.
        -- intros t Ht Hkey. simpl in Ht |- *. apply in_app_or in Ht as [Ht|[<-|[]]].
           ++ now apply Htimers.
           ++ simpl. lia.
      * intros _. exists more. split; [exact Hlen|]. now rewrite elapse_requests.
Qed.

Lemma cache_hit_idempotence_witness :
  let w := exampleWorld (fun _ _ => Some albumResponse) in
  let pages := [JStr (str "https://i.imgur.com/p1.png")] in
  let w' := snd (fetchImgurAlbumPages (str "abc123") w) in
  fetchImgurAlbumPages (str "abc123") (elapse 3599999 w') = (ok pages, elapse 3599999 w')
  /\ length (requests (elapse 3599999 w')) = 1%nat.
Proof.
  intros w pages w'.
  destruct (cache_hit_idempotence examplePlatform) as (_ & _ & Halbum & _).
  assert (Hfetch : fetchImgurAlbumPages (str "abc123") w = (ok pages, w'))
    by (vm_compute; reflexivity).
  assert (Hdt : (0 <= 3599999 < oneHour)%Z) by (unfold oneHour; lia).
  assert (Htimers : notDueWithin 3599999 (DeleteAlbum (str "imgur-" ++ str "abc123")) w)
    by (intros t []).
  destruct (Halbum (str "abc123") w pages w' 3599999%Z Hfetch Hdt Htimers) as [Hhit Hcalls].
  split; [exact Hhit|].
  destruct (Hcalls eq_refl) as (request & ->). reflexivity.
Defined.

(** ** Manifest validation *)

(** The value has no [title]: it is no object, or an object without that key. *)
Definition missingTitle (data : jsval) : Prop :=
  match data with
  | JObj fields => lookupField fields (str "title") = None
  | _ => True
  end.

(** Some chapter of the manifest has, in its [groups], a value that is not
    an array. *)
Definition hasNonArrayGroup (data : jsval) : Prop :=
  exists fields chapters chapterKey chapter groups groupName value,
    data = JObj fields
    /\ lookupField fields (str "chapters") = Some (JObj chapters)
    /\ In (chapterKey, JObj chapter) chapters
    /\ lookupField chapter (str "groups") = Some (JObj groups)
    /\ In (groupName, value) groups
    /\ getParsedType value <> zt_array.

Section ZodFacts.
Context (P : Platform).

Lemma parseEntries_issue (parseValueOf : list PathItem -> jsval -> list ZodIssue * jsval)
    (at_path : list PathItem) (fields : list (jsstring * jsval))
    (k : jsstring) (x : jsval) (i : ZodIssue) :
  In (k, x) fields ->
  In i (fst (parseValueOf (at_path ++ [PKey k]) x)) ->
  In i (fst (parseEntries parseValueOf at_path fields)).
Proof.
  intros Hin Hi. induction fields as [|[k' x'] fields IH]; [contradiction|].
  simpl. destruct (parseValueOf (at_path ++ [PKey k']) x') as [issues y] eqn:E.
  destruct (parseEntries parseValueOf at_path fields) as [issues' ys].
  simpl. apply in_or_app. destruct Hin as [[= -> ->]|Hin].
  - left. now rewrite E in Hi.
  - right. now apply IH.
Qed.

Lemma parseShape_issue (parseField : Schema -> list PathItem -> jsval -> list ZodIssue * jsval)
    (at_path : list PathItem) (fields : list (jsstring * jsval))
    (shape : list (jsstring * Schema)) (k : jsstring) (sk : Schema) (i : ZodIssue) :
  In (k, sk) shape ->
  In i (fst (parseField sk (at_path ++ [PKey k])
               (default JUndefined (lookupField fields k)))) ->
  In i (fst (parseShapeWith parseField at_path fields shape)).
Proof.
  intros Hin Hi. induction shape as [|[k' sk'] shape IH]; [contradiction|].
  simpl.
  destruct (parseField sk' (at_path ++ [PKey k'])
              (default JUndefined (lookupField fields k'))) as [issues y] eqn:E.
  destruct (parseShapeWith parseField at_path fields shape) as [issues' ys].
  simpl. apply in_or_app. destruct Hin as [[= -> ->]|Hin].
  - left. now rewrite E in Hi.
  - right. now apply IH.
Qed.

Lemma zparse_object_issue (shape : list (jsstring * Schema)) (at_path : list PathItem)
    (fields : list (jsstring * jsval)) (k : jsstring) (sk : Schema) (i : ZodIssue) :
  In (k, sk) shape ->
  In i (fst (zparse P sk (at_path ++ [PKey k])
               (default JUndefined (lookupField fields k)))) ->
  In i (fst (zparse P (ZObject shape) at_path (JObj fields))).
Proof. intros Hin Hi. simpl. now apply (parseShape_issue _ _ _ _ k sk). Qed.

Lemma zparse_record_issue (valueType : Schema) (at_path : list PathItem)
    (fields : list (jsstring * jsval)) (k : jsstring) (x : jsval) (i : ZodIssue) :
  In (k, x) fields ->
  In i (fst (zparse P valueType (at_path ++ [PKey k]) x)) ->
  In i (fst (zparse P (ZRecord valueType) at_path (JObj fields))).
Proof.
  intros Hin Hi. simpl.
  pose proof (parseEntries_issue (zparse P valueType) at_path fields k x i Hin Hi) as H.
  now destruct (parseEntries (zparse P valueType) at_path fields).
Qed.

Lemma zparse_array_issue (element : Schema) (at_path : list PathItem) (x : jsval) :
  getParsedType x <> zt_array ->
  In (issue (invalid_type zt_array (getParsedType x)) at_path)
     (fst (zparse P (ZArray element) at_path x)).
Proof. intros H. destruct x; simpl; auto. now contradiction H. Qed.

Lemma Schema_parse_issue (s : Schema) (data : jsval) (i : ZodIssue) :
  In i (fst (zparse P s [] data)) ->
  exists issues, Schema_parse P s data = throw (ZodError issues) /\ In i issues.
Proof.
  intros Hi. unfold Schema_parse.
  destruct (zparse P s [] data) as [[|i0 issues] out]; [contradiction|].
  now exists (i0 :: issues).
Qed.

(** The issue zod raises for a manifest without title. *)
Definition titleIssue (data : jsval) : ZodIssue :=
  match data with
  | JObj _ => issue (invalid_type zt_string zt_undefined) [PKey (str "title")]
  | _ => issue (invalid_type zt_object (getParsedType data)) []
  end.

Lemma missingTitle_issue (data : jsval) :
  missingTitle data -> In (titleIssue data) (fst (zparse P gistConfigSchema [] data)).
Proof.
  intros H. destruct data as [| | | | | |fields]; try (simpl; now left).
  unfold missingTitle in H. unfold titleIssue, gistConfigSchema.
  apply (zparse_object_issue _ [] fields (str "title") (ZString [check_min 1]));
    [now left|].
  rewrite H. simpl. now left.
Qed.

Lemma nonArrayGroup_issue (fields chapters chapter groups : list (jsstring * jsval))
    (chapterKey groupName : jsstring) (value : jsval) :
  lookupField fields (str "chapters") = Some (JObj chapters) ->
  In (chapterKey, JObj chapter) chapters ->
  lookupField chapter (str "groups") = Some (JObj groups) ->
  In (groupName, value) groups ->
  getParsedType value <> zt_array ->
  In (issue (invalid_type zt_array (getParsedType value))
        [PKey (str "chapters"); PKey chapterKey; PKey (str "groups"); PKey groupName])
     (fst (zparse P gistConfigSchema [] (JObj fields))).
Proof.
  intros Hchapters Hchapter Hgroups Hgroup Hvalue. unfold gistConfigSchema.
  apply (zparse_object_issue _ [] fields (str "chapters") (ZRecord chapterSchema));
    [simpl; tauto|].
  rewrite Hchapters. cbn [default].
  apply (zparse_record_issue _ _ chapters chapterKey (JObj chapter)); [exact Hchapter|].
  unfold chapterSchema.
  apply (zparse_object_issue _ _ chapter (str "groups")
           (ZRecord (ZArray (ZString [check_url])))); [simpl; tauto|].
  rewrite Hgroups. cbn [default].
  apply (zparse_record_issue _ _ groups groupName value); [exact Hgroup|].
  now apply zparse_array_issue.
Qed.
End ZodFacts.

(** C8.  For every decoded JSON value that has no [title], or that has a
    chapter whose [groups] hold a value that is no array, [gistConfigSchema
    .parse] throws a zod error (the schema error), with at least one issue,
    among them the issue for the missing title, respectively for the value
    that is no array; it throws nothing else.  Validation is a function of
    the value alone: run in any world it leaves the world, the network log
    included, as it was. *)
Theorem manifest_validation_errors (P : Platform) (data : jsval) :
  missingTitle data \/ hasNonArrayGroup data ->
  (exists issues,
      Schema_parse P gistConfigSchema data = throw (ZodError issues)
      /\ issues <> []
      /\ (missingTitle data -> In (titleIssue data) issues)
      /\ (forall fields chapters chapterKey chapter groups groupName value,
            data = JObj fields ->
            lookupField fields (str "chapters") = Some (JObj chapters) ->
            In (chapterKey, JObj chapter) chapters ->
            lookupField chapter (str "groups") = Some (JObj groups) ->
            In (groupName, value) groups ->
            getParsedType value <> zt_array ->
            In (issue (invalid_type zt_array (getParsedType value))
                  [PKey (str "chapters"); PKey chapterKey; PKey (str "groups");
                   PKey groupName]) issues))
  /\ (forall w, lift (Schema_parse P gistConfigSchema data) w
                = (Schema_parse P gistConfigSchema data, w)).
Proof.
  intros H. split; [|reflexivity].
  assert (Hsome : exists i, In i (fst (zparse P gistConfigSchema [] data))).
  { destruct H as [H|(fields & chapters & ck & chapter & groups & gk & value
                     & -> & H1 & H2 & H3 & H4 & H5)].
    - eexists. now apply missingTitle_issue.
    - eexists. eapply nonArrayGroup_issue; eassumption. }
  destruct Hsome as (i & Hi).
  destruct (Schema_parse_issue P _ _ _ Hi) as (issues & Hparse & Hin).
  exists issues. split; [exact Hparse|]. split; [now intros ->|]. split.
  - intros Hm. destruct (Schema_parse_issue P _ _ _ (missingTitle_issue P _ Hm))
      as (issues' & Hparse' & Hin').
    congruence.
  - intros fields chapters ck chapter groups gk value -> H1 H2 H3 H4 H5.
    destruct (Schema_parse_issue P _ _ _ (nonArrayGroup_issue P _ _ _ _ _ _ _ H1 H2 H3 H4 H5))
      as (issues' & Hparse' & Hin').
    congruence.
Qed.

(** A manifest whose only chapter names an album path where the schema
    wants a list of URLs. *)
Definition pathManifest : jsval :=
  JObj [(str "title", JStr (str "Example"));
        (str "chapters",
         JObj [(str "1",
                JObj [(str "title", JStr (str "One"));
                      (str "groups",
                       JObj [(str "scans", JStr (str "/proxy/api/imgur/chapter/abc123/"))])])])].

Lemma manifest_validation_errors_witness :
  JSON_parse (json "{'title':'Example','chapters':{'1':{'title':'One','groups':{'scans':'/proxy/api/imgur/chapter/abc123/'}}}}")
    = Some pathManifest
  /\ hasNonArrayGroup pathManifest
  /\ exists issues,
       Schema_parse examplePlatform gistConfigSchema pathManifest = throw (ZodError issues)
       /\ In (issue (invalid_type zt_array zt_string)
                [PKey (str "chapters"); PKey (str "1"); PKey (str "groups");
                 PKey (str "scans")]) issues.
Proof.
  assert (H : hasNonArrayGroup pathManifest).
  { unfold hasNonArrayGroup, pathManifest. do 7 eexists.
    split; [reflexivity|]. split; [reflexivity|]. split; [now left|].
    split; [reflexivity|]. split; [now left|]. discriminate. }
  split; [vm_compute; reflexivity|]. split; [exact H|].
  destruct (manifest_validation_errors examplePlatform pathManifest (or_intror H))
    as ((issues & Hparse & _ & _ & Hgroup) & _).
  exists issues. split; [exact Hparse|].
  apply (Hgroup _ _ (str "1") _ _ (str "scans") (JStr (str "/proxy/api/imgur/chapter/abc123/"))
           eq_refl eq_refl (or_introl eq_refl) eq_refl (or_introl eq_refl)).
  discriminate.
Defined.

(* ================================================================== *)
(** * Further properties *)
(* ================================================================== *)

(** ** The album fetcher: how a call fails *)

Lemma requestAlbumPages_answer (albumId clientId : jsstring) (w : World) :
  fst (requestAlbumPages albumId clientId w)
  = match network w (requests w) (imgurRequest albumId clientId) with
    | None => throw FetchFailed
    | Some response =>
        if negb (response_ok response) then throw (RemoteError response)
        else
          data <- response_json response ;;
          success <- Get data (str "success") ;;
          if negb (ToBoolean success) then throw (ApiRejectedError albumId)
          else
            items <- Get data (str "data") ;;
            match items with
            | JArr items =>
                pages <- imagePages items ;;
                if (length pages =? 0)%nat then throw (EmptyResultError albumId)
                else ok pages
            | _ => throw (FormatError albumId)
            end
    end.
Proof.
  unfold requestAlbumPages, andThen, fetch, lift, raise, ret.
  destruct (network w (requests w) (imgurRequest albumId clientId)) as [response|];
    [|reflexivity].
  destruct (negb (response_ok response)); [reflexivity|].
  destruct (response_json response) as [data|e]; [|reflexivity]. cbn [bind fst].
  destruct (Get data (str "success")) as [success|e]; [|reflexivity]. cbn [bind fst].
  destruct (negb (ToBoolean success)); [reflexivity|].
  destruct (Get data (str "data")) as [items|e]; [|reflexivity]. cbn [bind fst].
  destruct items; try reflexivity.
  destruct (imagePages items) as [pages|e]; [|reflexivity]. cbn [bind fst].
  now destruct (length pages =? 0)%nat.
Qed.

(** X1.  How a call of [fetchImgurAlbumPages] that misses the cache fails.
    Without the credential (unset or empty) it fails with the client-id
    message and [fetch] is not called.  With the credential it calls
    [fetch] once and then fails: as [fetch] failed when the promise
    rejects; with the message naming status and status text when the
    status is not 2xx; as [JSON.parse] failed when the body is not JSON;
    with the "reported an issue" message when [success] is falsy; with the
    "unexpected response format" message when [data] is no array.  None of
    these failures touches the cache. *)
Theorem album_fetch_failure_kinds (albumId : jsstring) (w : World) :
  albumCache w !! (str "imgur-" ++ albumId) = None ->
  (IMGUR_CLIENT_ID w = None \/ IMGUR_CLIENT_ID w = Some [] ->
     fetchImgurAlbumPages albumId w = (throw AuthError, w))
  /\ (forall clientId,
      IMGUR_CLIENT_ID w = Some clientId -> clientId <> [] ->
      let request := imgurRequest albumId clientId in
      let called := with_requests (requests w ++ [request]) w in
      (network w (requests w) request = None ->
         fetchImgurAlbumPages albumId w = (throw FetchFailed, called))
      /\ (forall response,
          network w (requests w) request = Some response ->
          (response_ok response = false ->
             fetchImgurAlbumPages albumId w
             = (throw (Error (str "Failed to fetch Imgur album ("
                              ++ Z_toString (status response) ++ str "): "
                              ++ statusText response
                              ++ str ". Check album ID and Client ID.")), called))
          /\ (response_ok response = true ->
              (JSON_parse (body response) = None ->
                 fetchImgurAlbumPages albumId w = (throw SyntaxError, called))
              /\ (forall data success,
                  JSON_parse (body response) = Some data ->
                  Get data (str "success") = ok success ->
                  (ToBoolean success = false ->
                     fetchImgurAlbumPages albumId w
                     = (throw (ApiRejectedError albumId), called))
                  /\ (forall other,
                      ToBoolean success = true ->
                      Get data (str "data") = ok other ->
                      (forall items, other <> JArr items) ->
                      fetchImgurAlbumPages albumId w
                      = (throw (FormatError albumId), called)))))).
Proof.
  intros Hmiss. split; [now apply fetchImgurAlbumPages_no_credential|].
  intros clientId Hid Hne request called.
  rewrite (fetchImgurAlbumPages_miss _ _ _ Hmiss Hid Hne), requestAlbumPages_answer.
  fold request. fold called. split; [now intros ->|].
  intros response ->. split; [now intros ->|]. intros ->. cbn [negb].
  unfold response_json. split; [now intros ->|].
  intros data success Hparse Hget. rewrite Hparse. cbn [bind]. rewrite Hget. cbn [bind].
  split; [now intros ->|].
  intros other -> ->. cbn [negb bind]. intros Hother.
  destruct other; try reflexivity. now contradiction (Hother items).
Qed.

Definition notFoundResponse : Response :=
  {| status := 404; statusText := str "Not Found";
     body := json "{'data':{'error':'Unable to find an album with the id, nope'},'success':false,'status':404}" |}.

Lemma album_fetch_failure_kinds_witness :
  let w := exampleWorld (fun _ _ => Some notFoundResponse) in
  let request := imgurRequest (str "nope") (str "0123456789abcde") in
  fetchImgurAlbumPages (str "nope") w
  = (throw (Error (str "Failed to fetch Imgur album (404): Not Found. Check album ID and Client ID.")),
     with_requests [request] w).
Proof.
  intros w request.
  destruct (album_fetch_failure_kinds (str "nope") w eq_refl) as (_ & H).
  destruct (H (str "0123456789abcde") eq_refl ltac:(discriminate)) as (_ & Hresponse).
  destruct (Hresponse notFoundResponse eq_refl) as (Hstatus & _).
  exact (Hstatus eq_refl).
Defined.

(** ** The album fetcher: which entries become pages *)

(** An entry of the answer as the API documents it: an object whose [type],
    if it has one, is a string or [null]. *)
Definition plainEntry (img : jsval) : Prop :=
  exists fields,
    img = JObj fields
    /\ match lookupField fields (str "type") with
       | None | Some JNull | Some (JStr _) => True
       | Some _ => False
       end.

Definition isImageEntry (img : jsval) : bool :=
  match img with
  | JObj fields =>
      match lookupField fields (str "type") with
      | Some (JStr t) => startsWith t (str "image/")
      | _ => false
      end
  | _ => false
  end.

Definition linkOf (img : jsval) : jsval :=
  match img with
  | JObj fields => default JUndefined (lookupField fields (str "link"))
  | _ => JUndefined
  end.

Lemma isImage_plain (img : jsval) : plainEntry img -> isImage img = ok (isImageEntry img).
Proof.
  intros (fields & -> & Htype). unfold isImage, isImageEntry. cbn [Get bind].
  destruct (lookupField fields (str "type")) as [[]|]; simpl in *; tauto.
Qed.

Lemma filterImages_plain (items : list jsval) :
  Forall plainEntry items -> filterImages items = ok (List.filter isImageEntry items).
Proof.
  induction 1 as [|img items Himg _ IH]; [reflexivity|].
  cbn [filterImages List.filter]. rewrite (isImage_plain _ Himg), IH. cbn [bind].
  now destruct (isImageEntry img).
Qed.

Lemma links_of_images (images : list jsval) :
  Forall (fun img => isImageEntry img = true) images ->
  sequence (map (fun img => Get img (str "link")) images) = ok (map linkOf images).
Proof.
  induction 1 as [|img images Himg _ IH]; [reflexivity|].
  cbn [map sequence]. rewrite IH. destruct img; try discriminate Himg. reflexivity.
Qed.

Lemma filterImages_throws (before after : list jsval) (img : jsval) :
  Forall plainEntry before -> isImage img = throw TypeError ->
  filterImages (before ++ img :: after) = throw TypeError.
Proof.
  intros Hbefore Himg. induction Hbefore as [|b before Hb _ IH].
  - cbn [app filterImages]. now rewrite Himg.
  - cbn [app filterImages]. now rewrite (isImage_plain _ Hb), IH.
Qed.

(** X2.  The pages of an album are the [link]s of the entries whose [type]
    starts with [image/], in the order of the answer; entries without a
    type are passed over.  An entry that is [null], or whose [type] is
    neither a string nor [null], makes the whole filter throw a
    [TypeError], whatever the other entries are. *)
Theorem album_pages_are_image_links (items : list jsval) :
  (Forall plainEntry items ->
     imagePages items = ok (map linkOf (List.filter isImageEntry items)))
  /\ (forall before after img,
      items = before ++ img :: after -> Forall plainEntry before ->
      (img = JNull
       \/ exists fields t,
            img = JObj fields /\ lookupField fields (str "type") = Some t
            /\ match t with JNull | JStr _ | JUndefined => False | _ => True end) ->
      imagePages items = throw TypeError).
Proof.
  split.
  - intros Hplain. unfold imagePages. rewrite (filterImages_plain _ Hplain). cbn [bind].
    apply links_of_images. apply List.Forall_forall. intros img Hin.
    now apply filter_In in Hin as [_ Hin].
  - intros before after img -> Hbefore Himg. unfold imagePages.
    rewrite (filterImages_throws before after img Hbefore); [reflexivity|].
    destruct Himg as [->|(fields & t & -> & Ht & Hbad)]; [reflexivity|].
    unfold isImage. cbn [Get bind]. rewrite Ht. cbn [default].
    destruct t; tauto.
Qed.

Definition exampleEntries : list jsval :=
  [ JObj [(str "id", JStr (str "a")); (str "type", JStr (str "image/jpeg"));
          (str "link", JStr (str "https://i.imgur.com/a.jpg"))];
    JObj [(str "id", JStr (str "b")); (str "type", JStr (str "video/mp4"));
          (str "link", JStr (str "https://i.imgur.com/b.mp4"))];
    JObj [(str "id", JStr (str "c")); (str "link", JStr (str "https://i.imgur.com/c.png"))];
    JObj [(str "id", JStr (str "d")); (str "type", JStr (str "image/png"));
          (str "link", JStr (str "https://i.imgur.com/d.png"))] ].

Lemma album_pages_are_image_links_witness :
  Forall plainEntry exampleEntries
  /\ imagePages exampleEntries
     = ok [JStr (str "https://i.imgur.com/a.jpg"); JStr (str "https://i.imgur.com/d.png")]
  /\ imagePages (exampleEntries ++ [JObj [(str "type", JNum (of_Z 1))]]) = throw TypeError.
Proof.
  assert (Hplain : Forall plainEntry exampleEntries).
  { repeat constructor; eexists; (split; [reflexivity|]); vm_compute; exact I. }
  split; [exact Hplain|]. split.
  - destruct (album_pages_are_image_links exampleEntries) as (H & _).
    rewrite (H Hplain). reflexivity.
  - destruct (album_pages_are_image_links
                (exampleEntries ++ [JObj [(str "type", JNum (of_Z 1))]])) as (_ & H).
    apply (H exampleEntries [] (JObj [(str "type", JNum (of_Z 1))]) eq_refl Hplain).
    right. exists [(str "type", JNum (of_Z 1))], (JNum (of_Z 1)).
    split; [reflexivity|]. split; [reflexivity | exact I].
Defined.

(** ** Expiry of cache entries *)

Lemma runTimers_album_absent (key : jsstring) (due : list (Z * TimerAction)) (w : World) :
  albumCache w !! key = None -> albumCache (fold_left runTimer due w) !! key = None.
Proof.
  revert w. induction due as [|t due IH]; intros w H; [exact H|].
  cbn [fold_left]. apply IH. unfold runTimer. destruct (snd t) as [k|k]; [|exact H].
  cbn [albumCache with_albumCache]. rewrite lookup_delete. now case_decide.
Qed.

Lemma runTimers_gist_absent (key : jsstring) (due : list (Z * TimerAction)) (w : World) :
  gistCache w !! key = None -> gistCache (fold_left runTimer due w) !! key = None.
Proof.
  revert w. induction due as [|t due IH]; intros w H; [exact H|].
  cbn [fold_left]. apply IH. unfold runTimer. destruct (snd t) as [k|k]; [exact H|].
  cbn [gistCache with_gistCache]. rewrite lookup_delete. now case_decide.
Qed.

Lemma runTimers_album_deleted (key : jsstring) (due : list (Z * TimerAction)) (w : World)
    (t : Z * TimerAction) :
  In t due -> snd t = DeleteAlbum key ->
  albumCache (fold_left runTimer due w) !! key = None.
Proof.
  revert w. induction due as [|t' due IH]; intros w Hin Ht; [contradiction|].
  cbn [fold_left]. destruct Hin as [->|Hin]; [|now apply IH].
  apply runTimers_album_absent. unfold runTimer. rewrite Ht.
  cbn [albumCache with_albumCache]. apply lookup_delete_eq.
Qed.

Lemma runTimers_gist_deleted (key : jsstring) (due : list (Z * TimerAction)) (w : World)
    (t : Z * TimerAction) :
  In t due -> snd t = DeleteGist key ->
  gistCache (fold_left runTimer due w) !! key = None.
Proof.
  revert w. induction due as [|t' due IH]; intros w Hin Ht; [contradiction|].
  cbn [fold_left]. destruct Hin as [->|Hin]; [|now apply IH].
  apply runTimers_gist_absent. unfold runTimer. rewrite Ht.
  cbn [gistCache with_gistCache]. apply lookup_delete_eq.
Qed.

Lemma runTimers_environment (due : list (Z * TimerAction)) (w : World) :
  IMGUR_CLIENT_ID (fold_left runTimer due w) = IMGUR_CLIENT_ID w
  /\ network (fold_left runTimer due w) = network w.
Proof.
  revert w. induction due as [|t due IH]; intros w; [now split|].
  cbn [fold_left]. destruct (IH (runTimer w t)) as [-> ->].
  unfold runTimer. now destruct (snd t).
Qed.

Lemma elapseWith_environment (ran : Z * TimerAction -> bool) (dt : Z) (w : World) :
  IMGUR_CLIENT_ID (elapseWith ran dt w) = IMGUR_CLIENT_ID w
  /\ network (elapseWith ran dt w) = network w
  /\ requests (elapseWith ran dt w) = requests w.
Proof.
  unfold elapseWith. rewrite runTimers_requests.
  match goal with
  | |- context [fold_left runTimer ?due ?w0] =>
      destruct (runTimers_environment due w0) as [-> ->]
  end.
  now repeat split.
Qed.

(** The event loop that is never late is one of the schedules. *)
Lemma elapse_elapseWith (dt : Z) (w : World) :
  elapse dt w = elapseWith (fun _ => true) dt w.
Proof.
  unfold elapse, elapseWith.
  rewrite (List.filter_ext (fun t => (fst t <=? clock w + dt)%Z && true)
             (fun t => (fst t <=? clock w + dt)%Z)) by (intros t; apply andb_true_r).
  rewrite (List.filter_ext (fun t => negb ((fst t <=? clock w + dt)%Z && true))
             (fun t => negb (fst t <=? clock w + dt)%Z))
    by (intros t; now rewrite andb_true_r).
  reflexivity.
Qed.

Lemma elapseWith_album_kept (ran : Z * TimerAction -> bool) (dt : Z) (key : jsstring)
    (w : World) :
  (forall t, In t (timers w) -> snd t = DeleteAlbum key ->
             (fst t <=? clock w + dt)%Z && ran t = false) ->
  albumCache (elapseWith ran dt w) !! key = albumCache w !! key.
Proof.
  intros Hkept. unfold elapseWith. rewrite runTimers_albumCache; [reflexivity|].
  intros t Ht Heq. apply filter_In in Ht as [Hin Hrun].
  rewrite (Hkept t Hin Heq) in Hrun. discriminate.
Qed.

Lemma elapseWith_gist_kept (ran : Z * TimerAction -> bool) (dt : Z) (key : jsstring)
    (w : World) :
  (forall t, In t (timers w) -> snd t = DeleteGist key ->
             (fst t <=? clock w + dt)%Z && ran t = false) ->
  gistCache (elapseWith ran dt w) !! key = gistCache w !! key.
Proof.
  intros Hkept. unfold elapseWith. rewrite runTimers_gistCache; [reflexivity|].
  intros t Ht Heq. apply filter_In in Ht as [Hin Hrun].
  rewrite (Hkept t Hin Heq) in Hrun. discriminate.
Qed.

Lemma elapseWith_album_deleted (ran : Z * TimerAction -> bool) (dt : Z) (key : jsstring)
    (w : World) (t : Z * TimerAction) :
  In t (timers w) -> snd t = DeleteAlbum key -> (fst t <= clock w + dt)%Z -> ran t = true ->
  albumCache (elapseWith ran dt w) !! key = None.
Proof.
  intros Hin Heq Hdue Hran. unfold elapseWith.
  apply (runTimers_album_deleted key _ _ t); [|exact Heq].
  apply filter_In. split; [exact Hin|].
  apply andb_true_intro. split; [now apply Z.leb_le | exact Hran].
Qed.

Lemma elapseWith_gist_deleted (ran : Z * TimerAction -> bool) (dt : Z) (key : jsstring)
    (w : World) (t : Z * TimerAction) :
  In t (timers w) -> snd t = DeleteGist key -> (fst t <= clock w + dt)%Z -> ran t = true ->
  gistCache (elapseWith ran dt w) !! key = None.
Proof.
  intros Hin Heq Hdue Hran. unfold elapseWith.
  apply (runTimers_gist_deleted key _ _ t); [|exact Heq].
  apply filter_In. split; [exact Hin|].
  apply andb_true_intro. split; [now apply Z.leb_le | exact Hran].
Qed.

(** What a fetch that missed the cache and succeeded leaves behind: the
    entry, and its deletion scheduled for one hour later. *)
Lemma fetchImgurAlbumPages_stored (albumId : jsstring) (w : World) (pages : list jsval)
    (w' : World) :
  albumCache w !! (str "imgur-" ++ albumId) = None ->
  fetchImgurAlbumPages albumId w = (ok pages, w') ->
  albumCache w' !! (str "imgur-" ++ albumId) = Some pages
  /\ timers w' = timers w ++ [((clock w + oneHour)%Z, DeleteAlbum (str "imgur-" ++ albumId))]
  /\ clock w' = clock w
  /\ IMGUR_CLIENT_ID w' = IMGUR_CLIENT_ID w
  /\ exists c clientId, IMGUR_CLIENT_ID w = Some (c :: clientId).
Proof.
  intros Hmiss Hfetch. set (key := str "imgur-" ++ albumId) in *.
  destruct (IMGUR_CLIENT_ID w) as [[|c clientId]|] eqn:Hid;
    try (rewrite (fetchImgurAlbumPages_no_credential _ _ Hmiss) in Hfetch by auto;
         discriminate Hfetch).
  rewrite (fetchImgurAlbumPages_miss _ _ _ Hmiss Hid) in Hfetch by discriminate.
  destruct (fst (requestAlbumPages albumId (c :: clientId) w)) as [pages'|e];
    [|discriminate Hfetch].
  injection Hfetch as <- <-. fold key.
  cbn [albumCache timers clock IMGUR_CLIENT_ID with_timers with_albumCache with_requests].
  repeat split; [apply lookup_insert_eq | exact Hid | now exists c, clientId].
Qed.

Lemma fetchGistConfig_stored (P : Platform) (gistId : jsstring) (w : World) (config : jsval)
    (w' : World) :
  gistCache w !! (str "gist-" ++ gistId) = None ->
  fetchGistConfig P gistId w = (ok config, w') ->
  gistCache w' !! (str "gist-" ++ gistId) = Some config
  /\ timers w' = timers w ++ [((clock w + oneHour)%Z, DeleteGist (str "gist-" ++ gistId))]
  /\ clock w' = clock w.
Proof.
  intros Hmiss Hfetch. set (key := str "gist-" ++ gistId) in *.
  rewrite (fetchGistConfig_miss _ _ _ Hmiss) in Hfetch.
  destruct (requestGistConfig_world P gistId w) as (more & Hlen & Hworld).
  rewrite Hworld in Hfetch.
  destruct (fst (requestGistConfig P gistId w)) as [config'|e]; [|discriminate Hfetch].
  injection Hfetch as <- <-. fold key.
  cbn [gistCache timers clock with_timers with_gistCache with_requests].
  repeat split. apply lookup_insert_eq.
Qed.

(** X3.  A cache entry lives until the deletion that was scheduled when it
    was stored has run, and that is not before one hour has passed.  After a
    fetch that missed the cache and succeeded, the entry is in the cache and
    its deletion is among the timers, due one hour later.  [setTimeout] lets
    the deletion run at the hour or any time after it: whenever it has run,
    the entry is gone and the next fetch for the same id calls the network
    again (the album API for an album, the gist API for a gist); as long as
    no deletion for the key has run, which is the case throughout the first
    hour when none was pending before, the entry is still there.  At
    exactly one hour either may be the case. *)
Theorem cache_entry_expires (P : Platform) :
  (forall albumId w pages w',
      let key := str "imgur-" ++ albumId in
      let deletion := ((clock w + oneHour)%Z, DeleteAlbum key) in
      albumCache w !! key = None ->
      fetchImgurAlbumPages albumId w = (ok pages, w') ->
      albumCache w' !! key = Some pages
      /\ timers w' = timers w ++ [deletion]
      /\ (forall ran dt, (oneHour <= dt)%Z -> ran deletion = true ->
            albumCache (elapseWith ran dt w') !! key = None
            /\ exists clientId,
                 requests (snd (fetchImgurAlbumPages albumId (elapseWith ran dt w')))
                 = requests w' ++ [imgurRequest albumId clientId])
      /\ (forall ran dt,
            (forall t, In t (timers w') -> snd t = DeleteAlbum key ->
                       (fst t <=? clock w' + dt)%Z && ran t = false) ->
            albumCache (elapseWith ran dt w') !! key = Some pages)
      /\ (forall ran dt, (dt < oneHour)%Z ->
            (forall t, In t (timers w) -> snd t <> DeleteAlbum key) ->
            albumCache (elapseWith ran dt w') !! key = Some pages))
  /\ (forall gistId w config w',
      let key := str "gist-" ++ gistId in
      let deletion := ((clock w + oneHour)%Z, DeleteGist key) in
      gistCache w !! key = None ->
      fetchGistConfig P gistId w = (ok config, w') ->
      gistCache w' !! key = Some config
      /\ timers w' = timers w ++ [deletion]
      /\ (forall ran dt, (oneHour <= dt)%Z -> ran deletion = true ->
            gistCache (elapseWith ran dt w') !! key = None
            /\ exists more,
                 requests (snd (fetchGistConfig P gistId (elapseWith ran dt w')))
                 = requests w' ++ gistRequest gistId :: more)
      /\ (forall ran dt,
            (forall t, In t (timers w') -> snd t = DeleteGist key ->
                       (fst t <=? clock w' + dt)%Z && ran t = false) ->
            gistCache (elapseWith ran dt w') !! key = Some config)
      /\ (forall ran dt, (dt < oneHour)%Z ->
            (forall t, In t (timers w) -> snd t <> DeleteGist key) ->
            gistCache (elapseWith ran dt w') !! key = Some config)).
Proof.
  split.
  - intros albumId w pages w' key deletion Hmiss Hfetch.
    destruct (fetchImgurAlbumPages_stored albumId w pages w' Hmiss Hfetch)
      as (Hstored & Htimers & Hclock & Hid' & c & clientId & Hid).
    fold key in Hstored, Htimers. fold deletion in Htimers.
    assert (Hkept : forall ran dt,
              (forall t, In t (timers w') -> snd t = DeleteAlbum key ->
                         (fst t <=? clock w' + dt)%Z && ran t = false) ->
              albumCache (elapseWith ran dt w') !! key = Some pages).
    { intros ran dt Hnone. now rewrite elapseWith_album_kept. }
    split; [exact Hstored|]. split; [exact Htimers|]. split; [|split; [exact Hkept|]].
    + intros ran dt Hdt Hran.
      assert (Hgone : albumCache (elapseWith ran dt w') !! key = None).
      { apply (elapseWith_album_deleted ran dt key w' deletion);
          [rewrite Htimers; apply in_or_app; right; now left
          | reflexivity
          | rewrite Hclock; unfold deletion; cbn [fst]; lia
          | exact Hran]. }
      split; [exact Hgone|]. exists (c :: clientId).
      destruct (elapseWith_environment ran dt w') as (Henv & _ & Hreq).
      rewrite (fetchImgurAlbumPages_miss albumId (c :: clientId));
        [| exact Hgone | now rewrite Henv, Hid' | discriminate ].
      match goal with
      | |- context [fst (requestAlbumPages albumId (c :: clientId) ?w1)] =>
          destruct (fst (requestAlbumPages albumId (c :: clientId) w1))
      end; cbn [snd requests with_timers with_albumCache with_requests];
        now rewrite Hreq.
    + intros ran dt Hdt Hfresh. apply Hkept. intros t Ht Heq.
      rewrite Htimers in Ht. apply in_app_or in Ht as [Ht | [<- | []]].
      * now destruct (Hfresh t Ht).
      * rewrite Hclock. unfold deletion. cbn [fst].
        replace (clock w + oneHour <=? clock w + dt)%Z with false; [reflexivity|].
        symmetry. apply Z.leb_gt. lia.
  - intros gistId w config w' key deletion Hmiss Hfetch.
    destruct (fetchGistConfig_stored P gistId w config w' Hmiss Hfetch)
      as (Hstored & Htimers & Hclock).
    fold key in Hstored, Htimers. fold deletion in Htimers.
    assert (Hkept : forall ran dt,
              (forall t, In t (timers w') -> snd t = DeleteGist key ->
                         (fst t <=? clock w' + dt)%Z && ran t = false) ->
              gistCache (elapseWith ran dt w') !! key = Some config).
    { intros ran dt Hnone. now rewrite elapseWith_gist_kept. }
    split; [exact Hstored|]. split; [exact Htimers|]. split; [|split; [exact Hkept|]].
    + intros ran dt Hdt Hran.
      assert (Hgone : gistCache (elapseWith ran dt w') !! key = None).
      { apply (elapseWith_gist_deleted ran dt key w' deletion);
          [rewrite Htimers; apply in_or_app; right; now left
          | reflexivity
          | rewrite Hclock; unfold deletion; cbn [fst]; lia
          | exact Hran]. }
      split; [exact Hgone|].
      destruct (elapseWith_environment ran dt w') as (_ & _ & Hreq).
      rewrite (fetchGistConfig_miss P gistId (elapseWith ran dt w') Hgone).
      destruct (requestGistConfig_world P gistId (elapseWith ran dt w'))
        as (more' & _ & Hworld').
      exists more'.
      destruct (fst (requestGistConfig P gistId (elapseWith ran dt w')));
        cbn [snd requests with_timers with_gistCache]; rewrite Hworld';
        cbn [requests with_requests]; now rewrite Hreq.
    + intros ran dt Hdt Hfresh. apply Hkept. intros t Ht Heq.
      rewrite Htimers in Ht. apply in_app_or in Ht as [Ht | [<- | []]].
      * now destruct (Hfresh t Ht).
      * rewrite Hclock. unfold deletion. cbn [fst].
        replace (clock w + oneHour <=? clock w + dt)%Z with false; [reflexivity|].
        symmetry. apply Z.leb_gt. lia.
Qed.

(** One hour after the entry was stored: gone when the loop was on time,
    still there when it has not come to the deletion yet, and gone for
    certain once the deletion has run. *)
Lemma cache_entry_expires_witness :
  let w := exampleWorld (fun _ _ => Some albumResponse) in
  let w' := snd (fetchImgurAlbumPages (str "abc123") w) in
  let key := str "imgur-" ++ str "abc123" in
  let pages := [JStr (str "https://i.imgur.com/p1.png")] in
  albumCache (elapseWith (fun _ => true) 3600000 w') !! key = None
  /\ length (requests (snd (fetchImgurAlbumPages (str "abc123")
                              (elapseWith (fun _ => true) 3600000 w')))) = 2%nat
  /\ albumCache (elapseWith (fun _ => false) 3600000 w') !! key = Some pages
  /\ albumCache (elapseWith (fun _ => true) 3599999 w') !! key = Some pages.
Proof.
  intros w w' key pages.
  destruct (cache_entry_expires examplePlatform) as (Halbum & _).
  assert (Hfetch : fetchImgurAlbumPages (str "abc123") w = (ok pages, w'))
    by (vm_compute; reflexivity).
  destruct (Halbum (str "abc123") w pages w' eq_refl Hfetch)
    as (_ & _ & Hgone & Hkept & Hfirst).
  assert (Hdt : (oneHour <= 3600000)%Z) by (unfold oneHour; lia).
  destruct (Hgone (fun _ => true) 3600000%Z Hdt eq_refl) as (Hnone & clientId & Hcalls).
  split; [exact Hnone|]. split; [rewrite Hcalls, length_app; reflexivity|].
  split.
  - apply Hkept. intros t _ _. apply andb_false_r.
  - apply Hfirst; [unfold oneHour; lia | intros t []].
Defined.

(** ** The gist fetcher: failures *)

(** X4.  Whatever goes wrong in [fetchGistConfig] (the network, the status,
    the shape of the answer, [JSON.parse], the schema), the caller gets a
    plain [Error] carrying the message of the cause, never the cause
    itself; the caches and the timers are as before, and the gist API has
    been called once, the raw file at most once. *)
Theorem gist_fetch_failures_are_plain_errors (P : Platform) (gistId : jsstring) (w w' : World)
    (e : error) :
  fetchGistConfig P gistId w = (throw e, w') ->
  (exists cause, fst (requestGistConfig P gistId w) = throw cause
                 /\ e = Error (errorMessage P cause))
  /\ gistCache w' = gistCache w /\ albumCache w' = albumCache w /\ timers w' = timers w
  /\ exists more, (length more <= 1)%nat
                  /\ requests w' = requests w ++ gistRequest gistId :: more.
Proof.
  intros Hfetch. destruct (gistCache w !! (str "gist-" ++ gistId)) as [cached|] eqn:Hc.
  { rewrite (fetchGistConfig_hit _ _ _ _ Hc) in Hfetch. discriminate Hfetch. }
  rewrite (fetchGistConfig_miss _ _ _ Hc) in Hfetch.
  destruct (requestGistConfig_world P gistId w) as (more & Hlen & Hworld).
  rewrite Hworld in Hfetch.
  destruct (fst (requestGistConfig P gistId w)) as [config|cause]; [discriminate Hfetch|].
  injection Hfetch as <- <-. split; [now exists cause|].
  repeat split. now exists more.
Qed.

Definition brokenGistNetwork (calls : list Request) (req : Request) : option Response :=
  if bool_decide (url req = str "https://api.github.com/gists/g1") then Some gistApiResponse
  else Some {| status := 200; statusText := str "OK"; body := json "{'title':" |}.

Lemma gist_fetch_failures_are_plain_errors_witness :
  let w := exampleWorld brokenGistNetwork in
  exists w',
    fetchGistConfig examplePlatform (str "g1") w = (throw (Error (str "SyntaxError")), w')
    /\ gistCache w' = gistCache w /\ length (requests w') = 2%nat.
Proof.
  intros w.
  destruct (fetchGistConfig examplePlatform (str "g1") w) as [r w'] eqn:Hfetch.
  assert (Hr : r = throw (Error (str "SyntaxError"))).
  { change r with (fst (r, w')). rewrite <- Hfetch. vm_compute. reflexivity. }
  subst r. exists w'. split; [reflexivity|].
  destruct (gist_fetch_failures_are_plain_errors _ _ _ _ _ Hfetch)
    as (_ & Hcache & _ & _ & more & _ & Hcalls).
  split; [exact Hcache|].
  change w' with (snd (throw (A:=jsval) (Error (str "SyntaxError")), w')).
  rewrite <- Hfetch. vm_compute. reflexivity.
Defined.

(** ** The gist fetcher: which file, which content *)

Definition namedFile (file : jsval) (name : jsstring) : Prop :=
  exists fields, file = JObj fields /\ lookupField fields (str "filename") = Some (JStr name).

Definition isJsonName (name : jsstring) : bool :=
  endsWith (toLowerCase name) (str ".json").

Lemma isJsonFile_named (file : jsval) (name : jsstring) :
  namedFile file name -> isJsonFile file = ok (isJsonName name).
Proof. intros (fields & -> & H). unfold isJsonFile. cbn [Get bind]. now rewrite H. Qed.

Lemma endsWith_app (stem suffix : jsstring) : endsWith (stem ++ suffix) suffix = true.
Proof. unfold endsWith. rewrite rev_app_distr. apply startsWith_app. Qed.

(** X5.  Of the files of a gist, in the order in which the object
    enumerates them, the first whose name ends in [.json] is taken, in
    whatever case the extension is written; when no file has such a name
    none is taken (and the fetch reports that the gist has no JSON file). *)
Theorem first_json_file_is_taken :
  (forall before file after name,
      (forall f, In f before -> exists n, namedFile f n /\ isJsonName n = false) ->
      namedFile file name -> isJsonName name = true ->
      findJsonFile (before ++ file :: after) = ok file)
  /\ (forall files,
      (forall f, In f files -> exists n, namedFile f n /\ isJsonName n = false) ->
      findJsonFile files = ok JUndefined)
  /\ (forall stem extension,
      toLowerCase extension = str ".json" -> isJsonName (stem ++ extension) = true).
Proof.
  split; [|split].
  - intros before file after name Hbefore Hfile Hname.
    induction before as [|b before IH]; cbn [app findJsonFile].
    + now rewrite (isJsonFile_named _ _ Hfile), Hname.
    + destruct (Hbefore b (or_introl eq_refl)) as (n & Hb & Hn).
      rewrite (isJsonFile_named _ _ Hb), Hn. cbn [bind]. apply IH.
      intros f Hf. apply Hbefore. now right.
  - intros files Hfiles. induction files as [|b files IH]; [reflexivity|].
    cbn [findJsonFile]. destruct (Hfiles b (or_introl eq_refl)) as (n & Hb & Hn).
    rewrite (isJsonFile_named _ _ Hb), Hn. cbn [bind]. apply IH.
    intros f Hf. apply Hfiles. now right.
  - intros stem extension Hext. unfold isJsonName, toLowerCase.
    rewrite map_app. fold (toLowerCase extension). rewrite Hext. apply endsWith_app.
Qed.

Definition exampleFile (name : string) : jsval :=
  JObj [(str "filename", JStr (str name)); (str "content", JStr (str "{}"))].

Lemma first_json_file_is_taken_witness :
  findJsonFile [exampleFile "notes.txt"; exampleFile "Manga.JSON"; exampleFile "other.json"]
  = ok (exampleFile "Manga.JSON").
Proof.
  destruct first_json_file_is_taken as (H & _).
  apply (H [exampleFile "notes.txt"] (exampleFile "Manga.JSON") [exampleFile "other.json"]
           (str "Manga.JSON")).
  - intros f [<-|[]]. exists (str "notes.txt"). split; [|reflexivity].
    eexists. split; reflexivity.
  - eexists. split; reflexivity.
  - reflexivity.
Defined.

(** X6.  How the text of the chosen file is obtained.  When the file has a
    non-empty [raw_url], the text is downloaded from there and nothing
    else is tried: a rejected download or a status that is not 2xx fails
    the fetch even when the file carries its [content] inline.  Only a
    file without [raw_url] is read from [content], with no network call;
    a file with neither fails. *)
Theorem gist_content_source (P : Platform) (gistId : jsstring) (fields : list (jsstring * jsval))
    (w : World) :
  (forall rawUrl,
      lookupField fields (str "raw_url") = Some (JStr rawUrl) -> rawUrl <> [] ->
      let request := {| url := rawUrl; headers := [] |} in
      gistFileContent P gistId (JObj fields) w
      = (match network w (requests w) request with
         | None => throw FetchFailed
         | Some response =>
             if response_ok response then ok (JStr (body response))
             else throw (RawContentError rawUrl)
         end,
         with_requests (requests w ++ [request]) w))
  /\ (lookupField fields (str "raw_url") = None ->
      gistFileContent P gistId (JObj fields) w
      = (match lookupField fields (str "content") with
         | Some content =>
             if ToBoolean content then ok content else throw (NoContentError gistId)
         | None => throw (NoContentError gistId)
         end, w)).
Proof.
  split.
  - intros rawUrl Hraw Hne request. unfold gistFileContent, andThen, lift, fetch, raise, ret.
    cbn [Get]. rewrite Hraw. cbn [default from_option id ToBoolean ToString].
    destruct rawUrl as [|c rawUrl]; [congruence|]. fold request.
    destruct (network w (requests w) request) as [response|]; [|reflexivity].
    now destruct (response_ok response).
  - intros Hraw. unfold gistFileContent, andThen, lift, raise, ret.
    cbn [Get]. rewrite Hraw. cbn [default from_option id ToBoolean].
    destruct (lookupField fields (str "content")) as [content|]; [|reflexivity].
    cbn [default from_option id]. now destruct (ToBoolean content).
Qed.

Lemma gist_content_source_witness :
  let file := [(str "filename", JStr (str "manga.json"));
               (str "raw_url", JStr (str "https://gist.githubusercontent.com/u/g1/raw/manga.json"));
               (str "content", JStr (json "{'title':'Inline','chapters':{}}"))] in
  let w := exampleWorld (fun _ _ => Some notFoundResponse) in
  fst (gistFileContent examplePlatform (str "g1") (JObj file) w)
  = throw (RawContentError (str "https://gist.githubusercontent.com/u/g1/raw/manga.json")).
Proof.
  intros file w.
  destruct (gist_content_source examplePlatform (str "g1") file w) as (H & _).
  rewrite (H (str "https://gist.githubusercontent.com/u/g1/raw/manga.json") eq_refl
             ltac:(discriminate)).
  reflexivity.
Defined.
(** ** The page area *)

Lemma Array_get_of_Z (items : list jsval) (i : Z) :
  (0 <= i)%Z -> Array_get items (of_Z i) = default JUndefined (items !! Z.to_nat i).
Proof.
  intros Hi. unfold Array_get, of_Z. rewrite inject_Z_Qred. cbn [Qden Qnum inject_Z].
  destruct (Z.leb_spec 0 i); [reflexivity | lia].
Qed.

Lemma num_ltb_of_Z (a b : Z) : num_ltb (of_Z a) (of_Z b) = (a <? b)%Z.
Proof.
  unfold num_ltb, of_Z. change (Fin (inject_Z a)) with (of_Z a).
  change (Fin (inject_Z b)) with (of_Z b). rewrite num_leb_of_Z.
  destruct (Z.leb_spec b a), (Z.ltb_spec a b); try reflexivity; lia.
Qed.

Lemma pageArea_on_page (pages : list jsval) (c : nat) (leftPage : jsval) :
  pages !! c = Some leftPage ->
  pageArea pages {| currentPage := of_nat (S c); viewMode := single |} = [Image leftPage]
  /\ pageArea pages {| currentPage := of_nat (S c); viewMode := double |}
     = match pages !! S c with
       | Some rightPage => [Image leftPage; Image rightPage]
       | None => [Image leftPage; Spacer]
       end.
Proof.
  intros Hleft. pose proof (lookup_lt_Some _ _ _ Hleft) as Hlt.
  assert (Hsub : num_sub (of_nat (S c)) (of_Z 1) = of_Z (Z.of_nat c)).
  { unfold of_nat. rewrite num_sub_of_Z. f_equal. lia. }
  assert (Hadd : num_add (of_nat (S c)) (of_Z 1) = of_Z (Z.of_nat (S (S c)))).
  { unfold of_nat. rewrite num_add_of_Z. f_equal. lia. }
  unfold pageArea. cbn [currentPage viewMode isSingle isDouble andb].
  rewrite Hsub, Hadd. unfold of_nat. rewrite !num_leb_of_Z, !num_ltb_of_Z.
  rewrite !Array_get_of_Z by lia. rewrite !Nat2Z.id, Hleft. cbn [default from_option id].
  assert (H0 : (0 <? length pages)%nat = true) by (apply Nat.ltb_lt; lia).
  assert (H1 : (1 <=? Z.of_nat (S c))%Z = true) by (apply Z.leb_le; lia).
  assert (H2 : (Z.of_nat (S c) <=? Z.of_nat (length pages))%Z = true) by (apply Z.leb_le; lia).
  assert (H3 : (length pages =? 0)%nat = false) by (apply Nat.eqb_neq; lia).
  assert (H4 : (Z.of_nat (S c) <? 1)%Z = false) by (apply Z.ltb_ge; lia).
  assert (H5 : (Z.of_nat (length pages) <? Z.of_nat (S c))%Z = false) by (apply Z.ltb_ge; lia).
  rewrite H0, H1, H2, H3, H4, H5. cbn [andb orb when app]. split; [reflexivity|].
  destruct (pages !! S c) as [rightPage|] eqn:Hright.
  - apply lookup_lt_Some in Hright.
    assert (H6 : (Z.of_nat (S (S c)) <=? Z.of_nat (length pages))%Z = true) by (apply Z.leb_le; lia).
    assert (H7 : (Z.of_nat (length pages) <? Z.of_nat (S (S c)))%Z = false) by (apply Z.ltb_ge; lia).
    now rewrite H6, H7.
  - apply lookup_ge_None in Hright.
    assert (H6 : (Z.of_nat (S (S c)) <=? Z.of_nat (length pages))%Z = false) by (apply Z.leb_gt; lia).
    assert (H7 : (Z.of_nat (length pages) <? Z.of_nat (S (S c)))%Z = true) by (apply Z.ltb_lt; lia).
    now rewrite H6, H7.
Qed.

(** X7. With the session on a whole page number [c] inside a list of
    pages, the page area holds images of the list and nothing else: page
    [c] alone in single view; pages [c] and [c + 1] side by side in double
    view, the second one replaced by an empty box when [c] is the last
    page.  The loading text is not shown. *)
Theorem page_area_shows_current_pages (pages : list jsval) (c : nat) (leftPage : jsval) :
  pages !! c = Some leftPage ->
  pageArea pages {| currentPage := of_nat (S c); viewMode := single |} = [Image leftPage]
  /\ pageArea pages {| currentPage := of_nat (S c); viewMode := double |}
     = match pages !! S c with
       | Some rightPage => [Image leftPage; Image rightPage]
       | None => [Image leftPage; Spacer]
       end.
Proof. apply pageArea_on_page. Qed.

Lemma page_area_shows_current_pages_witness :
  pageArea (examplePages 3) {| currentPage := of_nat 3; viewMode := single |}
    = [Image (JStr (str "https://i.imgur.com/p3.png"))]
  /\ pageArea (examplePages 3) {| currentPage := of_nat 3; viewMode := double |}
    = [Image (JStr (str "https://i.imgur.com/p3.png")); Spacer].
Proof.
  exact (page_area_shows_current_pages (examplePages 3) 2 (JStr (str "https://i.imgur.com/p3.png")) eq_refl).
Defined.

(** X8. Outside the list the page area holds the loading text and no
    image: when the list is empty, whatever the page, and when the page is
    a number below 1 or above the number of pages.  For a page that is not
    a number and a list that is not empty it holds nothing at all: none of
    the three conditions of the markup is true. *)
Theorem page_area_outside_the_list (pages : list jsval) (r : Reader) :
  (pages = [] -> pageArea pages r = [LoadingText])
  /\ (isNaN (currentPage r) = false -> ~ inRange (length pages) (currentPage r) ->
      pageArea pages r = [LoadingText])
  /\ (isNaN (currentPage r) = true -> pages <> [] -> pageArea pages r = []).
Proof.
  destruct r as [page mode]. cbn [currentPage]. split; [|split].
  - intros ->. now destruct mode.
  - intros Hnum Hout. unfold inRange in Hout. unfold pageArea. cbn [currentPage viewMode].
    assert (Hlt1 : num_ltb page (of_Z 1) = negb (num_leb (of_Z 1) page)).
    { destruct page; [discriminate | reflexivity | reflexivity]. }
    assert (Hlt2 : num_ltb (of_nat (length pages)) page = negb (num_leb page (of_nat (length pages)))).
    { destruct page; [discriminate | reflexivity | reflexivity]. }
    rewrite Hlt1, Hlt2.
    destruct (num_leb (of_Z 1) page), (num_leb page (of_nat (length pages)));
      [exfalso; apply Hout; now split | | |];
      rewrite ?andb_false_r, ?orb_true_r; cbn [andb negb orb when app];
      now rewrite ?orb_true_r.
  - intros Hnan Hne. destruct page; try discriminate. unfold pageArea.
    cbn [currentPage viewMode num_leb num_ltb]. rewrite !andb_false_r. cbn [when app orb].
    destruct pages; [congruence | reflexivity].
Qed.

Lemma page_area_outside_the_list_witness :
  pageArea [] initialReader = [LoadingText]
  /\ pageArea (examplePages 3) {| currentPage := of_Z 4; viewMode := double |} = [LoadingText]
  /\ pageArea (examplePages 3) {| currentPage := NaN; viewMode := single |} = [].
Proof.
  split; [|split].
  - destruct (page_area_outside_the_list [] initialReader) as (H & _ & _).
    now apply H.
  - destruct (page_area_outside_the_list (examplePages 3)
                {| currentPage := of_Z 4; viewMode := double |}) as (_ & H & _).
    apply H; [reflexivity|]. intros [_ H']. vm_compute in H'. discriminate H'.
  - destruct (page_area_outside_the_list (examplePages 3)
                {| currentPage := NaN; viewMode := single |}) as (_ & _ & H).
    apply H; [reflexivity|]. vm_compute. discriminate.
Defined.

(** ** The controls *)

(** X9. On a whole page number inside the list, the button for the previous
    page is disabled exactly when going back would leave the page where it
    is, and the button for the next page exactly when going forward would:
    a button that is enabled always moves the page. *)
Theorem nav_buttons_disabled_iff_noop (totalPages : nat) (mode : ViewMode) (c : Z) :
  (1 <= c <= Z.of_nat totalPages)%Z ->
  let r := {| currentPage := of_Z c; viewMode := mode |} in
  (prevDisabled r = true <-> goToPrevPage r = r)
  /\ (nextDisabled totalPages r = true <-> goToNextPage totalPages r = r).
Proof.
  intros Hc r. subst r. rewrite goToPrevPage_of_Z, goToNextPage_of_Z.
  unfold prevDisabled, nextDisabled, of_nat. cbn [currentPage]. rewrite !num_leb_of_Z.
  assert (Hstep : (1 <= stepOf mode)%Z) by (destruct mode; simpl; lia).
  split; split.
  - intros H%Z.leb_le. do 2 f_equal. lia.
  - intros H. injection H as H. apply Z.leb_le. lia.
  - intros H%Z.leb_le. do 2 f_equal. lia.
  - intros H. injection H as H. apply Z.leb_le. lia.
Qed.

Lemma nav_buttons_disabled_iff_noop_witness :
  let r := {| currentPage := of_Z 9; viewMode := double |} in
  (prevDisabled r = true <-> goToPrevPage r = r)
  /\ (nextDisabled 10 r = true <-> goToNextPage 10 r = r).
Proof. apply (nav_buttons_disabled_iff_noop 10 double 9). simpl. lia. Defined.

(** X10. The arrow keys keep the page inside the list: from a page within
    [1, totalPages], whatever keys are pressed and wherever the focus is,
    the page stays within [1, totalPages] and the view mode stays what it
    was. *)
Theorem keyboard_keeps_page_in_range (totalPages : nat) (events : list KeyboardEvent)
    (r : Reader) :
  inRange totalPages (currentPage r) ->
  let r' := fold_left (fun s e => handleKeyDown totalPages e s) events r in
  inRange totalPages (currentPage r') /\ viewMode r' = viewMode r.
Proof.
  revert r. induction events as [|e events IH]; intros r Hr; [now split|].
  cbn [fold_left].
  assert (Hstep : inRange totalPages (currentPage (handleKeyDown totalPages e r))
                  /\ viewMode (handleKeyDown totalPages e r) = viewMode r).
  { unfold handleKeyDown. destruct (targetIsFormField e); [now split|].
    destruct (jsstring_eqb (key e) (str "ArrowRight")),
             (jsstring_eqb (key e) (str "ArrowLeft"));
      split; try reflexivity; try assumption;
      repeat first [apply goToPrevPage_inRange | apply goToNextPage_inRange]; assumption. }
  destruct Hstep as [Hin Hmode].
  destruct (IH _ Hin) as [Hin' Hmode']. split; [exact Hin'|congruence].
Qed.

Definition pressed (name : string) : KeyboardEvent :=
  {| key := str name; targetIsFormField := false |}.

Lemma keyboard_keeps_page_in_range_witness :
  let r' := fold_left (fun s e => handleKeyDown 3 e s)
              [pressed "ArrowRight"; pressed "ArrowRight"; pressed "a"; pressed "ArrowLeft"]
              {| currentPage := of_Z 2; viewMode := double |} in
  inRange 3 (currentPage r') /\ viewMode r' = double.
Proof.
  apply (keyboard_keeps_page_in_range 3 _ {| currentPage := of_Z 2; viewMode := double |}).
  split; reflexivity.
Defined.

(** ** The page progress bar *)

Lemma num_eqb_of_Z (a b : Z) : num_eqb (of_Z a) (of_Z b) = (a =? b)%Z.
Proof.
  unfold num_eqb. rewrite !num_leb_of_Z.
  destruct (Z.leb_spec a b), (Z.leb_spec b a), (Z.eqb_spec a b); try reflexivity; lia.
Qed.

(** X22. The progress bar has one segment for each page, in order; on a
    whole page [c] of the list the segments of the pages up to [c] are
    marked as read and the segment of page [c], and no other, is the
    highlighted one.  Without pages, or on a page that is zero or less, there
    is no bar, and the footer of the readers shows none for a single page. *)
Theorem progress_bar_segments (totalPages : nat) :
  (forall c, (1 <= c)%nat -> (1 <= totalPages)%nat ->
     exists segments,
       PageProgressBar (of_nat c) totalPages = Some segments
       /\ length segments = totalPages
       /\ forall i, (i < totalPages)%nat ->
            segments !! i = Some {| pageNumber := S i;
                                    isRead := (S i <=? c)%nat;
                                    isCurrent := (S i =? c)%nat |})
  /\ (forall page, totalPages = 0%nat \/ num_leb page (of_Z 0) = true ->
        PageProgressBar page totalPages = None)
  /\ (forall r, (totalPages <= 1)%nat -> footerProgressBar totalPages r = None).
Proof.
  split; [|split].
  - intros c Hc Htotal. unfold PageProgressBar, of_nat. rewrite !num_leb_of_Z.
    destruct (Z.leb_spec (Z.of_nat totalPages) 0); [lia|].
    destruct (Z.leb_spec (Z.of_nat c) 0); [lia|]. cbn [orb].
    eexists. split; [reflexivity|]. split; [now rewrite length_map, length_seq|].
    intros i Hi. rewrite list_lookup_fmap, lookup_seq_lt by exact Hi. cbn [fmap option_fmap option_map].
    rewrite Nat.add_0_l, Nat.add_1_r. rewrite num_leb_of_Z, num_eqb_of_Z. do 2 f_equal.
    + destruct (Z.leb_spec (Z.of_nat (S i)) (Z.of_nat c)), (Nat.leb_spec (S i) c);
        try reflexivity; lia.
    + destruct (Z.eqb_spec (Z.of_nat (S i)) (Z.of_nat c)), (Nat.eqb_spec (S i) c);
        try reflexivity; lia.
  - intros page [-> | Hpage]; unfold PageProgressBar.
    + reflexivity.
    + rewrite Hpage. now rewrite orb_true_r.
  - intros r Htotal. unfold footerProgressBar.
    destruct (Nat.ltb_spec 1 totalPages); [lia | reflexivity].
Qed.

Lemma progress_bar_segments_witness :
  exists segments,
    PageProgressBar (of_nat 2) 3 = Some segments
    /\ segments !! 1%nat = Some {| pageNumber := 2; isRead := true; isCurrent := true |}
    /\ segments !! 2%nat = Some {| pageNumber := 3; isRead := false; isCurrent := false |}.
Proof.
  destruct (progress_bar_segments 3) as [H _].
  destruct (H 2%nat) as (segments & Hbar & _ & Hsegments); [lia | lia |].
  exists segments. split; [exact Hbar|]. split; apply Hsegments; lia.
Defined.

(** ** Paging through a chapter in double view *)

Lemma double_next_steps (totalPages k : nat) :
  Nat.iter k (goToNextPage totalPages) {| currentPage := of_Z 1; viewMode := double |}
  = {| currentPage := of_Z (Z.min (1 + 2 * Z.of_nat k) (Z.max 1 (Z.of_nat totalPages)));
       viewMode := double |}
  \/ (k <> 0%nat /\ totalPages = 0%nat).
Proof.
  destruct totalPages as [|n].
  - destruct k; [left; reflexivity | right; split; [discriminate | reflexivity]].
  - left. induction k as [|k IH]; [simpl; do 2 f_equal; lia|].
    rewrite Nat.iter_succ, IH, goToNextPage_of_Z. cbn [stepOf]. do 2 f_equal. lia.
Qed.

(** X23. Double view skips no page.  Starting on page 1 of a list and
    going forward, every page of the list comes up: for each page there is a
    number of steps after which the page area holds its image. *)
Theorem double_view_shows_every_page (pages : list jsval) (j : nat) (page : jsval) :
  pages !! j = Some page ->
  exists k,
    In (Image page)
       (pageArea pages
          (Nat.iter k (goToNextPage (length pages))
             {| currentPage := of_Z 1; viewMode := double |})).
Proof.
  intros Hpage. pose proof (lookup_lt_Some _ _ _ Hpage) as Hlt.
  exists (j / 2)%nat.
  destruct (double_next_steps (length pages) (j / 2)) as [-> | [_ H0]]; [|lia].
  pose proof (Nat.div_mod_eq j 2) as Hdiv.
  pose proof (Nat.mod_upper_bound j 2 ltac:(lia)) as Hmod.
  set (c := (2 * (j / 2))%nat) in *.
  assert (Hc : Z.min (1 + 2 * Z.of_nat (j / 2)) (Z.max 1 (Z.of_nat (length pages)))
               = Z.of_nat (S c)) by lia.
  rewrite Hc. change (of_Z (Z.of_nat (S c))) with (of_nat (S c)).
  assert (Hleft : exists leftPage, pages !! c = Some leftPage).
  { apply lookup_lt_is_Some_2. lia. }
  destruct Hleft as [leftPage Hleft].
  destruct (pageArea_on_page pages c leftPage Hleft) as [_ ->].
  destruct (Nat.eq_dec (j mod 2) 0) as [Heven | Hodd].
  - replace j with c in Hpage by lia. rewrite Hleft in Hpage. injection Hpage as ->.
    destruct (pages !! S c); now left.
  - replace j with (S c) in Hpage by lia. rewrite Hpage. right. now left.
Qed.

Lemma double_view_shows_every_page_witness :
  exists k,
    In (Image (JStr (str "https://i.imgur.com/p4.png")))
       (pageArea (examplePages 5)
          (Nat.iter k (goToNextPage (length (examplePages 5)))
             {| currentPage := of_Z 1; viewMode := double |})).
Proof. exact (double_view_shows_every_page (examplePages 5) 3 _ eq_refl). Defined.
From Stdlib Require DecimalFacts DecimalPos.


(** ** Decimal numerals *)

Definition uintUnits (u : Decimal.uint) : jsstring := str (NilEmpty.string_of_uint u).

Lemma uintUnits_digits (u : Decimal.uint) : forallb isDigit (uintUnits u) = true.
Proof. induction u; [reflexivity | ..]; exact IHu. Qed.

Lemma digitsValue_acc_pos (u : Decimal.uint) (p : positive) :
  fold_left (fun acc c => (10 * acc + Z.of_N (c - 48))%Z) (uintUnits u) (Z.pos p)
  = Z.pos (Pos.of_uint_acc u p).
Proof.
  revert p. induction u; intros p; [reflexivity | ..];
    cbn [Pos.of_uint_acc]; rewrite <- IHu;
    unfold uintUnits; cbn [NilEmpty.string_of_uint list_ascii_of_string str map fold_left];
    f_equal; cbn [N_of_ascii N_of_digits]; lia.
Qed.

Lemma digitsValue_uintUnits (u : Decimal.uint) :
  digitsValue (uintUnits u) = Z.of_N (Pos.of_uint u).
Proof.
  unfold digitsValue. induction u; [reflexivity | exact IHu | ..];
    apply (digitsValue_acc_pos u).
Qed.

Lemma unorm_D0_inv (u v : Decimal.uint) : Decimal.unorm u = Decimal.D0 v -> v = Decimal.Nil.
Proof.
  induction u; intros H; try discriminate H.
  - cbv in H. congruence.
  - apply IHu. exact H.
Qed.

Lemma to_uint_normal (p : positive) : Decimal.unorm (Pos.to_uint p) = Pos.to_uint p.
Proof.
  rewrite <- (DecimalPos.Unsigned.to_of (Pos.to_uint p)).
  now rewrite DecimalPos.Unsigned.of_to.
Qed.

Lemma Z_toString_pos (p : positive) : Z_toString (Z.pos p) = uintUnits (Pos.to_uint p).
Proof.
  unfold Z_toString, uintUnits. simpl.
  pose proof (DecimalPos.Unsigned.to_uint_nonnil p) as H.
  now destruct (Pos.to_uint p).
Qed.

(** The decimal numeral of a positive integer: a digit that is not zero,
    then digits, with the integer for value. *)
Lemma Z_toString_pos_shape (p : positive) :
  exists d ds, Z_toString (Z.pos p) = d :: ds
    /\ isDigit d = true /\ (d =? 48)%N = false
    /\ forallb isDigit ds = true
    /\ digitsValue (d :: ds) = Z.pos p.
Proof.
  rewrite Z_toString_pos.
  pose proof (uintUnits_digits (Pos.to_uint p)) as Hdigits.
  pose proof (digitsValue_uintUnits (Pos.to_uint p)) as Hvalue.
  rewrite DecimalPos.Unsigned.of_to in Hvalue.
  pose proof (to_uint_normal p) as Hnorm.
  pose proof (DecimalPos.Unsigned.to_uint_nonnil p) as Hnonnil.
  pose proof (DecimalPos.Unsigned.to_uint_nonzero p) as Hnonzero.
  destruct (Pos.to_uint p) as [|u|u|u|u|u|u|u|u|u|u] eqn:E; [congruence | | ..].
  { exfalso. apply Hnonzero. f_equal. eapply unorm_D0_inv. exact Hnorm. }
  all: eexists _, (uintUnits u); repeat split; try reflexivity;
    [exact (uintUnits_digits u) | exact Hvalue].
Qed.

Lemma decimalValue_integer (ds : jsstring) :
  decimalValue ds [] 0 = of_Z (digitsValue ds).
Proof.
  unfold decimalValue, of_Z. rewrite app_nil_r. f_equal.
  rewrite <- (inject_Z_Qred (digitsValue ds)) at 2.
  apply Qred_complete. simpl. ring.
Qed.

(** A numeral of a positive integer is read back by the number parser, up
    to the comma or the brace that follows it. *)
Lemma parseNumber_Z_toString (p : positive) (c : N) (rest : jsstring) :
  c = 44%N \/ c = 125%N ->
  parseNumber (Z_toString (Z.pos p) ++ c :: rest) = Some (of_Z (Z.pos p), c :: rest).
Proof.
  intros Hc. destruct (Z_toString_pos_shape p) as (d & ds & -> & Hd & Hd0 & Hds & Hvalue).
  assert (Hminus : (d =? 45)%N = false).
  { unfold isDigit in Hd. apply andb_prop in Hd as [H1 H2].
    apply N.leb_le in H1. apply N.eqb_neq. lia. }
  unfold parseNumber, optionalMinus. cbn [app]. rewrite Hminus.
  change (d :: ds ++ c :: rest) with ((d :: ds) ++ c :: rest).
  rewrite spanDigits_app; [| simpl; now rewrite Hd, Hds | now destruct Hc as [-> | ->]].
  assert (Hlead : leadingZero (d :: ds) = false).
  { unfold leadingZero. now destruct ds. }
  rewrite Hlead. destruct Hc as [-> | ->]; cbn [parseFraction parseExponent N.eqb Pos.eqb orb];
    now rewrite decimalValue_integer, Hvalue.
Qed.

Lemma parseValue_numeral (fuel : nat) (p : positive) (c : N) (rest : jsstring) :
  c = 44%N \/ c = 125%N ->
  parseValue (S fuel) (Z_toString (Z.pos p) ++ c :: rest)
  = Parsed (JNum (of_Z (Z.pos p))) (c :: rest).
Proof.
  intros Hc. pose proof (parseNumber_Z_toString p c rest Hc) as Hnum.
  destruct (Z_toString_pos_shape p) as (d & ds & E & Hd & _).
  rewrite E in *. cbn [app] in *.
  unfold isDigit in Hd. apply andb_prop in Hd as [H1 H2].
  apply N.leb_le in H1. apply N.leb_le in H2.
  assert (Hcases : (d = 48 \/ d = 49 \/ d = 50 \/ d = 51 \/ d = 52 \/ d = 53 \/ d = 54
                    \/ d = 55 \/ d = 56 \/ d = 57)%N) by lia.
  cbn [parseValue].
  repeat (destruct Hcases as [-> | Hcases]; [cbn; cbn in Hnum; now rewrite Hnum|]).
  subst d. cbn; cbn in Hnum; now rewrite Hnum.
Qed.

(** ** Quoted strings *)

Lemma digitIn_hexDigit (d : N) : (d < 16)%N -> digitIn 16 (hexDigit d) = Some (Z.of_N d).
Proof.
  intros Hd.
  assert (Hcases : (d = 0 \/ d = 1 \/ d = 2 \/ d = 3 \/ d = 4 \/ d = 5 \/ d = 6 \/ d = 7
                    \/ d = 8 \/ d = 9 \/ d = 10 \/ d = 11 \/ d = 12 \/ d = 13 \/ d = 14
                    \/ d = 15)%N) by lia.
  repeat (destruct Hcases as [-> | Hcases]; [reflexivity|]). now subst d.
Qed.

Lemma hex4_unicodeEscape (c : N) :
  (c < 65536)%N ->
  hex4 (hexDigit (c / 4096 mod 16)) (hexDigit (c / 256 mod 16))
       (hexDigit (c / 16 mod 16)) (hexDigit (c mod 16)) = Some c.
Proof.
  intros Hc. unfold hex4.
  rewrite !digitIn_hexDigit by (apply N.mod_lt; discriminate). f_equal.
  rewrite <- !(N2Z.inj_mul _ 16), <- !N2Z.inj_add, <- !(N2Z.inj_mul _ 16), <- !N2Z.inj_add.
  rewrite <- !(N2Z.inj_mul _ 16), <- !N2Z.inj_add, N2Z.id.
  replace (c / 4096)%N with (c / 16 / 16 / 16)%N by (rewrite !N.Div0.div_div; reflexivity).
  replace (c / 256)%N with (c / 16 / 16)%N by (rewrite !N.Div0.div_div; reflexivity).
  pose proof (N.div_mod' c 16) as E1.
  pose proof (N.div_mod' (c / 16) 16) as E2.
  pose proof (N.div_mod' (c / 16 / 16) 16) as E3.
  assert (H3 : (c / 16 / 16 / 16 < 16)%N).
  { rewrite !N.Div0.div_div. apply N.Div0.div_lt_upper_bound. exact Hc. }
  rewrite (N.mod_small _ _ H3) in *. lia.
Qed.

Lemma parseStringBody_unicodeEscape (c : N) (t acc : jsstring) :
  (c < 65536)%N ->
  parseStringBody (unicodeEscape c ++ t) acc = parseStringBody t (c :: acc).
Proof.
  intros Hc. unfold unicodeEscape. cbn [app parseStringBody].
  change (92 =? 34)%N with false. change (92 =? 92)%N with true.
  change (117 =? 117)%N with true. cbn match.
  now rewrite hex4_unicodeEscape.
Qed.

Lemma parseStringBody_plain (c : N) (t acc : jsstring) :
  (c =? 34)%N = false -> (c =? 92)%N = false -> (c <? 32)%N = false ->
  parseStringBody (c :: t) acc = parseStringBody t (c :: acc).
Proof. intros H1 H2 H3. cbn [parseStringBody]. now rewrite H1, H2, H3. Qed.

Lemma parseStringBody_quoteUnit (c : N) (t acc : jsstring) :
  (c < 65536)%N ->
  parseStringBody (quoteUnit c ++ t) acc = parseStringBody t (c :: acc).
Proof.
  intros Hc. unfold quoteUnit.
  destruct (c =? 8)%N eqn:E8; [apply N.eqb_eq in E8; now subst c|].
  destruct (c =? 9)%N eqn:E9; [apply N.eqb_eq in E9; now subst c|].
  destruct (c =? 10)%N eqn:E10; [apply N.eqb_eq in E10; now subst c|].
  destruct (c =? 12)%N eqn:E12; [apply N.eqb_eq in E12; now subst c|].
  destruct (c =? 13)%N eqn:E13; [apply N.eqb_eq in E13; now subst c|].
  destruct (c =? 34)%N eqn:E34; [apply N.eqb_eq in E34; now subst c|].
  destruct (c =? 92)%N eqn:E92; [apply N.eqb_eq in E92; now subst c|].
  destruct (c <? 32)%N eqn:E32.
  - now apply parseStringBody_unicodeEscape.
  - now apply parseStringBody_plain.
Qed.

Lemma surrogate_plain (c : N) :
  isLeadingSurrogate c = true \/ isTrailingSurrogate c = true ->
  (c =? 34)%N = false /\ (c =? 92)%N = false /\ (c <? 32)%N = false.
Proof.
  unfold isLeadingSurrogate, isTrailingSurrogate.
  intros [H | H]; apply andb_prop in H as [H _]; apply N.leb_le in H;
    repeat split; first [apply N.eqb_neq | apply N.ltb_ge]; lia.
Qed.

(** What [QuoteJSONString] writes between the quotes, the string parser
    reads back as the string it was. *)
Lemma parseStringBody_quoteUnits (s rest acc : jsstring) :
  Forall (fun c => (c < 65536)%N) s ->
  parseStringBody (quoteUnits s ++ 34%N :: rest) acc = Some (rev acc ++ s, rest).
Proof.
  remember (length s) as n eqn:Hn. revert s acc Hn.
  induction n as [n IH] using lt_wf_ind. intros s acc Hn Hs.
  destruct s as [|c r].
  { cbn [quoteUnits app parseStringBody]. change (34 =? 34)%N with true.
    cbn match. now rewrite app_nil_r. }
  apply Forall_cons in Hs as [Hc Hr]. cbn [quoteUnits]. simpl in Hn.
  assert (Hone : parseStringBody (quoteUnits r ++ 34%N :: rest) (c :: acc)
                 = Some (rev acc ++ c :: r, rest)).
  { rewrite (IH (length r)); [|lia|reflexivity|exact Hr].
    cbn [rev]. now rewrite <- app_assoc. }
  destruct (isLeadingSurrogate c) eqn:Elead.
  - destruct r as [|d r'].
    + rewrite parseStringBody_unicodeEscape by exact Hc. exact Hone.
    + destruct (isTrailingSurrogate d) eqn:Etrail.
      * apply Forall_cons in Hr as [Hd Hr'].
        destruct (surrogate_plain c (or_introl Elead)) as (C1 & C2 & C3).
        destruct (surrogate_plain d (or_intror Etrail)) as (D1 & D2 & D3).
        cbn [app]. rewrite parseStringBody_plain by assumption.
        rewrite parseStringBody_plain by assumption.
        simpl in Hn. rewrite (IH (length r')); [|lia|reflexivity|exact Hr'].
        cbn [rev]. now rewrite <- !app_assoc.
      * rewrite <- app_assoc, parseStringBody_unicodeEscape by exact Hc. exact Hone.
  - destruct (isTrailingSurrogate c).
    + rewrite <- app_assoc, parseStringBody_unicodeEscape by exact Hc. exact Hone.
    + rewrite <- app_assoc, parseStringBody_quoteUnit by exact Hc. exact Hone.
Qed.

(** ** The text of a progress record *)

Lemma lt_65536_ascii (s : string) : Forall (fun c => (c < 65536)%N) (str s).
Proof.
  unfold str. apply List.Forall_forall. intros c Hc. apply in_map_iff in Hc as (a & <- & _).
  pose proof (N_ascii_bounded a). lia.
Qed.

Lemma expect_here (c : N) (r : jsstring) :
  isJSONWhiteSpace c = false -> expect c (c :: r) = Some r.
Proof. intros H. unfold expect. cbn [skipWS]. now rewrite H, N.eqb_refl. Qed.

Section ProgressText.
Context (P : Platform).

Lemma Number_toString_pos (p : positive) :
  (Z.pos p < 10 ^ 21)%Z -> Number_toString P (of_Z (Z.pos p)) = Z_toString (Z.pos p).
Proof.
  intros Hp. unfold Number_toString, of_Z. rewrite inject_Z_Qred. cbn [Qden Qnum inject_Z].
  rewrite Pos.eqb_refl. cbn [andb].
  assert (E : (Z.abs (Z.pos p) <? 10 ^ 21)%Z = true) by (apply Z.ltb_lt; exact Hp).
  now rewrite E.
Qed.

Lemma JSON_stringify_progressRecord (page total : positive) (n : nat) (lastRead : jsstring) :
  (Z.pos page < 10 ^ 21)%Z -> Z.of_nat n = Z.pos total -> (Z.pos total < 10 ^ 21)%Z ->
  JSON_stringify P (progressRecord (of_Z (Z.pos page)) n lastRead)
  = Some (123%N :: 34%N :: str "page" ++ 34%N :: 58%N :: Z_toString (Z.pos page)
          ++ 44%N :: 34%N :: str "totalPages" ++ 34%N :: 58%N :: Z_toString (Z.pos total)
          ++ 44%N :: 34%N :: str "lastRead" ++ 34%N :: 58%N :: 34%N :: quoteUnits lastRead
          ++ 34%N :: [125%N]).
Proof.
  intros Hpage Hn Htotal. unfold progressRecord, of_nat. rewrite Hn.
  cbn [JSON_stringify map concat joinWith app of_Z].
  change (Fin (inject_Z (Z.pos page))) with (of_Z (Z.pos page)).
  change (Fin (inject_Z (Z.pos total))) with (of_Z (Z.pos total)).
  rewrite !Number_toString_pos by assumption.
  unfold QuoteJSONString. f_equal.
  change (quoteUnits (str "page")) with (str "page").
  change (quoteUnits (str "totalPages")) with (str "totalPages").
  change (quoteUnits (str "lastRead")) with (str "lastRead").
  change (str "{") with [123%N]. change (str ":") with [58%N].
  change (str ",") with [44%N]. change (str "}") with [125%N].
  cbn [app]. repeat (rewrite <- ?app_assoc; cbn [app]; f_equal).
Qed.

Lemma parseValue_progress_text (fuel : nat) (page total : positive) (lastRead : jsstring) :
  Forall (fun c => (c < 65536)%N) lastRead ->
  parseValue (S (S (S (S (S fuel)))))
    (123%N :: 34%N :: str "page" ++ 34%N :: 58%N :: Z_toString (Z.pos page)
     ++ 44%N :: 34%N :: str "totalPages" ++ 34%N :: 58%N :: Z_toString (Z.pos total)
     ++ 44%N :: 34%N :: str "lastRead" ++ 34%N :: 58%N :: 34%N :: quoteUnits lastRead
     ++ 34%N :: [125%N])
  = Parsed (JObj [(str "page", JNum (of_Z (Z.pos page)));
                  (str "totalPages", JNum (of_Z (Z.pos total)));
                  (str "lastRead", JStr lastRead)]) [].
Proof.
  intros Hunits.
  cbn [parseValue skipWS]. change (isJSONWhiteSpace 123) with false. cbn match.
  change (123 =? 123)%N with true. cbn match.
  change (expect 125 (34%N :: ?r)) with (@None (list N)).
  cbn [parseMembers]. rewrite expect_here by reflexivity.
  rewrite (parseStringBody_quoteUnits (str "page") _ [] (lt_65536_ascii _)).
  rewrite expect_here by reflexivity.
  rewrite parseValue_numeral by now left.
  cbn [skipWS]. change (isJSONWhiteSpace 44) with false. cbn match.
  change (44 =? 44)%N with true. cbn match.
  cbn [parseMembers]. rewrite expect_here by reflexivity.
  rewrite (parseStringBody_quoteUnits (str "totalPages") _ [] (lt_65536_ascii _)).
  rewrite expect_here by reflexivity.
  rewrite parseValue_numeral by now left.
  cbn [skipWS]. change (isJSONWhiteSpace 44) with false. cbn match.
  change (44 =? 44)%N with true. cbn match.
  cbn [parseMembers]. rewrite expect_here by reflexivity.
  rewrite (parseStringBody_quoteUnits (str "lastRead") _ [] (lt_65536_ascii _)).
  rewrite expect_here by reflexivity.
  cbn [parseValue skipWS]. change (isJSONWhiteSpace 34) with false. cbn match.
  change (34 =? 123)%N with false. change (34 =? 91)%N with false.
  change (34 =? 34)%N with true. cbn match.
  rewrite (parseStringBody_quoteUnits lastRead [125%N] [] Hunits).
  cbn [rev app skipWS]. change (isJSONWhiteSpace 125) with false. cbn match.
  change (125 =? 44)%N with false. change (125 =? 125)%N with true. cbn match.
  reflexivity.
Qed.

End ProgressText.

Section SaveAndMount.
Context (P : Platform).

Lemma JSON_parse_progress_text (page total : positive) (n : nat) (lastRead : jsstring) :
  (Z.pos page < 10 ^ 21)%Z -> Z.of_nat n = Z.pos total -> (Z.pos total < 10 ^ 21)%Z ->
  Forall (fun c => (c < 65536)%N) lastRead ->
  exists text,
    JSON_stringify P (progressRecord (of_Z (Z.pos page)) n lastRead) = Some text
    /\ text <> []
    /\ JSON_parse text = Some (progressRecord (of_Z (Z.pos page)) n lastRead).
Proof.
  intros Hpage Hn Htotal Hunits. eexists. split; [|split].
  - now apply (JSON_stringify_progressRecord P page total).
  - discriminate.
  - unfold JSON_parse.
    match goal with |- context [parseValue ?f (123%N :: 34%N :: ?t)] =>
      replace f with (S (S (S (S (S (2 * length t)))))) by (cbn [length]; lia)
    end.
    rewrite parseValue_progress_text by exact Hunits. cbn [skipWS].
    unfold progressRecord, of_nat. now rewrite Hn.
Qed.

Lemma mount_after_save (progressKey : jsstring) (n n' : nat) (r r' : Reader) (c : Z)
    (lastRead : jsstring) (ls : gmap jsstring jsstring) :
  currentPage r = of_Z c -> (1 <= c <= Z.of_nat n)%Z -> (Z.of_nat n < 2 ^ 32)%Z ->
  Forall (fun u => (u < 65536)%N) lastRead ->
  mount P progressKey n' r' (saveEffect P true progressKey n r lastRead ls)
  = ok ({| currentPage := of_Z (Z.max 1 (Z.min c (Z.of_nat n'))); viewMode := viewMode r' |},
        saveEffect P true progressKey n r lastRead ls).
Proof.
  intros Hr Hc Hn Hunits.
  destruct c as [|page|]; [lia | | lia].
  destruct (Z.of_nat n) as [|total|] eqn:En; [lia | | lia].
  assert (Hbound : (2 ^ 32 < 10 ^ 21)%Z) by reflexivity.
  destruct (JSON_parse_progress_text page total n lastRead) as (text & Htext & Hne & Hparse);
    [lia | exact En | lia | exact Hunits |].
  unfold saveEffect. rewrite Hr, Htext. cbn [default from_option id andb].
  assert (H0 : (0 <? n)%nat = true) by (apply Nat.ltb_lt; lia).
  rewrite H0, num_ltb_of_Z. cbn [Z.ltb Z.compare andb].
  rewrite (mount_record P progressKey n' r' _ text (lookup_insert_eq _ _ _) Hne).
  rewrite (savedPage_number P text _ n' (of_Z (Z.pos page)) Hparse eq_refl eq_refl).
  do 3 f_equal. unfold of_nat.
  destruct n' as [|n']; cbn [Nat.eqb].
  - rewrite Math_min_of_Z, Math_max_of_Z. f_equal. lia.
  - now rewrite Math_min_of_Z, Math_max_of_Z.
Qed.

End SaveAndMount.

(** X11. Writing a progress record and reading it back gives the record:
    for a page that is a positive whole number below 1e21, a list of at
    least one and fewer than 1e21 pages and any time stamp,
    [JSON.parse(JSON.stringify({page, totalPages, lastRead}))] is an object
    with these three properties, in this order, with these values. *)
Theorem progress_record_round_trip (P : Platform) (page : Z) (n : nat) (lastRead : jsstring) :
  (1 <= page < 10 ^ 21)%Z -> (1 <= Z.of_nat n < 10 ^ 21)%Z ->
  Forall (fun c => (c < 65536)%N) lastRead ->
  exists text,
    JSON_stringify P (progressRecord (of_Z page) n lastRead) = Some text
    /\ JSON_parse text
       = Some (JObj [(str "page", JNum (of_Z page));
                     (str "totalPages", JNum (of_nat n));
                     (str "lastRead", JStr lastRead)]).
Proof.
  intros Hpage Hn Hunits.
  destruct page as [|page|]; [lia | | lia].
  destruct (Z.of_nat n) as [|total|] eqn:En; [lia | | lia].
  destruct (JSON_parse_progress_text P page total n lastRead) as (text & Htext & _ & Hparse);
    [lia | exact En | lia | exact Hunits |].
  exists text. now split.
Qed.

Definition exampleTime : jsstring := str "2025-04-01T12:30:00.000Z".

Lemma progress_record_round_trip_witness :
  exists text,
    JSON_stringify examplePlatform (progressRecord (of_Z 7) 12 exampleTime) = Some text
    /\ JSON_parse text
       = Some (JObj [(str "page", JNum (of_Z 7));
                     (str "totalPages", JNum (of_nat 12));
                     (str "lastRead", JStr exampleTime)]).
Proof.
  apply (progress_record_round_trip examplePlatform 7 12 exampleTime).
  - split; [lia | reflexivity].
  - split; [simpl; lia | reflexivity].
  - apply lt_65536_ascii.
Defined.

(** X12. Progress that was saved is what the next visit resumes from.  When
    the session is on a whole page [c] of a list of pages, the record the
    save effect writes makes a later mount of the same gist chapter, or of
    the same album, start on page [c] again; when the list has changed
    length in between, on [c] cut down to the new number of pages, and on
    page 1 when the list is empty.  The mount leaves the record in place. *)
Theorem saved_progress_is_restored (P : Platform) (pages pages' : list jsval)
    (r r' : Reader) (c : Z) (lastRead : jsstring) (ls : gmap jsstring jsstring) :
  currentPage r = of_Z c -> (1 <= c <= Z.of_nat (length pages))%Z ->
  (Z.of_nat (length pages) < 2 ^ 32)%Z ->
  Forall (fun u => (u < 65536)%N) lastRead ->
  let resumed :=
    {| currentPage := of_Z (Z.max 1 (Z.min c (Z.of_nat (length pages'))));
       viewMode := viewMode r' |} in
  (forall gistId chapterKey, gistId <> [] -> chapterKey <> [] ->
     let saved := GistReaderClient_save P gistId chapterKey pages r lastRead ls in
     GistReaderClient_mount P gistId chapterKey pages' r' saved = ok (resumed, saved))
  /\ (forall albumId, albumId <> [] ->
     let saved := ImgurReaderClient_save P albumId pages r lastRead ls in
     ImgurReaderClient_mount P albumId pages' r' saved = ok (resumed, saved)).
Proof.
  intros Hr Hc Hn Hunits resumed. split.
  - intros gistId chapterKey Hg Hk saved. subst saved resumed.
    unfold GistReaderClient_save, GistReaderClient_mount.
    destruct gistId; [congruence|]. destruct chapterKey; [congruence|]. cbn [ToBoolean andb].
    now apply mount_after_save.
  - intros albumId Ha saved. subst saved resumed.
    unfold ImgurReaderClient_save, ImgurReaderClient_mount.
    destruct albumId; [congruence|]. cbn [ToBoolean].
    now apply mount_after_save.
Qed.

Lemma saved_progress_is_restored_witness :
  let r := {| currentPage := of_Z 7; viewMode := double |} in
  let saved :=
    GistReaderClient_save examplePlatform (str "abc") (str "1") (examplePages 12) r
      exampleTime ∅ in
  GistReaderClient_mount examplePlatform (str "abc") (str "1") (examplePages 5)
    initialReader saved
  = ok ({| currentPage := of_Z 5; viewMode := single |}, saved).
Proof.
  intros r saved.
  destruct (saved_progress_is_restored examplePlatform (examplePages 12) (examplePages 5)
              r initialReader 7 exampleTime ∅) as [H _].
  - reflexivity.
  - simpl. lia.
  - reflexivity.
  - apply lt_65536_ascii.
  - apply (H (str "abc") (str "1")); discriminate.
Defined.

(** ** Progress keys *)

Lemma hyphen_split (g1 g2 c1 c2 : jsstring) :
  ~ In 45%N g1 -> ~ In 45%N g2 ->
  g1 ++ 45%N :: c1 = g2 ++ 45%N :: c2 -> g1 = g2 /\ c1 = c2.
Proof.
  revert g2. induction g1 as [|x g1 IH]; intros [|y g2] H1 H2 E; simpl in *.
  - injection E as ->. now split.
  - injection E as <- _. tauto.
  - injection E as -> _. tauto.
  - injection E as -> E. destruct (IH g2) as [-> ->]; tauto.
Qed.

Lemma gistProgressKey_inj (g1 g2 c1 c2 : jsstring) :
  ~ In 45%N g1 -> ~ In 45%N g2 ->
  gistProgressKey g1 c1 = gistProgressKey g2 c2 -> g1 = g2 /\ c1 = c2.
Proof.
  intros H1 H2 E. unfold gistProgressKey in E. apply app_inv_head in E.
  now apply hyphen_split.
Qed.

Lemma gist_key_not_imgur_key (gistId chapterKey albumId : jsstring) :
  gistProgressKey gistId chapterKey <> imgurProgressKey albumId.
Proof. intros E. vm_compute in E. congruence. Qed.

Lemma saveEffect_other_key (P : Platform) (identity : bool) (k k' : jsstring) (n : nat)
    (r : Reader) (lastRead : jsstring) (ls : gmap jsstring jsstring) :
  k <> k' -> saveEffect P identity k n r lastRead ls !! k' = ls !! k'.
Proof.
  intros Hk. unfold saveEffect.
  destruct (identity && (0 <? n)%nat && num_ltb (of_Z 0) (currentPage r)); [|reflexivity].
  now apply lookup_insert_ne.
Qed.

Lemma mount_other_key (P : Platform) (k k' : jsstring) (n : nat) (r r' : Reader)
    (ls ls' : gmap jsstring jsstring) :
  k <> k' -> mount P k n r ls = ok (r', ls') -> ls' !! k' = ls !! k'.
Proof.
  intros Hk. unfold mount, mountEffect.
  destruct (ls !! k) as [[|c text]|]; [intros [= _ <-]; reflexivity | | intros [= _ <-]; reflexivity].
  destruct (savedPage P (c :: text) n); cbn [tryCatch bind fst snd]; intros [= _ <-];
    [reflexivity|]. now apply lookup_delete_ne.
Qed.

(** X13. Reading one chapter leaves the saved progress of every other
    chapter and album alone.  The record of a gist chapter is kept under a
    key that no album shares and, for gist ids without a hyphen (they are
    hexadecimal), no other chapter of any gist; saving and mounting write
    or delete under their own key only. *)
Theorem progress_of_other_chapters_is_kept (P : Platform) (gistId chapterKey : jsstring)
    (pages : list jsval) (r : Reader) (lastRead : jsstring) (ls : gmap jsstring jsstring) :
  ~ In 45%N gistId ->
  let saved := GistReaderClient_save P gistId chapterKey pages r lastRead ls in
  (forall gistId' chapterKey', ~ In 45%N gistId' ->
     (gistId', chapterKey') <> (gistId, chapterKey) ->
     saved !! gistProgressKey gistId' chapterKey' = ls !! gistProgressKey gistId' chapterKey'
     /\ forall r' ls', GistReaderClient_mount P gistId chapterKey pages r ls = ok (r', ls') ->
          ls' !! gistProgressKey gistId' chapterKey' = ls !! gistProgressKey gistId' chapterKey')
  /\ (forall albumId,
     saved !! imgurProgressKey albumId = ls !! imgurProgressKey albumId
     /\ forall r' ls', GistReaderClient_mount P gistId chapterKey pages r ls = ok (r', ls') ->
          ls' !! imgurProgressKey albumId = ls !! imgurProgressKey albumId).
Proof.
  intros Hg saved. subst saved. unfold GistReaderClient_save, GistReaderClient_mount. split.
  - intros gistId' chapterKey' Hg' Hother.
    assert (Hk : gistProgressKey gistId chapterKey <> gistProgressKey gistId' chapterKey').
    { intros E. apply gistProgressKey_inj in E as [-> ->]; [congruence | exact Hg | exact Hg']. }
    split; [now apply saveEffect_other_key|].
    intros r' ls'. now apply mount_other_key.
  - intros albumId. pose proof (gist_key_not_imgur_key gistId chapterKey albumId) as Hk.
    split; [now apply saveEffect_other_key|].
    intros r' ls'. now apply mount_other_key.
Qed.

Lemma progress_of_other_chapters_is_kept_witness :
  let ls : gmap jsstring jsstring :=
    {[ gistProgressKey (str "abc") (str "2") := exampleRecord ]} in
  GistReaderClient_save examplePlatform (str "abc") (str "1") (examplePages 3)
    initialReader exampleTime ls !! gistProgressKey (str "abc") (str "2")
  = Some exampleRecord.
Proof.
  intros ls.
  destruct (progress_of_other_chapters_is_kept examplePlatform (str "abc") (str "1")
              (examplePages 3) initialReader exampleTime ls) as [H _].
  - vm_compute. intuition discriminate.
  - destruct (H (str "abc") (str "2")) as [-> _].
    + vm_compute. intuition discriminate.
    + discriminate.
    + reflexivity.
Defined.

(** ** Sorting numeric chapter keys *)

(** Every element is at most every later one. *)
Fixpoint ascending (values : list number) : Prop :=
  match values with
  | [] => True
  | a :: rest => Forall (fun b => num_leb a b = true) rest /\ ascending rest
  end.

Lemma insertSorted_ascending (P : Platform) (x : jsstring) (sorted : list jsstring) :
  numericKey x -> Forall numericKey sorted ->
  ascending (map parseFloat sorted) ->
  ascending (map parseFloat (insertSorted (chapterKeyCompare P) x sorted)).
Proof.
  intros Hx. induction sorted as [|y rest IH]; intros Hnum Hasc.
  - simpl. split; [constructor | exact I].
  - apply Forall_cons in Hnum as [Hy Hrest]. cbn [map ascending] in Hasc.
    destruct Hasc as [Hhead Htail]. cbn [insertSorted].
    rewrite chapterKeyCompare_numeric by assumption.
    destruct (num_leb (parseFloat y) (parseFloat x)) eqn:Hle; cbn [negb].
    + cbn [map ascending]. split; [|now apply IH].
      apply List.Forall_forall. intros v Hv. apply in_map_iff in Hv as (k & <- & Hk).
      apply (Permutation_in _ (Permutation_sym (insertSorted_Permutation _ x rest))) in Hk.
      destruct Hk as [<- | Hk]; [exact Hle|].
      rewrite List.Forall_forall in Hhead. apply Hhead. now apply in_map.
    + apply num_leb_total in Hle; [|exact Hy|exact Hx].
      cbn [map ascending]. repeat split; [|exact Hhead|exact Htail].
      constructor; [exact Hle|].
      apply List.Forall_forall. intros v Hv. rewrite List.Forall_forall in Hhead.
      eapply num_leb_trans; [exact Hle|]. now apply Hhead.
Qed.

Lemma sortChapterKeys_ascending (P : Platform) (keys : list jsstring) :
  Forall numericKey keys -> ascending (map parseFloat (sortChapterKeys P keys)).
Proof.
  unfold sortChapterKeys, Array_sort.
  assert (H : forall sorted, Forall numericKey keys -> Forall numericKey sorted ->
            ascending (map parseFloat sorted) ->
            ascending (map parseFloat
              (fold_left (fun sorted x => insertSorted (chapterKeyCompare P) x sorted)
                 keys sorted))).
  { induction keys as [|x keys IH]; intros sorted Hkeys Hsorted Hasc; [exact Hasc|].
    apply Forall_cons in Hkeys as [Hx Hkeys]. cbn [fold_left]. apply IH; [exact Hkeys | |].
    - apply List.Forall_forall. intros k Hk.
      apply (Permutation_in _ (Permutation_sym (insertSorted_Permutation _ x sorted))) in Hk.
      rewrite List.Forall_forall in Hsorted. destruct Hk as [<- | Hk]; auto.
    - now apply insertSorted_ascending. }
  intros Hkeys. apply H; [exact Hkeys | constructor | exact I].
Qed.

Lemma ascending_last (values : list number) (v top : number) :
  ascending values -> last values = Some top -> In v values ->
  v = top \/ num_leb v top = true.
Proof.
  induction values as [|a rest IH]; [intros _ [=]|].
  intros [Hhead Htail] Hlast Hv.
  destruct rest as [|b rest'].
  - injection Hlast as <-. destruct Hv as [-> | []]. now left.
  - change (last (a :: b :: rest')) with (last (b :: rest')) in Hlast.
    destruct Hv as [<- | Hv].
    + right. rewrite List.Forall_forall in Hhead. apply Hhead.
      apply last_Some in Hlast as (l' & ->). apply in_or_app. right. now left.
    + now apply IH.
Qed.



(** X15. The chapter offered as the latest one on the info page is a chapter
    of the manifest with the greatest number: when every key starts with a
    number and there is at least one chapter, [latestChapterKey] is one of
    the keys and no key has a greater number. *)
Theorem latest_chapter_has_greatest_number (P : Platform) (keys : list jsstring) :
  Forall (fun k => isNaN (parseFloat k) = false) keys -> keys <> [] ->
  exists latest,
    latestChapterKey P keys = Some latest
    /\ In latest keys
    /\ forall k, In k keys -> num_leb (parseFloat k) (parseFloat latest) = true.
Proof.
  intros Hkeys Hne. unfold latestChapterKey.
  pose proof (Array_sort_Permutation (chapterKeyCompare P) keys) as Hperm.
  fold (sortChapterKeys P keys) in Hperm.
  pose proof (sortChapterKeys_ascending P keys Hkeys) as Hasc.
  destruct (last (sortChapterKeys P keys)) as [latest|] eqn:Hlast.
  - exists latest. split; [reflexivity|].
    assert (Hin : In latest (sortChapterKeys P keys)).
    { apply last_Some in Hlast as (l' & ->). apply in_or_app. right. now left. }
    split; [now apply (Permutation_in _ (Permutation_sym Hperm))|].
    intros k Hk. apply (Permutation_in _ Hperm) in Hk.
    destruct (ascending_last (map parseFloat (sortChapterKeys P keys))
                (parseFloat k) (parseFloat latest) Hasc) as [-> | H].
    + apply last_Some in Hlast as (l' & ->). rewrite map_app. apply last_snoc.
    + now apply in_map.
    + rewrite List.Forall_forall in Hkeys.
      pose proof (Hkeys latest (Permutation_in _ (Permutation_sym Hperm) Hin)) as Hnum.
      simpl in Hnum. destruct (parseFloat latest) as [|[|]|q]; try discriminate; try reflexivity.
      apply num_leb_Fin. apply Qle_refl.
    + exact H.
  - apply last_None in Hlast. rewrite Hlast in Hperm.
    apply Permutation_nil_r in Hperm. congruence.
Qed.

Lemma latest_chapter_has_greatest_number_witness :
  exists latest,
    latestChapterKey examplePlatform [str "10"; str "2.5"; str "1"] = Some latest
    /\ In latest [str "10"; str "2.5"; str "1"]
    /\ forall k, In k [str "10"; str "2.5"; str "1"] ->
         num_leb (parseFloat k) (parseFloat latest) = true.
Proof.
  apply (latest_chapter_has_greatest_number examplePlatform [str "10"; str "2.5"; str "1"]).
  - repeat constructor.
  - discriminate.
Defined.

(** Keys that differ only beyond the precision of a double have the same
    number: the sort leaves them in the order of the manifest, and the later
    one is the latest chapter. *)
Lemma keys_of_one_double_keep_their_order :
  parseFloat (str "1.00000000000000001") = parseFloat (str "1")
  /\ sortChapterKeys examplePlatform [str "1.00000000000000001"; str "1"]
     = [str "1.00000000000000001"; str "1"]
  /\ latestChapterKey examplePlatform [str "1.00000000000000001"; str "1"] = Some (str "1").
Proof. repeat split; vm_compute; reflexivity. Qed.

(** ** The server pages *)

(** X16. What the Imgur reader page shows when the album is not cached.
    Without an album id it shows the invalid-parameters view and fetches
    nothing.  Otherwise it shows the reader exactly when the fetch returns,
    and then with a list of pages that is not empty and is now cached; when
    the fetch fails it shows the error view with the message of the failure
    behind [Failed to load album: ], and the cache is as it was.  The page
    itself never throws. *)
Theorem imgur_page_shows_reader_or_error (P : Platform) (albumId : jsstring) (w : World) :
  albumCache w !! (str "imgur-" ++ albumId) = None ->
  let shown := ImgurReaderPage P albumId w in
  (albumId = [] /\ shown = (ok ImgurInvalidParameters, w))
  \/ (albumId <> [] /\ exists pages,
        fst (fetchImgurAlbumPages albumId w) = ok pages
        /\ pages <> []
        /\ fst shown = ok (ImgurReader albumId pages)
        /\ albumCache (snd shown) !! (str "imgur-" ++ albumId) = Some pages)
  \/ (albumId <> [] /\ exists cause,
        fst (fetchImgurAlbumPages albumId w) = throw cause
        /\ fst shown
           = ok (ErrorLoadingAlbum (str "Failed to load album: " ++ errorMessage P cause))
        /\ albumCache (snd shown) = albumCache w).
Proof.
  intros Hmiss shown. subst shown. unfold ImgurReaderPage.
  destruct albumId as [|c albumId]; [left; now split|]. right.
  cbn [ToBoolean negb].
  set (id := c :: albumId) in *.
  assert (Hid : id <> []) by discriminate.
  assert (Hcases : IMGUR_CLIENT_ID w = None \/ IMGUR_CLIENT_ID w = Some []
                   \/ exists clientId, IMGUR_CLIENT_ID w = Some clientId /\ clientId <> []).
  { destruct (IMGUR_CLIENT_ID w) as [[|x clientId]|]; auto.
    right. right. eexists. split; [reflexivity | discriminate]. }
  destruct Hcases as [Hno | [Hno | (clientId & Hclient & Hne)]].
  1, 2: right; split; [exact Hid|]; exists AuthError;
    rewrite (fetchImgurAlbumPages_no_credential id w Hmiss) by auto; now repeat split.
  rewrite (fetchImgurAlbumPages_miss id clientId w Hmiss Hclient Hne).
  destruct (fst (requestAlbumPages id clientId w)) as [pages|cause] eqn:Hrequest.
  - left. split; [exact Hid|]. exists pages. cbn [fst snd].
    repeat split; [now apply (requestAlbumPages_nonempty id clientId w) |].
    cbn. apply lookup_insert_eq.
  - right. split; [exact Hid|]. exists cause. now repeat split.
Qed.

Lemma imgur_page_shows_reader_or_error_witness :
  exists pages,
    fst (ImgurReaderPage examplePlatform (str "abc123")
           (exampleWorld (fun _ _ => Some albumResponse)))
    = ok (ImgurReader (str "abc123") pages)
    /\ pages <> [].
Proof.
  destruct (imgur_page_shows_reader_or_error examplePlatform (str "abc123")
              (exampleWorld (fun _ _ => Some albumResponse)) eq_refl)
    as [[H _] | [(_ & pages & _ & Hne & Hshown & _) | (_ & cause & H & _)]].
  - discriminate H.
  - exists pages. now split.
  - vm_compute in H. discriminate H.
Defined.

Section GistReaderPageFacts.
Context (P : Platform) (inherits : jsval -> jsstring -> bool).

Lemma chapterPages_ok (config : jsval) (chapterKey : jsstring) (pages : list jsval) :
  chapterPages inherits config chapterKey = ok pages ->
  pages <> [] /\ forallb isString pages = true
  /\ exists chapters chapter groups firstGroupName rest,
       Get config (str "chapters") = ok chapters
       /\ ownProperty chapters chapterKey = Some chapter
       /\ Get chapter (str "groups") = ok groups
       /\ Object_keys groups = ok (firstGroupName :: rest)
       /\ ownProperty groups firstGroupName = Some (JArr pages).
Proof.
  unfold chapterPages. intros H.
  assert (Hmember : exists chapters,
             Get config (str "chapters") = ok chapters
             /\ match member inherits chapters chapterKey with
                | ok chapterData =>
                    (if match chapterData with
                        | Own chapter => negb (ToBoolean chapter)
                        | Inherited => false
                        | Absent => true
                        end
                     then throw (ChapterNotFoundError chapterKey)
                     else
                       groups <- match chapterData with
                                 | Own chapter => Get chapter (str "groups")
                                 | _ => ok JUndefined
                                 end ;;
                       groupKeys <- Object_keys (orElse groups (JObj [])) ;;
                       match groupKeys with
                       | [] => throw (NoGroupsError chapterKey)
                       | firstGroupName :: _ =>
                           match default JUndefined (ownProperty groups firstGroupName) with
                           | JArr ((_ :: _) as sourceData) =>
                               if forallb isString sourceData then ok sourceData
                               else throw (InvalidSourceError chapterKey firstGroupName)
                           | _ => throw (InvalidSourceError chapterKey firstGroupName)
                           end
                       end)
                | throw e => throw e
                end = ok pages).
  { destruct config; try discriminate H;
      (destruct (Get _ (str "chapters")) as [chapters|] eqn:Hchapters;
       [|discriminate H]); exists chapters; (split; [reflexivity|]);
      cbn [bind] in H; destruct (member inherits chapters chapterKey); exact H. }
  clear H. destruct Hmember as (chapters & Hchapters & H).
  destruct (member inherits chapters chapterKey) as [chapterData|] eqn:Hmember;
    [|discriminate H].
  assert (Hown : forall x, chapterData = Own x -> ownProperty chapters chapterKey = Some x).
  { intros x ->. unfold member in Hmember.
    destruct (ownProperty chapters chapterKey) as [y|] eqn:E.
    - destruct chapters; try discriminate Hmember; congruence.
    - destruct chapters; try discriminate Hmember;
        destruct (inherits _ chapterKey); discriminate Hmember. }
  destruct chapterData as [chapter| |]; [| |discriminate H].
  - destruct (negb (ToBoolean chapter)); [discriminate H|].
    destruct (Get chapter (str "groups")) as [groups|] eqn:Hgroups; [|discriminate H].
    cbn [bind] in H.
    destruct (Object_keys (orElse groups (JObj []))) as [[|name rest]|] eqn:Hkeys;
      try discriminate H. cbn [bind] in H.
    assert (Htruthy : orElse groups (JObj []) = groups).
    { unfold orElse in *. destruct (ToBoolean groups); [reflexivity|]. discriminate Hkeys. }
    rewrite Htruthy in Hkeys.
    destruct (ownProperty groups name) as [sourceData|] eqn:Hsource; [|discriminate H].
    cbn [default from_option id] in H.
    destruct sourceData as [| | | | |[|x items]|]; try discriminate H.
    destruct (forallb isString (x :: items)) eqn:Hstrings; [|discriminate H].
    injection H as <-. split; [discriminate|]. split; [exact Hstrings|].
    exists chapters, chapter, groups, name, rest. repeat split; auto.
  - cbn in H. discriminate H.
Qed.

Lemma chapterPages_inherited (config chapters : jsval) (chapterKey : jsstring) :
  Get config (str "chapters") = ok chapters ->
  config <> JUndefined -> config <> JNull ->
  chapters <> JUndefined -> chapters <> JNull ->
  ownProperty chapters chapterKey = None -> inherits chapters chapterKey = true ->
  chapterPages inherits config chapterKey = throw (NoGroupsError chapterKey).
Proof.
  intros Hchapters Hc1 Hc2 Hs1 Hs2 Hown Hinherits. unfold chapterPages.
  assert (E : member inherits chapters chapterKey = ok Inherited).
  { unfold member. rewrite Hown, Hinherits. now destruct chapters. }
  destruct config; try congruence; rewrite Hchapters; cbn [bind]; now rewrite E.
Qed.

End GistReaderPageFacts.

(** X17. The gist reader page hands the reader client the pages of the
    chapter that the address names.  When it shows the reader, the
    configuration is the one the fetch returned, the chapter is an own
    property of its [chapters] under the chapter key, and the pages are the
    value of the first group of that chapter: a list that is not empty and
    holds strings only. *)
Theorem gist_page_reader_gets_first_group (P : Platform)
    (inherits : jsval -> jsstring -> bool) (gistId chapterKey : jsstring) (w : World)
    (id key : jsstring) (pages : list jsval) (config : jsval) :
  fst (GistReaderPage P inherits gistId chapterKey w) = ok (GistReader id key pages config) ->
  id = gistId /\ key = chapterKey
  /\ fst (fetchGistConfig P gistId w) = ok config
  /\ pages <> [] /\ forallb isString pages = true
  /\ exists chapters chapter groups firstGroupName rest,
       Get config (str "chapters") = ok chapters
       /\ ownProperty chapters chapterKey = Some chapter
       /\ Get chapter (str "groups") = ok groups
       /\ Object_keys groups = ok (firstGroupName :: rest)
       /\ ownProperty groups firstGroupName = Some (JArr pages).
Proof.
  unfold GistReaderPage.
  destruct (negb (ToBoolean (JStr gistId)) || negb (ToBoolean (JStr chapterKey)));
    [discriminate|]. cbn [fst].
  destruct (fst (fetchGistConfig P gistId w)) as [fetched|cause]; cbn [bind].
  - destruct (chapterPages inherits fetched chapterKey) as [found|cause] eqn:Hpages.
    + destruct (negb (ToBoolean fetched)); [discriminate|].
      intros [= <- <- <- <-]. repeat split; try reflexivity;
        now apply (chapterPages_ok inherits fetched chapterKey found).
    + cbn [ToBoolean]. destruct (str "Failed to load chapter: " ++ errorMessage P cause) eqn:E;
        [vm_compute in E; discriminate E | discriminate].
  - cbn [ToBoolean]. destruct (str "Failed to load chapter: " ++ errorMessage P cause) eqn:E;
      [vm_compute in E; discriminate E | discriminate].
Qed.

Definition exampleManifest : jsval :=
  JObj [(str "title", JStr (str "Example"));
        (str "chapters",
         JObj [(str "1",
                JObj [(str "title", JStr (str "One"));
                      (str "groups",
                       JObj [(str "scans",
                              JArr [JStr (str "https://i.imgur.com/p1.png");
                                    JStr (str "https://i.imgur.com/p2.png")])])])])].

Definition cachedWorld : World :=
  with_gistCache {[ str "gist-abc" := exampleManifest ]} (exampleWorld (fun _ _ => None)).

Definition noPrototype (v : jsval) (k : jsstring) : bool := false.

Lemma gist_page_reader_gets_first_group_witness :
  exists pages,
    fst (GistReaderPage examplePlatform noPrototype (str "abc") (str "1") cachedWorld)
    = ok (GistReader (str "abc") (str "1") pages exampleManifest)
    /\ pages <> [] /\ forallb isString pages = true.
Proof.
  eexists. split; [reflexivity|].
  destruct (gist_page_reader_gets_first_group examplePlatform noPrototype
              (str "abc") (str "1") cachedWorld _ _ _ _ eq_refl)
    as (_ & _ & _ & Hne & Hstrings & _).
  now split.
Defined.

(** X18. The gist reader page never throws, and its last error view is
    dead: whatever the fetch and the configuration do, the page shows the
    invalid-parameters view, the reader, or the chapter error view with the
    message of the failure behind [Failed to load chapter: ]; the view for
    a missing configuration is never shown.  A chapter key that is no
    chapter but a name of the prototype chain is reported as a chapter
    without groups, not as a chapter that is not found. *)
Theorem gist_page_error_views (P : Platform) (inherits : jsval -> jsstring -> bool)
    (gistId chapterKey : jsstring) (w : World) :
  (exists view,
     fst (GistReaderPage P inherits gistId chapterKey w) = ok view
     /\ view <> ErrorLoadingConfiguration
     /\ forall message, view = ErrorLoadingChapter message ->
          exists cause,
            message = str "Failed to load chapter: " ++ errorMessage P cause
            /\ (fst (fetchGistConfig P gistId w) = throw cause
                \/ exists config, fst (fetchGistConfig P gistId w) = ok config
                     /\ chapterPages inherits config chapterKey = throw cause))
  /\ (forall fields, lookupField fields chapterKey = None ->
        inherits (JObj fields) chapterKey = true ->
        forall config, Get config (str "chapters") = ok (JObj fields) ->
          chapterPages inherits config chapterKey = throw (NoGroupsError chapterKey)).
Proof.
  split.
  - unfold GistReaderPage.
    destruct (negb (ToBoolean (JStr gistId)) || negb (ToBoolean (JStr chapterKey))).
    { eexists. split; [reflexivity|]. split; [discriminate|]. discriminate. }
    cbn [fst].
    destruct (fst (fetchGistConfig P gistId w)) as [fetched|cause]; cbn [bind].
    + destruct (chapterPages inherits fetched chapterKey) as [found|cause] eqn:Hpages.
      * destruct (negb (ToBoolean fetched)) eqn:Hfalsy.
        { exfalso.
          apply chapterPages_ok in Hpages
            as (_ & _ & chapters & chapter & _ & _ & _ & Hget & Hown & _).
          destruct fetched; try discriminate Hfalsy; try discriminate Hget;
            injection Hget as <-; discriminate Hown. }
        eexists. split; [reflexivity|]. split; discriminate.
      * cbn [ToBoolean].
        destruct (str "Failed to load chapter: " ++ errorMessage P cause) eqn:E;
          [vm_compute in E; discriminate E|]. rewrite <- E.
        eexists. split; [reflexivity|]. split; [discriminate|].
        intros message [= <-]. exists cause. split; [reflexivity|]. right. now exists fetched.
    + cbn [ToBoolean].
      destruct (str "Failed to load chapter: " ++ errorMessage P cause) eqn:E;
        [vm_compute in E; discriminate E|]. rewrite <- E.
      eexists. split; [reflexivity|]. split; [discriminate|].
      intros message [= <-]. exists cause. split; [reflexivity|]. now left.
  - intros fields Hown Hinherits config Hchapters.
    apply (chapterPages_inherited inherits config (JObj fields)); try assumption;
      try discriminate; intros ->; discriminate Hchapters.
Qed.

Definition objectPrototype (v : jsval) (k : jsstring) : bool :=
  jsstring_eqb k (str "constructor") || jsstring_eqb k (str "toString").

Lemma gist_page_error_views_witness :
  fst (GistReaderPage examplePlatform objectPrototype (str "abc") (str "constructor")
         cachedWorld)
  = ok (ErrorLoadingChapter
          (str "Failed to load chapter: No image source groups found for Chapter 'constructor'.")).
Proof.
  destruct (gist_page_error_views examplePlatform objectPrototype (str "abc")
              (str "constructor") cachedWorld) as [(view & Hview & _) _].
  rewrite Hview. vm_compute in Hview. now injection Hview as <-.
Defined.

(** ** The home page *)

Lemma spanWhile_inv (p : N -> bool) (s run rest : jsstring) :
  spanWhile p s = (run, rest) -> s = run ++ rest /\ forallb p run = true.
Proof.
  revert run rest. induction s as [|c s IH]; intros run rest; simpl.
  - intros [= <- <-]. now split.
  - destruct (p c) eqn:Hc.
    + destruct (spanWhile p s) as [run' rest'] eqn:E. intros [= <- <-].
      destruct (IH run' rest' eq_refl) as [-> Hrun]. simpl. now rewrite Hc, Hrun.
    + intros [= <- <-]. now split.
Qed.

Lemma spanWhile_app (p : N -> bool) (run rest : jsstring) :
  forallb p run = true ->
  match rest with [] => True | c :: _ => p c = false end ->
  spanWhile p (run ++ rest) = (run, rest).
Proof.
  intros Hrun Hrest. induction run as [|c run IH]; simpl.
  - destruct rest as [|c rest]; [reflexivity|]. simpl. now rewrite Hrest.
  - simpl in Hrun. apply andb_prop in Hrun as [Hc Hrun]. now rewrite Hc, IH.
Qed.

Lemma matchFirst_inv (here : jsstring -> option jsstring) (s group : jsstring) :
  matchFirst here s = Some group ->
  exists before t, s = before ++ t /\ here t = Some group.
Proof.
  induction s as [|c s IH]; cbn [matchFirst].
  - destruct (here []) eqn:E; [|discriminate]. intros [= <-]. now exists [], [].
  - destruct (here (c :: s)) eqn:E.
    + intros [= <-]. now exists [], (c :: s).
    + intros H. destruct (IH H) as (before & t & -> & Ht). now exists (c :: before), t.
Qed.

Lemma matchFirst_here (here : jsstring -> option jsstring) (s group : jsstring) :
  here s = Some group -> matchFirst here s = Some group.
Proof. intros H. destruct s; cbn [matchFirst]; now rewrite H. Qed.

Lemma matchFirst_none (here : jsstring -> option jsstring) (s : jsstring) :
  (forall before t, s = before ++ t -> here t = None) -> matchFirst here s = None.
Proof.
  induction s as [|c s IH]; intros H; cbn [matchFirst].
  - now rewrite (H [] [] eq_refl).
  - rewrite (H [] (c :: s) eq_refl). apply IH. intros before t ->.
    now apply (H (c :: before) t).
Qed.

(** A run of one character class holds no character outside it, so a
    literal with such a character starts nowhere in it. *)
Lemma startsWith_outside (p : N -> bool) (t literal : jsstring) (c : N) :
  forallb p t = true -> p c = false -> startsWith t (c :: literal) = false.
Proof.
  intros Ht Hc. destruct t as [|x t]; [reflexivity|]. simpl in *.
  apply andb_prop in Ht as [Hx _]. destruct (N.eqb_spec x c); [congruence | reflexivity].
Qed.

Lemma forallb_suffix (p : N -> bool) (before t : jsstring) :
  forallb p (before ++ t) = true -> forallb p t = true.
Proof. rewrite forallb_app. now intros [_ H]%andb_prop. Qed.

Lemma hexRun_inv (s id : jsstring) :
  hexRun s = Some id ->
  id <> [] /\ forallb isHexDigit id = true /\ exists after, s = id ++ after.
Proof.
  unfold hexRun. destruct (spanWhile isHexDigit s) as [[|c run] rest] eqn:E; [discriminate|].
  intros [= <-]. apply spanWhile_inv in E as [-> Hrun].
  split; [discriminate|]. split; [exact Hrun|]. now exists rest.
Qed.

Lemma hexRun_app (id rest : jsstring) :
  id <> [] -> forallb isHexDigit id = true ->
  match rest with [] => True | c :: _ => isHexDigit c = false end ->
  hexRun (id ++ rest) = Some id.
Proof.
  intros Hne Hid Hrest. unfold hexRun. rewrite spanWhile_app by assumption.
  now destruct id.
Qed.

Lemma gistUrlMatchHere_inv (s id : jsstring) :
  gistUrlMatchHere s = Some id ->
  id <> [] /\ forallb isHexDigit id = true /\ exists before after, s = before ++ id ++ after.
Proof.
  unfold gistUrlMatchHere.
  destruct (startsWith s (str "gist.github.com/")) eqn:Hstart; [|discriminate].
  apply startsWith_inv in Hstart.
  set (r := drop (length (str "gist.github.com/")) s) in *.
  destruct (spanWhile isWordOrHyphen r) as [owner rest] eqn:Howner.
  apply spanWhile_inv in Howner as [Hr _].
  assert (Hdirect : hexRun r = Some id ->
            id <> [] /\ forallb isHexDigit id = true
            /\ exists before after, s = before ++ id ++ after).
  { intros H. apply hexRun_inv in H as (Hne & Hhex & after & Hafter).
    repeat split; try assumption. exists (str "gist.github.com/"), after.
    rewrite Hstart at 1. now rewrite Hafter. }
  destruct owner as [|o owner]; [exact Hdirect|].
  destruct rest as [|c rest]; [exact Hdirect|].
  destruct (c =? 47)%N eqn:Hc; [|exact Hdirect].
  destruct (hexRun rest) as [found|] eqn:Hrest; [|exact Hdirect].
  intros [= ->]. apply hexRun_inv in Hrest as (Hne & Hhex & after & ->).
  repeat split; try assumption.
  exists (str "gist.github.com/" ++ (o :: owner) ++ [c]), after.
  rewrite Hstart at 1. rewrite Hr. now rewrite <- !app_assoc.
Qed.

Lemma rawUrlMatchHere_inv (s id : jsstring) :
  rawUrlMatchHere s = Some id ->
  id <> [] /\ forallb isHexDigit id = true /\ exists before after, s = before ++ id ++ after.
Proof.
  unfold rawUrlMatchHere.
  destruct (startsWith s (str "raw.githubusercontent.com/")) eqn:Hstart; [|discriminate].
  apply startsWith_inv in Hstart.
  set (r := drop (length (str "raw.githubusercontent.com/")) s) in *.
  destruct (spanWhile isNotSlash r) as [[|o owner] [|c rest]] eqn:Howner; try discriminate.
  apply spanWhile_inv in Howner as [Hr _].
  destruct (c =? 47)%N; [|discriminate].
  destruct (spanWhile isHexDigit rest) as [[|h run] rest'] eqn:Hrun; [discriminate|].
  apply spanWhile_inv in Hrun as [-> Hhex].
  destruct (startsWith rest' (str "/raw/")); [|discriminate].
  intros [= <-]. split; [discriminate|]. split; [exact Hhex|].
  exists (str "raw.githubusercontent.com/" ++ (o :: owner) ++ [c]), rest'.
  rewrite Hstart at 1. rewrite Hr. now rewrite <- !app_assoc.
Qed.

Lemma imgurUrlMatchHere_inv (s id : jsstring) :
  imgurUrlMatchHere s = Some id ->
  id <> [] /\ forallb isAlnum id = true /\ exists before after, s = before ++ id ++ after.
Proof.
  unfold imgurUrlMatchHere.
  destruct (startsWith s (str "imgur.com/")) eqn:Hstart; [|discriminate].
  apply startsWith_inv in Hstart.
  set (r := drop (length (str "imgur.com/")) s) in *.
  assert (Hkind : forall kind, r = kind ++ drop (length kind) r ->
            match spanAlnum (drop (length kind) r) with
            | ([], _) => None
            | (found, _) => Some found
            end = Some id ->
            id <> [] /\ forallb isAlnum id = true
            /\ exists before after, s = before ++ id ++ after).
  { intros kind Hr. destruct (spanAlnum (drop (length kind) r)) as [[|c run] rest] eqn:E;
      [discriminate|]. intros [= <-]. apply spanAlnum_inv in E as [E Halnum].
    split; [discriminate|]. split; [exact Halnum|].
    exists (str "imgur.com/" ++ kind), rest.
    rewrite Hstart at 1. rewrite Hr, E. now rewrite <- !app_assoc. }
  destruct (startsWith r (str "gallery/")) eqn:Hgallery.
  - apply startsWith_inv in Hgallery. now apply Hkind.
  - destruct (startsWith r (str "a/")) eqn:Ha; [|discriminate].
    apply startsWith_inv in Ha. now apply Hkind.
Qed.

Lemma gistUrlMatch_https (t : jsstring) :
  matchFirst gistUrlMatchHere (str "https://" ++ t) = matchFirst gistUrlMatchHere t.
Proof. reflexivity. Qed.

(** X19. Submitting the gist field goes to the info page of a hexadecimal
    id or nowhere.  Whatever the text, the address that is pushed is
    [/info/gist/] followed by a run of hexadecimal digits that is not empty
    and occurs in the text; a text that is such a run goes to its own info
    page; so does the address of a gist, with or without the owner in front
    of the id; an empty text does nothing. *)
Theorem gist_submit_goes_to_hex_id (gistSource : jsstring) :
  (forall href, handleGistSubmit gistSource = Pushed href ->
     exists id, href = str "/info/gist/" ++ id /\ id <> []
       /\ forallb isHexDigit id = true
       /\ exists before after, gistSource = before ++ id ++ after)
  /\ (isHexId gistSource = true ->
      handleGistSubmit gistSource = Pushed (str "/info/gist/" ++ gistSource))
  /\ (forall owner id, gistSource = str "https://gist.github.com/" ++ owner ++ str "/" ++ id ->
      owner <> [] -> forallb isWordOrHyphen owner = true -> isHexId id = true ->
      handleGistSubmit gistSource = Pushed (str "/info/gist/" ++ id))
  /\ (gistSource = [] -> handleGistSubmit gistSource = Ignored).
Proof.
  split; [|split; [|split]].
  - intros href. unfold handleGistSubmit.
    destruct (negb (ToBoolean (JStr gistSource))); [discriminate|].
    assert (Hfound : forall id,
              id <> [] /\ forallb isHexDigit id = true
              /\ (exists before after, gistSource = before ++ id ++ after) ->
              (if ToBoolean (JStr id) then Pushed (str "/info/gist/" ++ id)
               else Alerted (str "Invalid Gist URL or ID format. Please provide a valid GitHub Gist URL (standard or raw) or just the ID."))
              = Pushed href ->
              exists id, href = str "/info/gist/" ++ id /\ id <> []
                /\ forallb isHexDigit id = true
                /\ exists before after, gistSource = before ++ id ++ after).
    { intros id (Hne & Hhex & Hocc). destruct id; [congruence|]. cbn [ToBoolean].
      intros [= <-]. now eexists. }
    destruct (matchFirst gistUrlMatchHere gistSource) as [id|] eqn:Hgist.
    { apply Hfound. apply matchFirst_inv in Hgist as (before & t & -> & Ht).
      apply gistUrlMatchHere_inv in Ht as (Hne & Hhex & b & a & ->).
      repeat split; try assumption. exists (before ++ b), a. now rewrite <- app_assoc. }
    destruct (matchFirst rawUrlMatchHere gistSource) as [id|] eqn:Hraw.
    { apply Hfound. apply matchFirst_inv in Hraw as (before & t & -> & Ht).
      apply rawUrlMatchHere_inv in Ht as (Hne & Hhex & b & a & ->).
      repeat split; try assumption. exists (before ++ b), a. now rewrite <- app_assoc. }
    destruct (isHexId gistSource) eqn:Hid; [|discriminate].
    apply Hfound. unfold isHexId in Hid. destruct gistSource; [discriminate|].
    repeat split; [discriminate | exact Hid |]. exists [], []. now rewrite app_nil_r.
  - intros Hid. unfold handleGistSubmit, isHexId in *.
    destruct gistSource as [|c s]; [discriminate|]. cbn [ToBoolean negb].
    rewrite !matchFirst_none.
    + now rewrite Hid.
    + intros before t E. unfold rawUrlMatchHere. rewrite E in Hid.
      change (str "raw.githubusercontent.com/")
        with (114%N :: str "aw.githubusercontent.com/").
      now rewrite (startsWith_outside isHexDigit t _ 114%N (forallb_suffix _ _ _ Hid)).
    + intros before t E. unfold gistUrlMatchHere. rewrite E in Hid.
      change (str "gist.github.com/") with (103%N :: str "ist.github.com/").
      now rewrite (startsWith_outside isHexDigit t _ 103%N (forallb_suffix _ _ _ Hid)).
  - intros owner id -> Howner Hword Hid. unfold isHexId in Hid.
    destruct id as [|d id]; [discriminate|].
    assert (Hhere : gistUrlMatchHere
                      (str "gist.github.com/" ++ owner ++ str "/" ++ d :: id) = Some (d :: id)).
    { unfold gistUrlMatchHere. rewrite startsWith_app, drop_app_length.
      rewrite (spanWhile_app isWordOrHyphen owner (str "/" ++ d :: id) Hword eq_refl).
      destruct owner; [congruence|]. cbn [app str list_ascii_of_string map].
      change (N_of_ascii "/" =? 47)%N with true. cbv iota.
      pose proof (hexRun_app (d :: id) [] ltac:(discriminate) Hid I) as Hrun.
      rewrite app_nil_r in Hrun. now rewrite Hrun. }
    change (str "https://gist.github.com/") with (str "https://" ++ str "gist.github.com/").
    rewrite <- app_assoc. unfold handleGistSubmit.
    rewrite gistUrlMatch_https, (matchFirst_here _ _ _ Hhere).
    reflexivity.
  - now intros ->.
Qed.

Lemma gist_submit_goes_to_hex_id_witness :
  handleGistSubmit (str "https://gist.github.com/reader/0123abcdef")
  = Pushed (str "/info/gist/0123abcdef").
Proof.
  destruct (gist_submit_goes_to_hex_id (str "https://gist.github.com/reader/0123abcdef"))
    as (_ & _ & H & _).
  now apply (H (str "reader") (str "0123abcdef")).
Defined.

(** X20. Submitting the album field goes to the reader of an alphanumeric
    id or nowhere.  Whatever the text, the address that is pushed is
    [/reader/imgur/] followed by a run of letters and digits that is not
    empty and occurs in the text; a text that is such a run goes to its own
    reader; an empty text does nothing. *)
Theorem imgur_submit_goes_to_alnum_id (imgurSource : jsstring) :
  (forall href, handleImgurSubmit imgurSource = Pushed href ->
     exists id, href = str "/reader/imgur/" ++ id /\ id <> []
       /\ forallb isAlnum id = true
       /\ exists before after, imgurSource = before ++ id ++ after)
  /\ (isAlnumId imgurSource = true ->
      handleImgurSubmit imgurSource = Pushed (str "/reader/imgur/" ++ imgurSource))
  /\ (imgurSource = [] -> handleImgurSubmit imgurSource = Ignored).
Proof.
  split; [|split].
  - intros href. unfold handleImgurSubmit.
    destruct (negb (ToBoolean (JStr imgurSource))); [discriminate|].
    destruct (matchFirst imgurUrlMatchHere imgurSource) as [id|] eqn:Hurl.
    + intros [= <-]. apply matchFirst_inv in Hurl as (before & t & -> & Ht).
      apply imgurUrlMatchHere_inv in Ht as (Hne & Halnum & b & a & ->).
      exists id. repeat split; try assumption. exists (before ++ b), a.
      now rewrite <- app_assoc.
    + destruct (isAlnumId imgurSource) eqn:Hid; [|discriminate].
      intros [= <-]. unfold isAlnumId in Hid. destruct imgurSource; [discriminate|].
      eexists. repeat split; [discriminate | exact Hid |]. exists [], [].
      now rewrite app_nil_r.
  - intros Hid. unfold handleImgurSubmit, isAlnumId in *.
    destruct imgurSource as [|c s]; [discriminate|]. cbn [ToBoolean negb].
    rewrite matchFirst_none; [now rewrite Hid|].
    intros before t E. unfold imgurUrlMatchHere. rewrite E in Hid.
    apply forallb_suffix in Hid.
    destruct (startsWith t (str "imgur.com/")) eqn:Hstart; [|reflexivity].
    apply startsWith_inv in Hstart. rewrite Hstart in Hid.
    vm_compute in Hid. discriminate Hid.
  - now intros ->.
Qed.

Lemma imgur_submit_goes_to_alnum_id_witness :
  handleImgurSubmit (str "AbC12") = Pushed (str "/reader/imgur/AbC12").
Proof.
  destruct (imgur_submit_goes_to_alnum_id (str "AbC12")) as (_ & H & _).
  now apply H.
Defined.

(** ** The sample reader page and its hotkeys *)

Lemma ReaderPage_goToNextPage_of_Z (c : Z) :
  ReaderPage.goToNextPage (of_Z c) = of_Z (if (c <? 24)%Z then c + 1 else c).
Proof.
  unfold ReaderPage.goToNextPage, ReaderPage.totalPages.
  rewrite num_ltb_of_Z, num_add_of_Z. now destruct (c <? 24)%Z.
Qed.

Lemma ReaderPage_goToPrevPage_of_Z (c : Z) :
  ReaderPage.goToPrevPage (of_Z c) = of_Z (if (1 <? c)%Z then c - 1 else c).
Proof.
  unfold ReaderPage.goToPrevPage.
  rewrite num_ltb_of_Z, num_sub_of_Z. now destruct (1 <? c)%Z.
Qed.

Lemma ReaderPage_handleKeyDown_cases (event : HotkeyEvent) (page : number) :
  ReaderPage.handleKeyDown event page
  = if jsstring_eqb (eventKey event) (str "ArrowRight")
    then (ReaderPage.goToNextPage page, true)
    else if jsstring_eqb (eventKey event) (str "ArrowLeft")
    then (ReaderPage.goToPrevPage page, true)
    else (page, false).
Proof.
  unfold ReaderPage.handleKeyDown, ReaderPage.hotkeys. cbn [useHotkeys].
  unfold hotkeyFits. cbn [hotkeyKey ctrlKey altKey shiftKey callback modifierFits].
  now rewrite !andb_true_r.
Qed.

(** X21. The sample reader page keeps its page between 1 and 24 whatever
    keys are pressed, and its arrow keys do not look at the modifier keys:
    with Ctrl, Alt or Shift held they still turn the page and still cancel
    what the browser would do with the key; any other key does nothing and
    is not cancelled. *)
Theorem sample_reader_hotkeys (events : list HotkeyEvent) :
  (exists c, fold_left (fun page event => fst (ReaderPage.handleKeyDown event page))
               events ReaderPage.initialPage = of_Z c
             /\ (1 <= c <= 24)%Z)
  /\ (forall ctrl alt shift page,
        ReaderPage.handleKeyDown
          {| eventKey := str "ArrowRight"; eventCtrlKey := ctrl;
             eventAltKey := alt; eventShiftKey := shift |} page
        = (ReaderPage.goToNextPage page, true)
        /\ ReaderPage.handleKeyDown
             {| eventKey := str "ArrowLeft"; eventCtrlKey := ctrl;
                eventAltKey := alt; eventShiftKey := shift |} page
           = (ReaderPage.goToPrevPage page, true))
  /\ (forall event page,
        eventKey event <> str "ArrowRight" -> eventKey event <> str "ArrowLeft" ->
        ReaderPage.handleKeyDown event page = (page, false)).
Proof.
  split; [|split].
  - assert (H : forall c, (1 <= c <= 24)%Z ->
              exists c', fold_left (fun page event => fst (ReaderPage.handleKeyDown event page))
                           events (of_Z c) = of_Z c' /\ (1 <= c' <= 24)%Z).
    { induction events as [|event events IH]; intros c Hc; [now exists c|].
      cbn [fold_left]. rewrite ReaderPage_handleKeyDown_cases.
      destruct (jsstring_eqb (eventKey event) (str "ArrowRight")); cbn [fst].
      - rewrite ReaderPage_goToNextPage_of_Z. apply IH.
        destruct (Z.ltb_spec c 24); lia.
      - destruct (jsstring_eqb (eventKey event) (str "ArrowLeft")); cbn [fst].
        + rewrite ReaderPage_goToPrevPage_of_Z. apply IH.
          destruct (Z.ltb_spec 1 c); lia.
        + now apply IH. }
    apply (H 1%Z). lia.
  - intros ctrl alt shift page. now rewrite !ReaderPage_handleKeyDown_cases.
  - intros event page Hright Hleft. rewrite ReaderPage_handleKeyDown_cases.
    unfold jsstring_eqb. now rewrite !bool_decide_eq_false_2.
Qed.

(** ** What the validator accepts *)

Section Conformance.
Context (P : Platform).

Definition checkPasses (t : jsstring) (c : StringCheck) : Prop :=
  match c with
  | check_min n => (n <= length t)%nat
  | check_url => isValidURL P t = true
  end.

(** A value has the shape that a schema describes. *)
Fixpoint conforms (s : Schema) (v : jsval) {struct s} : Prop :=
  match s with
  | ZString checks => exists t, v = JStr t /\ Forall (checkPasses t) checks
  | ZOptional inner => v = JUndefined \/ conforms inner v
  | ZArray element => exists items, v = JArr items /\ Forall (conforms element) items
  | ZRecord valueType =>
      exists fields, v = JObj fields /\ Forall (fun kv => conforms valueType (snd kv)) fields
  | ZObject shape =>
      exists fields, v = JObj fields
        /\ (fix each (shape : list (jsstring * Schema)) : Prop :=
              match shape with
              | [] => True
              | (k, sk) :: rest =>
                  conforms sk (default JUndefined (lookupField fields k)) /\ each rest
              end) shape
  end.

Lemma Schema_nested_ind (Q : Schema -> Prop) :
  (forall checks, Q (ZString checks)) ->
  (forall inner, Q inner -> Q (ZOptional inner)) ->
  (forall element, Q element -> Q (ZArray element)) ->
  (forall valueType, Q valueType -> Q (ZRecord valueType)) ->
  (forall shape, Forall (fun ks => Q (snd ks)) shape -> Q (ZObject shape)) ->
  forall s, Q s.
Proof.
  intros Hstring Hoptional Harray Hrecord Hobject.
  fix IH 1. intros [checks|inner|element|valueType|shape].
  - apply Hstring.
  - apply Hoptional, IH.
  - apply Harray, IH.
  - apply Hrecord, IH.
  - apply Hobject. induction shape as [|[k sk] shape IHshape]; constructor.
    + apply IH.
    + exact IHshape.
Qed.

Lemma checkString_passes (t : jsstring) (at_path : list PathItem) (checks : list StringCheck) :
  flat_map (checkString P t at_path) checks = [] <-> Forall (checkPasses t) checks.
Proof.
  induction checks as [|c checks IH]; cbn [flat_map].
  - split; [constructor | reflexivity].
  - split.
    + intros [Hc Hrest]%app_eq_nil. constructor; [|now apply IH].
      destruct c as [n|]; cbn [checkString checkPasses] in *.
      * destruct (Nat.ltb_spec (length t) n); [discriminate | lia].
      * now destruct (isValidURL P t).
    + intros H. apply Forall_cons in H as [Hc Hrest]. apply IH in Hrest. rewrite Hrest.
      rewrite app_nil_r. destruct c as [n|]; cbn [checkString checkPasses] in *.
      * destruct (Nat.ltb_spec (length t) n); [lia | reflexivity].
      * now rewrite Hc.
Qed.

Lemma parseItems_accepts (element : Schema) (at_path : list PathItem) (items : list jsval) :
  (forall p v, fst (zparse P element p v) = [] <-> conforms element v) ->
  forall i, fst (parseItems (zparse P element) at_path i items) = []
            <-> Forall (conforms element) items.
Proof.
  intros IH. induction items as [|x items IHitems]; intros i; cbn [parseItems].
  - split; [constructor | reflexivity].
  - specialize (IHitems (S i)). specialize (IH (at_path ++ [PIndex i]) x).
    destruct (zparse P element (at_path ++ [PIndex i]) x) as [issues y].
    destruct (parseItems (zparse P element) at_path (S i) items) as [issues' ys].
    cbn [fst] in *. split.
    + intros [H1 H2]%app_eq_nil. constructor; [now apply IH | now apply IHitems].
    + intros H. apply Forall_cons in H as [Hx Hrest].
      apply IH in Hx. apply IHitems in Hrest. now subst.
Qed.

Lemma parseEntries_accepts (valueType : Schema) (at_path : list PathItem)
    (fields : list (jsstring * jsval)) :
  (forall p v, fst (zparse P valueType p v) = [] <-> conforms valueType v) ->
  fst (parseEntries (zparse P valueType) at_path fields) = []
  <-> Forall (fun kv => conforms valueType (snd kv)) fields.
Proof.
  intros IH. induction fields as [|[k x] fields IHfields]; cbn [parseEntries].
  - split; [constructor | reflexivity].
  - specialize (IH (at_path ++ [PKey k]) x).
    destruct (zparse P valueType (at_path ++ [PKey k]) x) as [issues y].
    destruct (parseEntries (zparse P valueType) at_path fields) as [issues' ys].
    cbn [fst] in *. split.
    + intros [H1 H2]%app_eq_nil. constructor; [now apply IH | now apply IHfields].
    + intros H. apply Forall_cons in H as [Hx Hrest].
      apply IH in Hx. apply IHfields in Hrest. now subst.
Qed.

Lemma zparse_accepts (s : Schema) :
  forall at_path v, fst (zparse P s at_path v) = [] <-> conforms s v.
Proof.
  induction s as [checks|inner IH|element IH|valueType IH|shape IH] using Schema_nested_ind;
    intros at_path v; cbn [zparse conforms].
  - destruct v as [| | | |t| |]; cbn [fst];
      try (split; [discriminate | intros (t' & [=] & _)]).
    rewrite checkString_passes. split.
    + intros H. now exists t.
    + now intros (t' & [= <-] & H).
  - destruct v; try (rewrite IH; split; [now right | intros [[=] | H]; exact H]).
    split; [now left | reflexivity].
  - destruct v as [| | | | |items|]; cbn [fst];
      try (split; [discriminate | intros (t' & [=] & _)]).
    pose proof (parseItems_accepts element at_path items IH 0%nat) as H.
    destruct (parseItems (zparse P element) at_path 0 items) as [issues out].
    cbn [fst] in *. rewrite H. split.
    + intros Hitems. now exists items.
    + now intros (items' & [= <-] & Hitems).
  - destruct v as [| | | | | |fields]; cbn [fst];
      try (split; [discriminate | intros (t' & [=] & _)]).
    pose proof (parseEntries_accepts valueType at_path fields IH) as H.
    destruct (parseEntries (zparse P valueType) at_path fields) as [issues out].
    cbn [fst] in *. rewrite H. split.
    + intros Hfields. now exists fields.
    + now intros (fields' & [= <-] & Hfields).
  - destruct v as [| | | | | |fields]; cbn [fst];
      try (split; [discriminate | intros (t' & [=] & _)]).
    assert (Hshape : fst (parseShapeWith (zparse P) at_path fields shape) = []
              <-> (fix each (shape : list (jsstring * Schema)) : Prop :=
                     match shape with
                     | [] => True
                     | (k, sk) :: rest =>
                         conforms sk (default JUndefined (lookupField fields k)) /\ each rest
                     end) shape).
    { induction shape as [|[k sk] shape IHshape]; [split; [constructor | reflexivity]|].
      apply Forall_cons in IH as [Hk IH]. specialize (IHshape IH). cbn [snd] in Hk.
      specialize (Hk (at_path ++ [PKey k]) (default JUndefined (lookupField fields k))).
      cbn [parseShapeWith].
      destruct (zparse P sk (at_path ++ [PKey k]) (default JUndefined (lookupField fields k)))
        as [issues y].
      change ((fix parseShape (shape0 : list (jsstring * Schema)) :
                 list ZodIssue * list (jsstring * jsval) := _) shape)
        with (parseShapeWith (zparse P) at_path fields shape).
      destruct (parseShapeWith (zparse P) at_path fields shape) as [issues' ys].
      cbn [fst] in *. split.
      - intros [H1 H2]%app_eq_nil. split; [now apply Hk | now apply IHshape].
      - intros [H1 H2]. apply Hk in H1. apply IHshape in H2. now subst. }
    rewrite Hshape. split.
    + intros H. now exists fields.
    + now intros (fields' & [= <-] & H).
Qed.

Lemma Schema_parse_accepts (s : Schema) (data : jsval) :
  (exists out, Schema_parse P s data = ok out) <-> conforms s data.
Proof.
  rewrite <- (zparse_accepts s [] data). unfold Schema_parse.
  destruct (zparse P s [] data) as [[|i issues] out]; cbn [fst].
  - split; [reflexivity | intros _; now exists out].
  - split; [intros [out' [=]] | discriminate].
Qed.

End Conformance.

(** The manifest in the words of the schema. *)
Definition fieldOf (fields : list (jsstring * jsval)) (k : string) : jsval :=
  default JUndefined (lookupField fields (str k)).

Definition optionalString (v : jsval) : Prop := v = JUndefined \/ exists t, v = JStr t.

Definition urlList (P : Platform) (v : jsval) : Prop :=
  exists urls, v = JArr urls
    /\ Forall (fun u => exists t, u = JStr t /\ isValidURL P t = true) urls.

Definition validChapter (P : Platform) (chapter : jsval) : Prop :=
  exists fields, chapter = JObj fields
    /\ (exists t, fieldOf fields "title" = JStr t)
    /\ optionalString (fieldOf fields "volume")
    /\ exists groups, fieldOf fields "groups" = JObj groups
         /\ Forall (fun kv => urlList P (snd kv)) groups.

Definition validManifest (P : Platform) (data : jsval) : Prop :=
  exists fields, data = JObj fields
    /\ (exists t, fieldOf fields "title" = JStr t /\ t <> [])
    /\ optionalString (fieldOf fields "description")
    /\ optionalString (fieldOf fields "artist")
    /\ optionalString (fieldOf fields "author")
    /\ (fieldOf fields "cover" = JUndefined
        \/ exists t, fieldOf fields "cover" = JStr t /\ isValidURL P t = true)
    /\ exists chapters, fieldOf fields "chapters" = JObj chapters
         /\ Forall (fun kv => validChapter P (snd kv)) chapters.

Lemma conforms_string (P : Platform) (v : jsval) :
  conforms P (ZString []) v <-> exists t, v = JStr t.
Proof.
  cbn [conforms]. split.
  - intros (t & -> & _). now exists t.
  - intros (t & ->). exists t. split; [reflexivity | constructor].
Qed.

Lemma conforms_optional_string (P : Platform) (v : jsval) :
  conforms P (ZOptional (ZString [])) v <-> optionalString v.
Proof.
  change (conforms P (ZOptional (ZString [])) v)
    with (v = JUndefined \/ conforms P (ZString []) v).
  now rewrite conforms_string.
Qed.

Lemma conforms_url (P : Platform) (v : jsval) :
  conforms P (ZString [check_url]) v <-> exists t, v = JStr t /\ isValidURL P t = true.
Proof.
  cbn [conforms]. split.
  - intros (t & -> & H). apply Forall_cons in H as [H _]. now exists t.
  - intros (t & -> & H). exists t. split; [reflexivity|]. now repeat constructor.
Qed.

Lemma conforms_object (P : Platform) (shape : list (jsstring * Schema)) (v : jsval) :
  conforms P (ZObject shape) v
  <-> exists fields, v = JObj fields
        /\ Forall (fun ks => conforms P (snd ks)
                               (default JUndefined (lookupField fields (fst ks)))) shape.
Proof.
  cbn [conforms].
  assert (H : forall fields,
            (fix each (shape : list (jsstring * Schema)) : Prop :=
               match shape with
               | [] => True
               | (k, sk) :: rest =>
                   conforms P sk (default JUndefined (lookupField fields k)) /\ each rest
               end) shape
            <-> Forall (fun ks => conforms P (snd ks)
                                    (default JUndefined (lookupField fields (fst ks)))) shape).
  { intros fields. induction shape as [|[k sk] shape IH].
    - split; [constructor | reflexivity].
    - rewrite Forall_cons, IH. reflexivity. }
  split; intros (fields & -> & Hshape); exists fields; (split; [reflexivity|]); now apply H.
Qed.

Lemma conforms_groups (P : Platform) (v : jsval) :
  conforms P (ZRecord (ZArray (ZString [check_url]))) v
  <-> exists groups, v = JObj groups /\ Forall (fun kv => urlList P (snd kv)) groups.
Proof.
  change (conforms P (ZRecord (ZArray (ZString [check_url]))) v)
    with (exists groups, v = JObj groups
            /\ Forall (fun kv => exists urls, snd kv = JArr urls
                         /\ Forall (conforms P (ZString [check_url])) urls) groups).
  unfold urlList.
  split; intros (groups & -> & Hall); exists groups; (split; [reflexivity|]);
    (eapply Forall_impl; [exact Hall|]); intros [k g] (urls & -> & Hurls); exists urls;
    (split; [reflexivity|]); (eapply Forall_impl; [exact Hurls|]);
    intros u Hu; now apply conforms_url.
Qed.

Lemma conforms_chapter (P : Platform) (chapter : jsval) :
  conforms P chapterSchema chapter <-> validChapter P chapter.
Proof.
  unfold validChapter, chapterSchema, fieldOf. rewrite conforms_object.
  split; intros (fields & -> & H); exists fields; (split; [reflexivity|]).
  - apply Forall_cons in H as [Htitle H]. apply Forall_cons in H as [Hvolume H].
    apply Forall_cons in H as [Hgroups _]. cbn [fst snd] in *.
    apply conforms_string in Htitle. apply conforms_optional_string in Hvolume.
    apply conforms_groups in Hgroups. auto.
  - destruct H as (Htitle & Hvolume & Hgroups).
    apply (conforms_string P) in Htitle. apply (conforms_optional_string P) in Hvolume.
    apply (conforms_groups P) in Hgroups.
    repeat (constructor; [assumption|]). constructor.
Qed.

Lemma conforms_chapters (P : Platform) (v : jsval) :
  conforms P (ZRecord chapterSchema) v
  <-> exists chapters, v = JObj chapters /\ Forall (fun kv => validChapter P (snd kv)) chapters.
Proof.
  change (conforms P (ZRecord chapterSchema) v)
    with (exists chapters, v = JObj chapters
            /\ Forall (fun kv => conforms P chapterSchema (snd kv)) chapters).
  split; intros (chapters & -> & Hall); exists chapters; (split; [reflexivity|]);
    (eapply Forall_impl; [exact Hall|]); intros [k c] Hc; now apply conforms_chapter.
Qed.

Lemma conforms_title (P : Platform) (v : jsval) :
  conforms P (ZString [check_min 1]) v <-> exists t, v = JStr t /\ t <> [].
Proof.
  cbn [conforms]. split.
  - intros (t & -> & H). apply Forall_cons in H as [H _]. cbn [checkPasses] in H.
    exists t. split; [reflexivity|]. intros ->. simpl in H. lia.
  - intros (t & -> & H). exists t. split; [reflexivity|]. repeat constructor.
    cbn [checkPasses]. destruct t; [congruence | simpl; lia].
Qed.

Lemma conforms_optional_url (P : Platform) (v : jsval) :
  conforms P (ZOptional (ZString [check_url])) v
  <-> v = JUndefined \/ exists t, v = JStr t /\ isValidURL P t = true.
Proof.
  change (conforms P (ZOptional (ZString [check_url])) v)
    with (v = JUndefined \/ conforms P (ZString [check_url]) v).
  now rewrite conforms_url.
Qed.

Lemma conforms_manifest (P : Platform) (data : jsval) :
  conforms P gistConfigSchema data <-> validManifest P data.
Proof.
  unfold validManifest, gistConfigSchema, fieldOf. rewrite conforms_object.
  split; intros (fields & -> & H); exists fields; (split; [reflexivity|]).
  - apply Forall_cons in H as [Htitle H]. apply Forall_cons in H as [Hdescription H].
    apply Forall_cons in H as [Hartist H]. apply Forall_cons in H as [Hauthor H].
    apply Forall_cons in H as [Hcover H]. apply Forall_cons in H as [Hchapters _].
    cbn [fst snd] in *.
    apply conforms_title in Htitle. apply conforms_optional_string in Hdescription.
    apply conforms_optional_string in Hartist. apply conforms_optional_string in Hauthor.
    apply conforms_optional_url in Hcover. apply conforms_chapters in Hchapters.
    repeat split; assumption.
  - destruct H as (Htitle & Hdescription & Hartist & Hauthor & Hcover & Hchapters).
    apply (conforms_title P) in Htitle. apply (conforms_optional_string P) in Hdescription.
    apply (conforms_optional_string P) in Hartist. apply (conforms_optional_string P) in Hauthor.
    apply (conforms_optional_url P) in Hcover. apply (conforms_chapters P) in Hchapters.
    repeat (constructor; [assumption|]). constructor.
Qed.

(** X24. The manifests that the validator accepts.  [gistConfigSchema.parse]
    returns exactly for an object whose [title] is a string that is not
    empty, whose [description], [artist] and [author] are strings or absent,
    whose [cover] is a string the platform takes for a URL or absent, and
    whose [chapters] is an object of chapters: objects with a string for
    [title], a string or nothing for [volume], and for [groups] an object
    whose values are arrays of strings the platform takes for URLs.  For
    every other value it throws. *)
Theorem manifest_accepted_iff_valid (P : Platform) (data : jsval) :
  (exists config, Schema_parse P gistConfigSchema data = ok config)
  <-> validManifest P data.
Proof. rewrite Schema_parse_accepts. apply conforms_manifest. Qed.

(** ** What the validator returns *)

Lemma lookupField_In (fields : list (jsstring * jsval)) (k : jsstring) (v : jsval) :
  lookupField fields k = Some v -> In (k, v) fields.
Proof.
  induction fields as [|[k' v'] fields IH]; [discriminate|]. cbn [lookupField].
  unfold jsstring_eqb. destruct (bool_decide_reflect (k' = k)) as [-> | _].
  - intros [= ->]. now left.
  - intros H. right. now apply IH.
Qed.

Lemma lookupField_replaceField (fields : list (jsstring * jsval)) (k k2 : jsstring)
    (v old : jsval) :
  lookupField fields k = Some old ->
  lookupField (replaceField fields k v) k2
  = if jsstring_eqb k k2 then Some v else lookupField fields k2.
Proof.
  unfold jsstring_eqb.
  induction fields as [|[k' v'] fields IH]; [discriminate|].
  cbn [lookupField replaceField]. unfold jsstring_eqb.
  destruct (bool_decide_reflect (k' = k)) as [-> | Hk'].
  - intros _. cbn [lookupField]. unfold jsstring_eqb.
    destruct (bool_decide_reflect (k = k2)); reflexivity.
  - intros H. cbn [lookupField]. unfold jsstring_eqb.
    destruct (bool_decide_reflect (k' = k2)) as [-> | _].
    + destruct (bool_decide_reflect (k = k2)); [congruence | reflexivity].
    + now apply IH.
Qed.

Lemma lookupField_insertIndexed (fields : list (jsstring * jsval)) (i : Z) (k k2 : jsstring)
    (v : jsval) :
  lookupField fields k = None ->
  lookupField (insertIndexed fields i k v) k2
  = if jsstring_eqb k k2 then Some v else lookupField fields k2.
Proof.
  unfold jsstring_eqb.
  induction fields as [|[k' v'] fields IH]; [reflexivity|].
  cbn [lookupField insertIndexed]. unfold jsstring_eqb.
  destruct (bool_decide_reflect (k' = k)) as [-> | Hk']; [discriminate|]. intros H.
  destruct (arrayIndex k') as [j|]; [destruct (j <? i)%Z|]; cbn [lookupField];
    unfold jsstring_eqb; try reflexivity.
  destruct (bool_decide_reflect (k' = k2)) as [-> | _].
  - destruct (bool_decide_reflect (k = k2)); [congruence | reflexivity].
  - now apply IH.
Qed.

Lemma lookupField_snoc (fields : list (jsstring * jsval)) (k k2 : jsstring) (v : jsval) :
  lookupField fields k = None ->
  lookupField (fields ++ [(k, v)]) k2
  = if jsstring_eqb k k2 then Some v else lookupField fields k2.
Proof.
  unfold jsstring_eqb.
  induction fields as [|[k' v'] fields IH]; [reflexivity|].
  cbn [lookupField app]. unfold jsstring_eqb.
  destruct (bool_decide_reflect (k' = k)) as [-> | Hk']; [discriminate|]. intros H.
  destruct (bool_decide_reflect (k' = k2)) as [-> | _].
  - destruct (bool_decide_reflect (k = k2)); [congruence | reflexivity].
  - now apply IH.
Qed.

(** Defining a property sets it and leaves the others alone. *)
Lemma lookupField_defineProperty (fields : list (jsstring * jsval)) (k k2 : jsstring)
    (v : jsval) :
  lookupField (defineProperty fields k v) k2
  = if jsstring_eqb k k2 then Some v else lookupField fields k2.
Proof.
  unfold defineProperty. destruct (lookupField fields k) as [old|] eqn:Hk.
  - now apply (lookupField_replaceField fields k k2 v old).
  - destruct (arrayIndex k).
    + now apply lookupField_insertIndexed.
    + now apply lookupField_snoc.
Qed.

Lemma In_replaceField (fields : list (jsstring * jsval)) (k : jsstring) (v : jsval)
    (e : jsstring * jsval) :
  In e (replaceField fields k v) -> e = (k, v) \/ In e fields.
Proof.
  induction fields as [|[k' v'] fields IH]; [intros []|]. cbn [replaceField].
  unfold jsstring_eqb. destruct (bool_decide_reflect (k' = k)) as [-> | _].
  - intros [<- | H]; [now left | right; now right].
  - intros [<- | H]; [right; now left|]. destruct (IH H); [now left | right; now right].
Qed.

Lemma In_insertIndexed (fields : list (jsstring * jsval)) (i : Z) (k : jsstring) (v : jsval)
    (e : jsstring * jsval) :
  In e (insertIndexed fields i k v) -> e = (k, v) \/ In e fields.
Proof.
  induction fields as [|[k' v'] fields IH]; cbn [insertIndexed].
  - intros [<- | []]. now left.
  - destruct (arrayIndex k') as [j|]; [destruct (j <? i)%Z|].
    + intros [<- | H]; [right; now left|]. destruct (IH H); [now left | right; now right].
    + intros [<- | H]; [now left | now right].
    + intros [<- | H]; [now left | now right].
Qed.

Lemma In_defineProperty (fields : list (jsstring * jsval)) (k : jsstring) (v : jsval)
    (e : jsstring * jsval) :
  In e (defineProperty fields k v) -> e = (k, v) \/ In e fields.
Proof.
  unfold defineProperty. destruct (lookupField fields k).
  - apply In_replaceField.
  - destruct (arrayIndex k).
    + apply In_insertIndexed.
    + intros [H | [<- | []]]%in_app_or; [now right | now left].
Qed.

Definition assignAll (entries : list (jsstring * jsval)) (out : list (jsstring * jsval)) :=
  fold_left (fun o kv => assignOutput o (fst kv) (snd kv)) entries out.

(** What the output object holds was assigned to it. *)
Lemma In_assignAll (entries out : list (jsstring * jsval)) (e : jsstring * jsval) :
  In e (assignAll entries out) -> In e entries \/ In e out.
Proof.
  unfold assignAll. revert out. induction entries as [|[k v] entries IH]; intros out;
    cbn [fold_left]; [now right|].
  intros H. destruct (IH _ H) as [H' | H']; [left; now right|].
  unfold assignOutput in H'. cbn [fst snd] in H'.
  destruct (jsstring_eqb k (str "__proto__")); [now right|].
  apply In_defineProperty in H' as [-> | H']; [left; now left | now right].
Qed.

(** A key that is assigned one value only holds that value. *)
Lemma lookupField_assignAll (entries out : list (jsstring * jsval)) (k : jsstring) (y : jsval) :
  k <> str "__proto__" ->
  (forall v, In (k, v) entries -> v = y) ->
  In (k, y) entries \/ lookupField out k = Some y ->
  lookupField (assignAll entries out) k = Some y.
Proof.
  intros Hproto. unfold assignAll. revert out.
  induction entries as [|[k' v'] entries IH]; intros out Hunique Hsource; cbn [fold_left].
  - destruct Hsource as [[] | H]. exact H.
  - apply IH; [intros v Hv; apply Hunique; now right|].
    unfold assignOutput. cbn [fst snd]. unfold jsstring_eqb.
    destruct (bool_decide_reflect (k' = k)) as [-> | Hk'].
    + right. rewrite bool_decide_eq_false_2 by exact Hproto.
      rewrite lookupField_defineProperty. unfold jsstring_eqb.
      rewrite bool_decide_eq_true_2 by reflexivity. f_equal. apply Hunique. now left.
    + destruct Hsource as [[[= ? ?] | H] | H]; [congruence | now left | right].
      destruct (bool_decide_reflect (k' = str "__proto__")); [exact H|].
      rewrite lookupField_defineProperty. unfold jsstring_eqb.
      now rewrite bool_decide_eq_false_2 by exact Hk'.
Qed.

Section OutputConforms.
Context (P : Platform).

(** The keys of every object schema are distinct, and none is [__proto__]. *)
Fixpoint wellFormed (s : Schema) : Prop :=
  match s with
  | ZString _ => True
  | ZOptional inner => wellFormed inner
  | ZArray element => wellFormed element
  | ZRecord valueType => wellFormed valueType
  | ZObject shape =>
      NoDup (map fst shape) /\ ~ In (str "__proto__") (map fst shape)
      /\ (fix each (shape : list (jsstring * Schema)) : Prop :=
            match shape with
            | [] => True
            | (_, sk) :: rest => wellFormed sk /\ each rest
            end) shape
  end.

Lemma parseItems_output (element : Schema) (at_path : list PathItem) (items : list jsval) :
  (forall p v, fst (zparse P element p v) = [] -> conforms P element (snd (zparse P element p v))) ->
  forall i, fst (parseItems (zparse P element) at_path i items) = [] ->
            Forall (conforms P element) (snd (parseItems (zparse P element) at_path i items)).
Proof.
  intros IH. induction items as [|x items IHitems]; intros i; cbn [parseItems].
  - constructor.
  - specialize (IHitems (S i)). specialize (IH (at_path ++ [PIndex i]) x).
    destruct (zparse P element (at_path ++ [PIndex i]) x) as [issues y].
    destruct (parseItems (zparse P element) at_path (S i) items) as [issues' ys].
    cbn [fst snd] in *. intros [H1 H2]%app_eq_nil. constructor; auto.
Qed.

Lemma parseEntries_output (valueType : Schema) (at_path : list PathItem)
    (fields : list (jsstring * jsval)) :
  (forall p v, fst (zparse P valueType p v) = [] ->
               conforms P valueType (snd (zparse P valueType p v))) ->
  fst (parseEntries (zparse P valueType) at_path fields) = [] ->
  Forall (fun kv => conforms P valueType (snd kv))
         (snd (parseEntries (zparse P valueType) at_path fields)).
Proof.
  intros IH. induction fields as [|[k x] fields IHfields]; cbn [parseEntries].
  - constructor.
  - specialize (IH (at_path ++ [PKey k]) x).
    destruct (zparse P valueType (at_path ++ [PKey k]) x) as [issues y].
    destruct (parseEntries (zparse P valueType) at_path fields) as [issues' ys].
    cbn [fst snd] in *. intros [H1 H2]%app_eq_nil. constructor; auto.
Qed.

Definition parsedAt (at_path : list PathItem) (fields : list (jsstring * jsval))
    (k : jsstring) (sk : Schema) : list ZodIssue * jsval :=
  zparse P sk (at_path ++ [PKey k]) (default JUndefined (lookupField fields k)).

(** The entries that the keys of an object schema contribute. *)
Lemma parseShape_known (at_path : list PathItem) (fields : list (jsstring * jsval))
    (shape : list (jsstring * Schema)) :
  let known := snd (parseShapeWith (zparse P) at_path fields shape) in
  (forall k y, In (k, y) known ->
     exists sk, In (k, sk) shape /\ y = snd (parsedAt at_path fields k sk))
  /\ (forall k sk, In (k, sk) shape ->
        In (k, snd (parsedAt at_path fields k sk)) known
        \/ snd (parsedAt at_path fields k sk) = JUndefined)
  /\ (fst (parseShapeWith (zparse P) at_path fields shape) = [] ->
      forall k sk, In (k, sk) shape -> fst (parsedAt at_path fields k sk) = []).
Proof.
  unfold parsedAt. induction shape as [|[k0 sk0] shape IH]; cbn [parseShapeWith].
  - repeat split; intros; contradiction.
  - destruct (zparse P sk0 (at_path ++ [PKey k0]) (default JUndefined (lookupField fields k0)))
      as [issues y] eqn:Hhead.
    change ((fix parseShape (shape0 : list (jsstring * Schema)) :
               list ZodIssue * list (jsstring * jsval) := _) shape)
      with (parseShapeWith (zparse P) at_path fields shape).
    destruct (parseShapeWith (zparse P) at_path fields shape) as [issues' ys].
    cbn [fst snd] in *. destruct IH as (IHin & IHhas & IHissues).
    assert (Hsub : forall e, In e ys ->
              In e (match y, lookupField fields k0 with
                    | JUndefined, None => ys
                    | _, _ => (k0, y) :: ys
                    end)).
    { intros e He. destruct y, (lookupField fields k0); try (now right); exact He. }
    assert (Hcases :
              (match y, lookupField fields k0 with
               | JUndefined, None => ys
               | _, _ => (k0, y) :: ys
               end) = (k0, y) :: ys
              \/ (y = JUndefined
                  /\ (match y, lookupField fields k0 with
                      | JUndefined, None => ys
                      | _, _ => (k0, y) :: ys
                      end) = ys)).
    { destruct y, (lookupField fields k0); auto. }
    split; [|split].
    + intros k v Hv.
      assert (Hv' : (k, v) = (k0, y) \/ In (k, v) ys).
      { destruct Hcases as [E | [_ E]]; rewrite E in Hv; [|now right].
        destruct Hv as [Hv | Hv]; [left; now symmetry | now right]. }
      destruct Hv' as [[= -> ->] | Hv'].
      * exists sk0. split; [now left|]. now rewrite Hhead.
      * destruct (IHin k v Hv') as (sk & Hsk & ->). exists sk. split; [now right | reflexivity].
    + intros k sk [[= -> ->] | Hsk].
      * rewrite Hhead. cbn [snd].
        destruct Hcases as [E | [E _]]; [left; rewrite E; now left | now right].
      * destruct (IHhas k sk Hsk) as [H | H]; [left; now apply Hsub | now right].
    + intros [H1 H2]%app_eq_nil k sk [[= -> ->] | Hsk].
      * now rewrite Hhead.
      * now apply IHissues.
Qed.

Lemma NoDup_keys (shape : list (jsstring * Schema)) (k : jsstring) (sk sk' : Schema) :
  NoDup (map fst shape) -> In (k, sk) shape -> In (k, sk') shape -> sk = sk'.
Proof.
  induction shape as [|[k0 s0] shape IH]; [intros _ []|]. cbn [map fst].
  intros Hnodup. apply NoDup_cons in Hnodup as [Hfresh Hnodup].
  intros [[= -> ->] | H] [[= <-] | H']; try reflexivity.
  - exfalso. apply Hfresh. apply list_elem_of_In. now apply (in_map fst _ (k, sk')).
  - subst. exfalso. apply Hfresh. apply list_elem_of_In. now apply (in_map fst _ (k0, sk)).
  - now apply IH.
Qed.

Lemma extra_not_in_shape (shape : list (jsstring * Schema)) (fields : list (jsstring * jsval))
    (k : jsstring) (v : jsval) (sk : Schema) :
  In (k, v) (List.filter
               (fun kv => negb (existsb (fun ks => jsstring_eqb (fst ks) (fst kv)) shape))
               fields) ->
  ~ In (k, sk) shape.
Proof.
  intros [_ H]%filter_In Hsk. cbn [fst] in H. apply negb_true_iff in H.
  assert (E : existsb (fun ks => jsstring_eqb (fst ks) k) shape = true); [|congruence].
  apply existsb_exists. exists (k, sk). split; [exact Hsk|].
  unfold jsstring_eqb. now apply bool_decide_eq_true_2.
Qed.

(** What the validator returns has the shape of the schema again. *)
Lemma zparse_output_conforms (s : Schema) :
  wellFormed s ->
  forall at_path v, fst (zparse P s at_path v) = [] ->
                    conforms P s (snd (zparse P s at_path v)).
Proof.
  induction s as [checks|inner IH|element IH|valueType IH|shape IH] using Schema_nested_ind;
    intros Hwf at_path v Haccepts.
  - apply (zparse_accepts P (ZString checks) at_path v) in Haccepts as Hv.
    destruct Hv as (t & -> & Hchecks). now apply (zparse_accepts P (ZString checks) at_path).
  - destruct v; try (right; now apply (IH Hwf)). now left.
  - apply (zparse_accepts P (ZArray element) at_path v) in Haccepts as Hv.
    destruct Hv as (items & -> & _). cbn [zparse] in *.
    pose proof (parseItems_output element at_path items (IH Hwf) 0%nat) as Hout.
    destruct (parseItems (zparse P element) at_path 0 items) as [issues out].
    cbn [fst snd] in *. exists out. split; [reflexivity | now apply Hout].
  - apply (zparse_accepts P (ZRecord valueType) at_path v) in Haccepts as Hv.
    destruct Hv as (fields & -> & _). cbn [zparse] in *.
    pose proof (parseEntries_output valueType at_path fields (IH Hwf)) as Hout.
    destruct (parseEntries (zparse P valueType) at_path fields) as [issues out].
    cbn [fst snd] in *. specialize (Hout Haccepts). eexists. split; [reflexivity|].
    apply List.Forall_forall. intros [k y] Hy.
    apply (In_assignAll out [] (k, y)) in Hy as [Hy | []].
    rewrite List.Forall_forall in Hout. now apply (Hout (k, y)).
  - apply (zparse_accepts P (ZObject shape) at_path v) in Haccepts as Hv.
    destruct Hv as (fields & -> & _). cbn [zparse fst snd] in *.
    destruct Hwf as (Hnodup & Hproto & Hwf).
    destruct (parseShape_known at_path fields shape) as (Hin & Hhas & Hissues).
    specialize (Hissues Haccepts).
    set (known := snd (parseShapeWith (zparse P) at_path fields shape)) in *.
    set (extra := List.filter _ fields).
    apply conforms_object. eexists. split; [reflexivity|].
    fold (assignAll (known ++ extra) []).
    apply List.Forall_forall. intros [k sk] Hsk. cbn [fst snd].
    assert (Hwfk : wellFormed sk).
    { clear - Hwf Hsk. induction shape as [|[k0 s0] shape IHshape]; [destruct Hsk|].
      destruct Hwf as [H0 Hrest]. destruct Hsk as [[= -> ->] | Hsk]; [exact H0 | auto]. }
    assert (Hconforms : conforms P sk (snd (parsedAt at_path fields k sk))).
    { rewrite List.Forall_forall in IH. apply (IH (k, sk) Hsk Hwfk). now apply Hissues. }
    assert (Hunique : forall y, In (k, y) (known ++ extra) ->
              y = snd (parsedAt at_path fields k sk)).
    { intros y [Hy | Hy]%in_app_or.
      - destruct (Hin k y Hy) as (sk' & Hsk' & ->).
        now rewrite (NoDup_keys shape k sk sk' Hnodup Hsk Hsk').
      - exfalso. now apply (extra_not_in_shape shape fields k y sk Hy). }
    assert (Hk : k <> str "__proto__").
    { intros ->. apply Hproto. now apply (in_map fst _ (_, sk)). }
    destruct (Hhas k sk Hsk) as [Hknown | Hundefined].
    + rewrite (lookupField_assignAll (known ++ extra) [] k _ Hk Hunique);
        [exact Hconforms|]. left. apply in_or_app. now left.
    + destruct (lookupField (assignAll (known ++ extra) []) k) as [y|] eqn:Hlookup.
      * apply lookupField_In, In_assignAll in Hlookup as [Hy | []].
        rewrite (Hunique y Hy). exact Hconforms.
      * cbn [default from_option id]. now rewrite <- Hundefined.
Qed.

Lemma wellFormed_gistConfigSchema : wellFormed gistConfigSchema.
Proof.
  assert (Hchapter : wellFormed chapterSchema).
  { split; [|split].
    - cbn [map fst].
      repeat (apply NoDup_cons_2;
              [rewrite list_elem_of_In; vm_compute; intuition discriminate|]).
      apply NoDup_nil_2.
    - vm_compute. intuition discriminate.
    - repeat split. }
  split; [|split].
  - cbn [map fst].
    repeat (apply NoDup_cons_2;
            [rewrite list_elem_of_In; vm_compute; intuition discriminate|]).
    apply NoDup_nil_2.
  - vm_compute. intuition discriminate.
  - change (True /\ True /\ True /\ True /\ True /\ wellFormed chapterSchema /\ True).
    tauto.
Qed.

End OutputConforms.

Lemma Schema_parse_valid (P : Platform) (data config : jsval) :
  Schema_parse P gistConfigSchema data = ok config -> validManifest P config.
Proof.
  intros H. apply conforms_manifest. unfold Schema_parse in H.
  pose proof (zparse_output_conforms P gistConfigSchema (wellFormed_gistConfigSchema)
                [] data) as Hout.
  destruct (zparse P gistConfigSchema [] data) as [[|i issues] out]; [|discriminate H].
  injection H as <-. now apply Hout.
Qed.

Lemma requestGistConfig_valid (P : Platform) (gistId : jsstring) (w : World) (config : jsval) :
  fst (requestGistConfig P gistId w) = ok config -> validManifest P config.
Proof.
  unfold requestGistConfig, andThen, lift, raise, fetch.
  repeat match goal with
         | |- context [match ?x with _ => _ end] => destruct x eqn:?; cbn [fst snd]
         end; try discriminate; intros H; try discriminate H.
  all: eapply Schema_parse_valid; eassumption.
Qed.

Lemma fetchGistConfig_valid (P : Platform) (gistId : jsstring) (w : World) (config : jsval) :
  gistCache w !! (str "gist-" ++ gistId) = None ->
  fst (fetchGistConfig P gistId w) = ok config ->
  validManifest P config
  /\ gistCache (snd (fetchGistConfig P gistId w)) !! (str "gist-" ++ gistId) = Some config.
Proof.
  intros Hmiss. rewrite (fetchGistConfig_miss P gistId w Hmiss).
  destruct (fst (requestGistConfig P gistId w)) as [validated|e] eqn:Hrequest;
    [|discriminate]. cbn [fst snd]. intros [= ->]. split.
  - now apply (requestGistConfig_valid P gistId w).
  - cbn. apply lookup_insert_eq.
Qed.

(** X25. A manifest that has passed the validator has the declared shape.
    What [gistConfigSchema.parse] returns, and so what [fetchGistConfig]
    returns and caches when it had to ask the network, is an object with a
    title that is not empty, optional strings, and chapters that each have
    a title and, for [groups], an object of arrays of URL strings. *)
Theorem validated_manifest_is_valid (P : Platform) :
  (forall data config, Schema_parse P gistConfigSchema data = ok config ->
     validManifest P config)
  /\ (forall gistId w config,
        gistCache w !! (str "gist-" ++ gistId) = None ->
        fst (fetchGistConfig P gistId w) = ok config ->
        validManifest P config
        /\ gistCache (snd (fetchGistConfig P gistId w)) !! (str "gist-" ++ gistId)
           = Some config).
Proof.
  split.
  - apply Schema_parse_valid.
  - apply fetchGistConfig_valid.
Qed.

Lemma validated_manifest_is_valid_witness :
  exists config,
    fst (fetchGistConfig examplePlatform (str "g1") (exampleWorld gistNetwork)) = ok config
    /\ validManifest examplePlatform config.
Proof.
  destruct (fst (fetchGistConfig examplePlatform (str "g1") (exampleWorld gistNetwork)))
    as [config|e] eqn:Hfetch; [|vm_compute in Hfetch; discriminate Hfetch].
  exists config. split; [reflexivity|].
  destruct (validated_manifest_is_valid examplePlatform) as [_ H].
  now apply (H (str "g1") (exampleWorld gistNetwork) config eq_refl).
Defined.

(** ** The gist reader page on a valid manifest *)

Lemma urlList_strings (P : Platform) (urls : list jsval) :
  Forall (fun u => exists t, u = JStr t /\ isValidURL P t = true) urls ->
  forallb isString urls = true.
Proof.
  induction 1 as [|u urls (t & -> & _) _ IH]; [reflexivity|]. exact IH.
Qed.

(** X26. Which pages the gist reader page takes from a valid manifest.  For
    a manifest of the shape the validator lets through, the chapter key
    decides: a key that is no chapter gives the chapter-not-found error (or
    the no-groups error when it names something on the prototype chain); a
    chapter without groups the no-groups error; otherwise the first group
    alone counts, whatever other groups there are: its list of URLs is what
    the reader gets, and when that list is empty the page reports invalid
    source data. *)
Theorem valid_manifest_chapter_pages (P : Platform) (inherits : jsval -> jsstring -> bool)
    (config : jsval) (chapterKey : jsstring) :
  validManifest P config ->
  exists fields chapters,
    config = JObj fields /\ fieldOf fields "chapters" = JObj chapters
    /\ match lookupField chapters chapterKey with
       | None =>
           chapterPages inherits config chapterKey
           = throw (if inherits (JObj chapters) chapterKey
                    then NoGroupsError chapterKey
                    else ChapterNotFoundError chapterKey)
       | Some chapter =>
           exists cf groups,
             chapter = JObj cf /\ fieldOf cf "groups" = JObj groups
             /\ match groups with
                | [] => chapterPages inherits config chapterKey
                        = throw (NoGroupsError chapterKey)
                | (firstGroupName, source) :: _ =>
                    exists urls,
                      source = JArr urls
                      /\ chapterPages inherits config chapterKey
                         = match urls with
                           | [] => throw (InvalidSourceError chapterKey firstGroupName)
                           | _ :: _ => ok urls
                           end
                end
       end.
Proof.
  intros Hvalid.
  destruct Hvalid as (fields & -> & _ & _ & _ & _ & _ & chapters & Hchapters & Hall).
  exists fields, chapters. split; [reflexivity|]. split; [exact Hchapters|].
  unfold chapterPages. cbn [Get]. unfold fieldOf in Hchapters. rewrite Hchapters.
  cbn [bind member ownProperty].
  destruct (lookupField chapters chapterKey) as [chapter|] eqn:Hchapter.
  - apply lookupField_In in Hchapter.
    rewrite List.Forall_forall in Hall. specialize (Hall (chapterKey, chapter) Hchapter).
    cbn [snd] in Hall. destruct Hall as (cf & -> & _ & _ & groups & Hgroups & Hurls).
    exists cf, groups. split; [reflexivity|]. split; [exact Hgroups|].
    cbn [ToBoolean negb Get]. unfold fieldOf in Hgroups. rewrite Hgroups.
    cbn [bind orElse ToBoolean Object_keys].
    destruct groups as [|[name source] groups]; [reflexivity|].
    apply Forall_cons in Hurls as [(urls & Hsource & Hstrings) _]. cbn [snd] in Hsource.
    subst source. exists urls. split; [reflexivity|].
    cbn [map fst ownProperty lookupField]. unfold jsstring_eqb.
    rewrite bool_decide_eq_true_2 by reflexivity. cbn [default from_option id].
    destruct urls as [|u urls]; [reflexivity|].
    now rewrite (urlList_strings P (u :: urls) Hstrings).
  - destruct (inherits (JObj chapters) chapterKey); reflexivity.
Qed.

Lemma valid_manifest_chapter_pages_witness :
  chapterPages noPrototype exampleManifest (str "1")
  = ok [JStr (str "https://i.imgur.com/p1.png"); JStr (str "https://i.imgur.com/p2.png")].
Proof.
  assert (Hvalid : validManifest examplePlatform exampleManifest).
  { apply conforms_manifest, zparse_accepts with (at_path := []). reflexivity. }
  destruct (valid_manifest_chapter_pages examplePlatform noPrototype exampleManifest
              (str "1") Hvalid) as (fields & chapters & Hfields & Hchapters & H).
  injection Hfields as <-. vm_compute in Hchapters. injection Hchapters as <-.
  destruct H as (cf & groups & Hcf & Hgroups & H).
  injection Hcf as <-. vm_compute in Hgroups. injection Hgroups as <-.
  destruct H as (urls & Hurls & H). injection Hurls as <-. exact H.
Defined.

(** X27. The earlier form of the page, which takes the value of a group for
    a source path, cannot show a chapter of a manifest that the validator
    lets through: the value is a list and not a string, so that whenever the
    configuration comes from the network, the page shows an error view, the
    resolver is not called, and nothing but the gist is fetched. *)
Theorem resolving_page_shows_no_valid_chapter (P : Platform)
    (inherits : jsval -> jsstring -> bool) (gistId chapterKey : jsstring) (w : World) :
  gistCache w !! (str "gist-" ++ gistId) = None ->
  (forall config, validManifest P config ->
     exists cause, chapterSourcePath inherits config chapterKey = throw cause)
  /\ (exists view,
        GistReaderPage_resolving P inherits gistId chapterKey w
        = (ok view, if negb (ToBoolean (JStr gistId)) || negb (ToBoolean (JStr chapterKey))
                    then w else snd (fetchGistConfig P gistId w))
        /\ forall id key pages config, view <> GistReader id key pages config).
Proof.
  intros Hmiss.
  assert (Hpath : forall config, validManifest P config ->
            exists cause, chapterSourcePath inherits config chapterKey = throw cause).
  { intros config (fields & -> & _ & _ & _ & _ & _ & chapters & Hchapters & Hall).
    unfold chapterSourcePath. cbn [Get]. unfold fieldOf in Hchapters. rewrite Hchapters.
    cbn [bind member ownProperty].
    destruct (lookupField chapters chapterKey) as [chapter|] eqn:Hchapter.
    - apply lookupField_In in Hchapter.
      rewrite List.Forall_forall in Hall. specialize (Hall (chapterKey, chapter) Hchapter).
      cbn [snd] in Hall. destruct Hall as (cf & -> & _ & _ & groups & Hgroups & Hurls).
      cbn [ToBoolean negb Get]. unfold fieldOf in Hgroups. rewrite Hgroups.
      cbn [bind orElse ToBoolean Object_keys].
      destruct groups as [|[name source] groups]; [now eexists|].
      apply Forall_cons in Hurls as [(urls & Hsource & _) _]. cbn [snd] in Hsource.
      subst source. cbn [map fst ownProperty lookupField]. unfold jsstring_eqb.
      rewrite bool_decide_eq_true_2 by reflexivity. cbn [default from_option id].
      now eexists.
    - destruct (inherits (JObj chapters) chapterKey); now eexists. }
  split; [exact Hpath|].
  unfold GistReaderPage_resolving.
  destruct (negb (ToBoolean (JStr gistId)) || negb (ToBoolean (JStr chapterKey))).
  { eexists. split; [reflexivity|]. discriminate. }
  assert (Hfetched : forall config, fst (fetchGistConfig P gistId w) = ok config ->
            validManifest P config).
  { intros config Hconfig. now apply (fetchGistConfig_valid P gistId w config Hmiss). }
  destruct (fst (fetchGistConfig P gistId w)) as [config|cause] eqn:Hfetch; cbn [bind].
  - destruct (Hpath config (Hfetched config eq_refl)) as [cause ->]. cbn [fst snd ToBoolean].
    destruct (str "Failed to load chapter: " ++ errorMessage P cause) eqn:E;
      [vm_compute in E; discriminate E|].
    eexists. split; [reflexivity|]. discriminate.
  - cbn [fst snd ToBoolean].
    destruct (str "Failed to load chapter: " ++ errorMessage P cause) eqn:E;
      [vm_compute in E; discriminate E|].
    eexists. split; [reflexivity|]. discriminate.
Qed.

Lemma resolving_page_shows_no_valid_chapter_witness :
  exists message,
    fst (GistReaderPage_resolving examplePlatform noPrototype (str "g1") (str "1")
           (exampleWorld gistNetwork))
    = ok (ErrorLoadingChapter message).
Proof.
  destruct (resolving_page_shows_no_valid_chapter examplePlatform noPrototype
              (str "g1") (str "1") (exampleWorld gistNetwork) eq_refl)
    as [_ (view & Hview & Hnot)].
  rewrite Hview. cbn [fst].
  destruct view as [|message| |id key pages config].
  - vm_compute in Hview. discriminate Hview.
  - now exists message.
  - vm_compute in Hview. discriminate Hview.
  - now contradiction (Hnot id key pages config).
Defined.

(** ** The page label and the page area *)

(** X28. The page label names the pages that are on screen.  On a whole
    page [c] of the list, either one image is shown, that of page [c], and
    the label reads [c / total]; or the view is double, the images of pages
    [c] and [c + 1] are shown, and the label reads [c-(c+1) / total]. *)
Theorem page_label_matches_page_area (P : Platform) (pages : list jsval) (c : nat)
    (mode : ViewMode) (leftPage : jsval) :
  pages !! c = Some leftPage ->
  let r := {| currentPage := of_nat (S c); viewMode := mode |} in
  let total := Number_toString P (of_nat (length pages)) in
  (shownImages (pageArea pages r) = [leftPage]
   /\ getPageDisplay P (length pages) r
      = Number_toString P (of_nat (S c)) ++ str " / " ++ total)
  \/ (exists rightPage,
        mode = double /\ pages !! S c = Some rightPage
        /\ shownImages (pageArea pages r) = [leftPage; rightPage]
        /\ getPageDisplay P (length pages) r
           = Number_toString P (of_nat (S c)) ++ str "-"
             ++ Number_toString P (of_nat (S (S c))) ++ str " / " ++ total).
Proof.
  intros Hleft r total. subst r total.
  pose proof (lookup_lt_Some _ _ _ Hleft) as Hlt.
  destruct (pageArea_on_page pages c leftPage Hleft) as [Hsingle Hdouble].
  unfold getPageDisplay. cbn [viewMode currentPage].
  destruct (Nat.eqb_spec (length pages) 0) as [H0 | _]; [lia|].
  rewrite (num_leb_of_Z (Z.of_nat (length pages)) (Z.of_nat (S c))
           : num_leb (of_nat (length pages)) (of_nat (S c)) = _).
  destruct mode.
  - left. rewrite Hsingle. now split.
  - rewrite Hdouble. cbn [orb].
    destruct (pages !! S c) as [rightPage|] eqn:Hright.
    + right. exists rightPage. apply lookup_lt_Some in Hright.
      destruct (Z.leb_spec (Z.of_nat (length pages)) (Z.of_nat (S c))); [lia|].
      repeat split.
      replace (num_add (of_nat (S c)) (of_Z 1)) with (of_nat (S (S c))); [reflexivity|].
      unfold of_nat. rewrite num_add_of_Z. f_equal. lia.
    + left. apply lookup_ge_None in Hright.
      destruct (Z.leb_spec (Z.of_nat (length pages)) (Z.of_nat (S c))); [|lia].
      now split.
Qed.

Lemma page_label_matches_page_area_witness :
  shownImages (pageArea (examplePages 7)
                 {| currentPage := of_nat 6; viewMode := double |})
  = [JStr (str "https://i.imgur.com/p6.png"); JStr (str "https://i.imgur.com/p7.png")]
  /\ getPageDisplay examplePlatform 7 {| currentPage := of_nat 6; viewMode := double |}
     = str "6-7 / 7".
Proof.
  destruct (page_label_matches_page_area examplePlatform (examplePages 7) 5 double
              (JStr (str "https://i.imgur.com/p6.png")) eq_refl)
    as [[H _] | (rightPage & _ & Hright & Hshown & Hlabel)].
  - vm_compute in H. discriminate H.
  - injection Hright as <-. split; [exact Hshown | exact Hlabel].
Defined.

(** ** The chapter menu *)

Lemma lookupField_of_key (fields : list (jsstring * jsval)) (k : jsstring) :
  In k (map fst fields) -> exists v, lookupField fields k = Some v.
Proof.
  induction fields as [|[k' v'] fields IH]; [intros []|]. cbn [map fst lookupField].
  unfold jsstring_eqb. destruct (bool_decide_reflect (k' = k)) as [-> | Hk].
  - intros _. now exists v'.
  - intros [H | H]; [congruence | now apply IH].
Qed.

(** X29. The chapter menu lists every chapter of a valid manifest once and
    leaves no title blank: its keys are the keys of [chapters] in another
    order, and each entry carries the title of its chapter, or
    [Chapter <key>] when that title is the empty string. *)
Theorem chapter_menu_lists_every_chapter (P : Platform) (config : jsval) :
  validManifest P config ->
  exists fields chapters entries,
    config = JObj fields /\ fieldOf fields "chapters" = JObj chapters
    /\ sortedChapters P config = ok entries
    /\ map entryKey entries = sortChapterKeys P (map fst chapters)
    /\ Permutation (map fst chapters) (map entryKey entries)
    /\ Forall (fun e =>
         exists cf t,
           lookupField chapters (entryKey e) = Some (JObj cf)
           /\ fieldOf cf "title" = JStr t
           /\ entryTitle e = JStr (match t with
                                   | [] => str "Chapter " ++ entryKey e
                                   | _ => t
                                   end)) entries.
Proof.
  intros (fields & -> & _ & _ & _ & _ & _ & chapters & Hchapters & Hall).
  exists fields, chapters. unfold sortedChapters. cbn [Get]. unfold fieldOf in Hchapters.
  rewrite Hchapters. cbn [bind ToBoolean negb Object_keys ownProperty].
  pose proof (Array_sort_Permutation (chapterKeyCompare P) (map fst chapters)) as Hperm.
  fold (sortChapterKeys P (map fst chapters)) in Hperm.
  assert (Hkeys : Forall (fun k => In k (map fst chapters))
                    (sortChapterKeys P (map fst chapters))).
  { apply List.Forall_forall. intros k Hk.
    now apply (Permutation_in _ (Permutation_sym Hperm)). }
  assert (Hentries : forall keys, Forall (fun k => In k (map fst chapters)) keys ->
            exists entries,
              sequence
                (map (fun key =>
                        title <- Get (default JUndefined (lookupField chapters key))
                                   (str "title") ;;
                        ok {| entryKey := key;
                              entryTitle := orElse title (JStr (str "Chapter " ++ key)) |})
                     keys) = ok entries
              /\ map entryKey entries = keys
              /\ Forall (fun e =>
                   exists cf t,
                     lookupField chapters (entryKey e) = Some (JObj cf)
                     /\ fieldOf cf "title" = JStr t
                     /\ entryTitle e = JStr (match t with
                                             | [] => str "Chapter " ++ entryKey e
                                             | _ => t
                                             end)) entries).
  { intros keys. induction 1 as [|k keys Hk _ IH].
    - exists []. repeat split. constructor.
    - destruct IH as (entries & Hseq & Hmap & Hentries).
      destruct (lookupField_of_key chapters k Hk) as [chapter Hchapter].
      pose proof (lookupField_In _ _ _ Hchapter) as Hin.
      rewrite List.Forall_forall in Hall. specialize (Hall (k, chapter) Hin).
      cbn [snd] in Hall. destruct Hall as (cf & -> & (t & Htitle) & _).
      cbn [map sequence]. rewrite Hchapter. cbn [default from_option id Get].
      unfold fieldOf in Htitle. rewrite Htitle. cbn [bind]. rewrite Hseq. cbn [bind].
      eexists. split; [reflexivity|]. split; [cbn [map entryKey]; now rewrite Hmap|].
      constructor; [|exact Hentries]. exists cf, t. cbn [entryKey entryTitle].
      split; [exact Hchapter|]. split; [exact Htitle|]. now destruct t. }
  destruct (Hentries _ Hkeys) as (entries & Hseq & Hmap & Hall').
  exists entries. split; [reflexivity|]. split; [exact Hchapters|]. split; [exact Hseq|].
  split; [exact Hmap|]. split; [now rewrite Hmap | exact Hall'].
Qed.

Lemma chapter_menu_lists_every_chapter_witness :
  exists entries,
    sortedChapters examplePlatform exampleManifest = ok entries
    /\ map entryKey entries = [str "1"].
Proof.
  assert (Hvalid : validManifest examplePlatform exampleManifest).
  { apply conforms_manifest, zparse_accepts with (at_path := []). reflexivity. }
  destruct (chapter_menu_lists_every_chapter examplePlatform exampleManifest Hvalid)
    as (fields & chapters & entries & Hfields & Hchapters & Hentries & Hkeys & _).
  exists entries. split; [exact Hentries|]. rewrite Hkeys.
  injection Hfields as <-. vm_compute in Hchapters. injection Hchapters as <-.
  reflexivity.
Defined.
